(** * hacky-fabric: versioned world state, ingestion and simulation

    A shallow embedding of the Go packages [storage] (db.go, sim.go) and
    [committer] (storage.go, stub.go, committer.go), and the properties of
    the versioned store, the simulation session and the synchronisation
    wait that are proved about them; then of the block feed
    ([comm.SubscribeBlocks], [Committer.Run], [parseBlock]) and of the
    chaincode executor of package [integration].

    Conventions.
    - A Go [uint64] or [int] is a [Z]; conversions between signed and
      unsigned 64-bit integers are written out with [mod].
    - A Go [[]byte] is an [option (list byte)]: [None] is the nil slice.
    - A Go [error] is an [option string]: [None] is [nil], [Some msg] an
      error with message [msg]; [fmt.Errorf("p: %w", err)] prepends [p].
    - A Go [map[string]T] is a [gmap string T].
    - The SQL backend is a value of [sql.DB]: the rows of the two tables.
      Every statement sent to it may fail for reasons outside the program
      (I/O, a rejected parameter, a lost connection); each such outcome is
      an explicit argument of the operation that issues the statement. *)

From Stdlib Require Import ZArith Lia List Bool.
From Stdlib Require Import Strings.String Strings.Byte.
From stdpp Require Import gmap strings list fin_maps sorting.

Local Open Scope Z_scope.

(** ** Go values *)

Definition error : Type := string.

Definition bytes : Type := option (list byte).

Definition len (b : bytes) : Z :=
  match b with
  | None => 0
  | Some l => Z.of_nat (length l)
  end.

(** [[]byte("...")] *)
Definition bytes_of (s : string) : bytes := Some (list_byte_of_string s).

(** [fmt.Errorf(prefix + ": %w", err)] *)
Definition wrap (prefix : string) (err : error) : error :=
  String.append prefix (String.append ": " err).

Definition uint64 (z : Z) : Z := z mod 2 ^ 64.

Definition is_uint64 (z : Z) : Prop := 0 <= z < 2 ^ 64.

(** ** The SQL backend *)

Module sql.

(** The primary key of [worldstate_<channel>]:
    [(namespace, key, version_block, version_tx)]. *)
Abbreviation PK := (string * string * Z * Z)%type.

(** The remaining columns that the queries read:
    [value], [is_delete], [tx_id]. *)
Record Row : Type := mkRow {
  value : bytes;
  is_delete : bool;
  tx_id : string
}.

(** One channel's table and the shared [channel_progress] table
    (channel -> last_block). *)
Record DB : Type := mkDB {
  worldstate : gmap PK Row;
  channel_progress : gmap string Z
}.

Definition empty : DB := mkDB ∅ ∅.

(** [INSERT ... ON CONFLICT (namespace, key, version_block, version_tx)
    DO NOTHING] and [INSERT OR IGNORE]. *)
Definition insert_ignore (k : PK) (r : Row) (t : gmap PK Row) : gmap PK Row :=
  match t !! k with
  | Some _ => t
  | None => <[k := r]> t
  end.

(** [INSERT INTO channel_progress(channel, last_block) VALUES (?, ?)
    ON CONFLICT(channel) DO UPDATE SET last_block = excluded.last_block
    WHERE excluded.last_block > channel_progress.last_block]. *)
Definition upsert_progress (channel : string) (last_block : Z)
    (t : gmap string Z) : gmap string Z :=
  match t !! channel with
  | None => <[channel := last_block]> t
  | Some stored =>
      if stored <? last_block then <[channel := last_block]> t else t
  end.

Definition exec_insert (k : PK) (r : Row) (d : DB) : DB :=
  mkDB (insert_ignore k r (worldstate d)) (channel_progress d).

Definition exec_progress (channel : string) (last_block : Z) (d : DB) : DB :=
  mkDB (worldstate d) (upsert_progress channel last_block (channel_progress d)).

(** [ORDER BY version_block DESC, version_tx DESC] and
    [ORDER BY version_block, version_tx], on the selected rows. *)
Definition version_desc (a b : PK * Row) : Prop :=
  a.1.1.2 > b.1.1.2 \/ (a.1.1.2 = b.1.1.2 /\ a.1.2 >= b.1.2).

Definition version_asc (a b : PK * Row) : Prop :=
  a.1.1.2 < b.1.1.2 \/ (a.1.1.2 = b.1.1.2 /\ a.1.2 <= b.1.2).

#[global] Instance version_desc_dec a b : Decision (version_desc a b).
Proof. unfold version_desc. solve_decision. Defined.

#[global] Instance version_asc_dec a b : Decision (version_asc a b).
Proof. unfold version_asc. solve_decision. Defined.

(** [WHERE namespace = $1 AND key = $2 AND version_block <= $3] *)
Definition at_or_before (namespace key : string) (ceiling : Z)
    (e : PK * Row) : Prop :=
  e.1.1.1.1 = namespace /\ e.1.1.1.2 = key /\ e.1.1.2 <= ceiling.

(** [WHERE namespace = $1 AND key = $2] *)
Definition of_key (namespace key : string) (e : PK * Row) : Prop :=
  e.1.1.1.1 = namespace /\ e.1.1.1.2 = key.

#[global] Instance at_or_before_dec ns k c e : Decision (at_or_before ns k c e).
Proof. unfold at_or_before. solve_decision. Defined.

#[global] Instance of_key_dec ns k e : Decision (of_key ns k e).
Proof. unfold of_key. solve_decision. Defined.

(** The rows a [SELECT] ranges over are the entries of the table. *)
Definition stored (t : gmap PK Row) (e : PK * Row) : Prop :=
  t !! e.1 = Some e.2.

(** [SELECT ... WHERE ... AND version_block <= $3
    ORDER BY version_block DESC, version_tx DESC LIMIT 1] *)
Definition select_latest_before (namespace key : string) (ceiling : Z)
    (t : gmap PK Row) : option (PK * Row) :=
  head (merge_sort version_desc
          (filter (at_or_before namespace key ceiling) (map_to_list t))).

(** [SELECT ... ORDER BY version_block DESC, version_tx DESC LIMIT 1] *)
Definition select_latest (namespace key : string)
    (t : gmap PK Row) : option (PK * Row) :=
  head (merge_sort version_desc
          (filter (of_key namespace key) (map_to_list t))).

(** [SELECT ... ORDER BY version_block, version_tx] *)
Definition select_history (namespace key : string)
    (t : gmap PK Row) : list (PK * Row) :=
  merge_sort version_asc (filter (of_key namespace key) (map_to_list t)).

(** A transaction: the database as it stands for everybody else, and
    the view inside the transaction with the statements executed so
    far. [Commit] publishes the view; [Rollback] drops it, and after a
    commit has nothing left to drop. *)
Record Tx : Type := mkTx {
  committed : DB;
  pending : DB
}.

Definition Begin (d : DB) : Tx := mkTx d d.

Definition Exec (stmt : DB -> DB) (tx : Tx) : Tx :=
  mkTx (committed tx) (stmt (pending tx)).

Definition Commit (tx : Tx) : Tx := mkTx (pending tx) (pending tx).

Definition Rollback (tx : Tx) : DB := committed tx.

(** [database/sql] binds the arguments of a statement before the
    statement is sent. An argument of type [uint64] with the high bit set
    is refused there, for a BIGINT has no such value: the statement fails
    with the error [refusal] of the driver, whatever the tables hold and
    whatever the environment does. For any other argument [outcome] is
    what becomes of the statement. *)
Definition bind_uint64 (refusal : error) (arg : Z) (outcome : option error)
    : option error :=
  if 2 ^ 63 <=? arg then Some refusal else outcome.

End sql.

(** ** Package storage: db.go *)

Module storage.

(** [type WriteRecord struct] *)
Record WriteRecord : Type := mkWriteRecord {
  Namespace : string;
  Key : string;
  BlockNum : Z;
  TxNum : Z;
  Value : bytes;
  IsDelete : bool;
  TxID : string
}.

(** [type VersionedDB struct]; [backend] stands for the database behind
    the [*sql.DB] handle. *)
Record VersionedDB : Type := mkVersionedDB {
  channel : string;
  table : string;
  backend : sql.DB
}.

Definition New (channel : string) (db : sql.DB) : VersionedDB :=
  mkVersionedDB channel (String.append "worldstate_" channel) db.

Definition with_backend (s : VersionedDB) (d : sql.DB) : VersionedDB :=
  mkVersionedDB (channel s) (table s) d.

(** The arguments of the insert statement, and the row scanned back. *)
Definition pk (w : WriteRecord) : sql.PK :=
  (Namespace w, Key w, BlockNum w, TxNum w).

Definition row (w : WriteRecord) : sql.Row :=
  sql.mkRow (Value w) (IsDelete w) (TxID w).

Definition scan (e : sql.PK * sql.Row) : WriteRecord :=
  mkWriteRecord e.1.1.1.1 e.1.1.1.2 e.1.1.2 e.1.2
    (sql.value e.2) (sql.is_delete e.2) (sql.tx_id e.2).

(** Outcomes of the statements of one [BatchInsert] call, chosen by the
    environment: [None] lets the statement run. [on_exec i] is the
    outcome of the insert of the [i]-th record. *)
Record Faults : Type := mkFaults {
  on_begin : option error;
  on_prepare : option error;
  on_exec : nat -> option error;
  on_progress : option error;
  on_commit : option error
}.

Definition no_faults : Faults :=
  mkFaults None None (fun _ => None) None None.

(** [func (s *VersionedDB) Init() error]: the schema is part of [sql.DB],
    the [CREATE ... IF NOT EXISTS] statements add no rows. *)
Definition Init (fault : option error) (s : VersionedDB)
    : VersionedDB * option error :=
  match fault with
  | Some err => (s, Some (wrap (String.append "init table " (table s)) err))
  | None => (s, None)
  end.

(** [func (s *VersionedDB) InsertWrite(w WriteRecord) error] *)
Definition InsertWrite (fault : option error) (s : VersionedDB)
    (w : WriteRecord) : VersionedDB * option error :=
  match fault with
  | Some err => (s, Some (wrap "insert write" err))
  | None => (with_backend s (sql.exec_insert (pk w) (row w) (backend s)), None)
  end.

(** [func (s *VersionedDB) MarkProcessed(tx *sql.Tx, blockNum uint64) error]:
    with [tx == nil] the statement runs on the backend itself, otherwise
    inside the transaction. *)
Definition MarkProcessed (fault : option error) (s : VersionedDB)
    (tx : option sql.Tx) (blockNum : Z)
    : VersionedDB * option sql.Tx * option error :=
  match fault with
  | Some err => (s, tx, Some (wrap "update last block exec" err))
  | None =>
      match tx with
      | None =>
          (with_backend s (sql.exec_progress (channel s) blockNum (backend s)),
           None, None)
      | Some t =>
          (s, Some (sql.Exec (sql.exec_progress (channel s) blockNum) t), None)
      end
  end.

(** The loop [for _, w := range writes { stmt.Exec(...) }] of
    [BatchInsert], from index [i] on. *)
Fixpoint exec_all (on_exec : nat -> option error) (i : nat) (tx : sql.Tx)
    (writes : list WriteRecord) : sql.Tx * option error :=
  match writes with
  | [] => (tx, None)
  | w :: rest =>
      match on_exec i with
      | Some err => (tx, Some (wrap "batch insert exec" err))
      | None =>
          exec_all on_exec (S i)
            (sql.Exec (sql.exec_insert (pk w) (row w)) tx) rest
      end
  end.

(** The body of [BatchInsert] between [Begin] and the deferred
    [tx.Rollback()]; [first] is [writes[0]]. *)
Definition batch_body (f : Faults) (s : VersionedDB) (tx : sql.Tx)
    (first : WriteRecord) (writes : list WriteRecord)
    : sql.Tx * option error :=
  match on_prepare f with
  | Some err => (tx, Some (wrap "prepare batch insert" err))
  | None =>
      match exec_all (on_exec f) 0 tx writes with
      | (tx1, Some err) => (tx1, Some err)
      | (tx1, None) =>
          match MarkProcessed (on_progress f) s (Some tx1) (BlockNum first) with
          | (_, _, Some err) => (tx1, Some err)
          | (_, None, None) => (tx1, None)
          | (_, Some tx2, None) =>
              match on_commit f with
              | Some err => (tx2, Some (wrap "commit batch insert" err))
              | None => (sql.Commit tx2, None)
              end
          end
      end
  end.

(** [func (s *VersionedDB) BatchInsert(writes []WriteRecord) error] *)
Definition BatchInsert (f : Faults) (s : VersionedDB)
    (writes : list WriteRecord) : VersionedDB * option error :=
  match writes with
  | [] => (s, None)
  | first :: _ =>
      match on_begin f with
      | Some err => (s, Some (wrap "begin batch insert" err))
      | None =>
          let '(tx, err) := batch_body f s (sql.Begin (backend s)) first writes in
          (with_backend s (sql.Rollback tx), err)
      end
  end.

(** [func (s *VersionedDB) Get(namespace, key string, lastBlock uint64)],
    returning a record pointer and an error; [sql.ErrNoRows] gives
    [(nil, nil)]. [fault] is the outcome of the query. For a caller it is
    [sql.bind_uint64 refusal lastBlock outcome]: the query has [lastBlock]
    as an argument, and for a ceiling from 2^63 on it is refused. *)
Definition Get (fault : option error) (s : VersionedDB)
    (namespace key : string) (lastBlock : Z)
    : option WriteRecord * option error :=
  match fault with
  | Some err => (None, Some (wrap "get current" err))
  | None =>
      (scan <$> sql.select_latest_before namespace key lastBlock
                  (sql.worldstate (backend s)), None)
  end.

(** [func (s *VersionedDB) GetCurrent(namespace, key string)] *)
Definition GetCurrent (fault : option error) (s : VersionedDB)
    (namespace key : string) : option WriteRecord * option error :=
  match fault with
  | Some err => (None, Some (wrap "get current" err))
  | None =>
      (scan <$> sql.select_latest namespace key (sql.worldstate (backend s)),
       None)
  end.

(** [func (s *VersionedDB) GetHistory(namespace, key string)] *)
Definition GetHistory (fault : option error) (s : VersionedDB)
    (namespace key : string) : list WriteRecord * option error :=
  match fault with
  | Some err => ([], Some (wrap "get history" err))
  | None =>
      (scan <$> sql.select_history namespace key (sql.worldstate (backend s)),
       None)
  end.

(** [func (s *VersionedDB) LastProcessedBlock() (uint64, error)]: no row
    for the channel gives [0]; the stored [int64] is converted to
    [uint64]. *)
Definition LastProcessedBlock (fault : option error) (s : VersionedDB)
    : Z * option error :=
  match fault with
  | Some err => (0, Some (wrap "query last processed block" err))
  | None =>
      match sql.channel_progress (backend s) !! channel s with
      | None => (0, None)
      | Some lastBlock => (uint64 lastBlock, None)
      end
  end.

(** *** sim.go *)

Record Version : Type := mkVersion {
  Version_BlockNum : Z;
  Version_TxNum : Z
}.

(** [KVRead_Version] is a pointer in the source: [None] is [nil]. *)
Record KVRead : Type := mkKVRead {
  KVRead_Key : string;
  KVRead_Version : option Version
}.

Record KVWrite : Type := mkKVWrite {
  KVWrite_Key : string;
  KVWrite_IsDelete : bool;
  KVWrite_Value : bytes
}.

(** [type ReadStore interface { Get(string, string, uint64) ... }]: a
    value of the interface is its one method. *)
Definition ReadStore : Type :=
  string -> string -> Z -> option WriteRecord * option error.

(** A [*VersionedDB] used as a [ReadStore]; [fault key] is the outcome of
    the query issued for [key]. *)
Definition VersionedDB_ReadStore (fault : string -> option error)
    (s : VersionedDB) : ReadStore :=
  fun namespace key lastBlock => Get (fault key) s namespace key lastBlock.

(** [type SimulationStore struct]. The two maps are shared by every copy
    of the struct, so the methods with a value receiver update them for
    the caller too: each method returns the session after the call. *)
Record SimulationStore : Type := mkSimulationStore {
  readOwnWrites : bool;
  namespace : string;
  store : ReadStore;
  blockNum : Z;
  reads : gmap string KVRead;
  writes : gmap string KVWrite
}.

Definition set_reads (s : SimulationStore) (r : gmap string KVRead)
    : SimulationStore :=
  mkSimulationStore (readOwnWrites s) (namespace s) (store s) (blockNum s)
    r (writes s).

Definition set_writes (s : SimulationStore) (w : gmap string KVWrite)
    : SimulationStore :=
  mkSimulationStore (readOwnWrites s) (namespace s) (store s) (blockNum s)
    (reads s) w.

(** [func (s *VersionedDB) NewSimulationStore(namespace string,
    blockNum uint64, readOwnWrites bool) (SimulationStore, error)] *)
Definition NewSimulationStore (last_fault : option error)
    (get_fault : string -> option error) (s : VersionedDB)
    (namespace : string) (blockNum : Z) (readOwnWrites : bool)
    : SimulationStore + error :=
  let session version :=
    mkSimulationStore readOwnWrites namespace
      (VersionedDB_ReadStore get_fault s) version ∅ ∅ in
  if blockNum =? 0 then
    match LastProcessedBlock last_fault s with
    | (_, Some err) => inr err
    | (lastBlock, None) => inl (session lastBlock)
    end
  else inl (session blockNum).

(** [func (s SimulationStore) GetState(key string) ([]byte, error)].
    The local [val] is declared and returned, and nothing is assigned to
    it in between. *)
Definition GetState (s : SimulationStore) (key : string)
    : SimulationStore * (bytes * option error) :=
  match (if readOwnWrites s then writes s !! key else None) with
  | Some record =>
      if KVWrite_IsDelete record then (s, (None, None))
      else (s, (KVWrite_Value record, None))
  | None =>
      match store s (namespace s) key (blockNum s) with
      | (_, Some err) => (s, (None, Some err))
      | (record, None) =>
          let val : bytes := None in
          let read := mkKVRead key None in
          match record with
          | Some r =>
              if IsDelete r then (s, (None, None))
              else
                let read :=
                  mkKVRead key (Some (mkVersion (BlockNum r) (TxNum r))) in
                (set_reads s (<[key := read]> (reads s)), (val, None))
          | None => (set_reads s (<[key := read]> (reads s)), (val, None))
          end
      end
  end.

(** [func (s SimulationStore) PutState(key string, value []byte) error] *)
Definition PutState (s : SimulationStore) (key : string) (value : bytes)
    : SimulationStore * option error :=
  if Nat.eqb (String.length key) 0 then (s, Some "key is empty"%string)
  else if len value =? 0 then (s, Some "key is empty"%string)
  else (set_writes s (<[key := mkKVWrite key false value]> (writes s)), None).

(** [func (s SimulationStore) DelState(key string) error] *)
Definition DelState (s : SimulationStore) (key : string)
    : SimulationStore * option error :=
  (set_writes s (<[key := mkKVWrite key true None]> (writes s)), None).

Record ReadWriteSet : Type := mkReadWriteSet {
  Reads : list KVRead;
  Writes : list KVWrite
}.

(** [func (s *SimulationStore) Result() ReadWriteSet]: one entry per map
    entry; Go leaves the iteration order of a map open, the order of
    [map_to_list] stands for it. *)
Definition Result (s : SimulationStore) : ReadWriteSet :=
  mkReadWriteSet (map_to_list (reads s)).*2 (map_to_list (writes s)).*2.

(** [func (s *SimulationStore) Version() uint64] *)
Definition SimulationStore_Version (s : SimulationStore) : Z := blockNum s.

(** *** Histories of calls

    The callers of the store (the committer) and of a session (a
    chaincode) issue calls one after the other; a history is the list of
    calls with their arguments. *)

(** The rows present after the inserts of one batch have all run. *)
Definition insert_all (writes : list WriteRecord) (t : gmap sql.PK sql.Row)
    : gmap sql.PK sql.Row :=
  foldl (fun t w => sql.insert_ignore (pk w) (row w) t) t writes.

(** The store once every statement of [BatchInsert writes] has run and
    the transaction is committed. *)
Definition after_batch (s : VersionedDB) (writes : list WriteRecord)
    : VersionedDB :=
  match writes with
  | [] => s
  | first :: _ =>
      with_backend s
        (sql.mkDB
           (insert_all writes (sql.worldstate (backend s)))
           (sql.upsert_progress (channel s) (BlockNum first)
              (sql.channel_progress (backend s))))
  end.

(** No statement of a batch of [n] records fails. *)
Definition faultless (f : Faults) (n : nat) : bool :=
  bool_decide (on_begin f = None) && bool_decide (on_prepare f = None)
  && forallb (fun i => bool_decide (on_exec f i = None)) (seq 0 n)
  && bool_decide (on_progress f = None) && bool_decide (on_commit f = None).

(** [holds s w]: the record [w] is a row of the version history. *)
Definition holds (s : VersionedDB) (w : WriteRecord) : Prop :=
  sql.worldstate (backend s) !! pk w = Some (row w).

(** [w] is a version of [(namespace, key)] written at or before block
    [ceiling]. *)
Definition version_of (namespace key : string) (ceiling : Z)
    (w : WriteRecord) : Prop :=
  Namespace w = namespace /\ Key w = key /\ BlockNum w <= ceiling.

(** The order of versions: by block, then by transaction in the block. *)
Definition version_le (a b : WriteRecord) : Prop :=
  BlockNum a < BlockNum b \/ (BlockNum a = BlockNum b /\ TxNum a <= TxNum b).

(** What [LastProcessedBlock] returns when its query goes through. *)
Definition last_block (s : VersionedDB) : Z := (LastProcessedBlock None s).1.

Inductive ingest_call : Type :=
| CallMarkProcessed (fault : option error) (blockNum : Z)
| CallBatchInsert (f : Faults) (writes : list WriteRecord).

Definition ingest (s : VersionedDB) (c : ingest_call) : VersionedDB :=
  match c with
  | CallMarkProcessed fault blockNum => (MarkProcessed fault s None blockNum).1.1
  | CallBatchInsert f writes => (BatchInsert f s writes).1
  end.

Definition ingest_all (s : VersionedDB) (cs : list ingest_call) : VersionedDB :=
  foldl ingest s cs.

(** The arguments of a call are values of the Go types. *)
Definition well_typed (c : ingest_call) : Prop :=
  match c with
  | CallMarkProcessed _ blockNum => is_uint64 blockNum
  | CallBatchInsert _ writes => Forall (fun w => is_uint64 (BlockNum w)) writes
  end.

(** Every stored [last_block] was written from a [uint64]. *)
Definition progress_typed (s : VersionedDB) : Prop :=
  forall ch v, sql.channel_progress (backend s) !! ch = Some v -> is_uint64 v.

Inductive write_call : Type :=
| CallPutState (key : string) (value : bytes)
| CallDelState (key : string).

Definition simulate (s : SimulationStore) (c : write_call)
    : SimulationStore * option error :=
  match c with
  | CallPutState key value => PutState s key value
  | CallDelState key => DelState s key
  end.

Definition simulate_all (s : SimulationStore) (cs : list write_call)
    : SimulationStore :=
  foldl (fun s c => (simulate s c).1) s cs.

Definition call_key (c : write_call) : string :=
  match c with
  | CallPutState key _ => key
  | CallDelState key => key
  end.

(** The entry a call asks for: a put of [value], or a delete. *)
Definition call_entry (c : write_call) : KVWrite :=
  match c with
  | CallPutState key value => mkKVWrite key false value
  | CallDelState key => mkKVWrite key true None
  end.

(** [GetState] goes to the store unless the session reads its own
    writes and has a pending write for the key. *)
Definition from_store (s : SimulationStore) (key : string) : Prop :=
  readOwnWrites s = false \/ writes s !! key = None.

(** Every entry of the writes map sits under its own key. *)
Definition keyed (s : SimulationStore) : Prop :=
  forall k w, writes s !! k = Some w -> KVWrite_Key w = k.

End storage.

(** ** Package committer *)

Module committer.

(** *** storage.go: the store with a backend switch *)

(** [type WriteRecord struct], with [TxNum int]. *)
Record WriteRecord : Type := mkWriteRecord {
  Namespace : string;
  Key : string;
  BlockNum : Z;
  TxNum : Z;
  Value : bytes;
  IsDelete : bool;
  TxID : string
}.

(** [type Store struct]; [DB] stands for the database behind the
    handle, [Backend] is "postgres" or "sqlite". *)
Record Store : Type := mkStore {
  channel : string;
  table : string;
  DB : sql.DB;
  Backend : string
}.

Definition NewStorage (channel : string) (db : sql.DB) (backend : string)
    : Store :=
  mkStore channel (String.append "worldstate_" channel) db backend.

Definition with_DB (sp : Store) (d : sql.DB) : Store :=
  mkStore (channel sp) (table sp) d (Backend sp).

(** [switch sp.Backend { case "postgres": ... case "sqlite": ... }] *)
Definition supported (backend : string) : bool :=
  String.eqb backend "postgres" || String.eqb backend "sqlite".

Definition unsupported (backend : string) : error :=
  String.append "unsupported backend: " backend.

Definition pk (w : WriteRecord) : sql.PK :=
  (Namespace w, Key w, BlockNum w, TxNum w).

Definition row (w : WriteRecord) : sql.Row :=
  sql.mkRow (Value w) (IsDelete w) (TxID w).

Definition scan (e : sql.PK * sql.Row) : WriteRecord :=
  mkWriteRecord e.1.1.1.1 e.1.1.1.2 e.1.1.2 e.1.2
    (sql.value e.2) (sql.is_delete e.2) (sql.tx_id e.2).

(** [func (sp *Store) MarkProcessed(tx *sql.Tx, blockNum uint64) error] *)
Definition MarkProcessed (fault : option error) (sp : Store)
    (tx : option sql.Tx) (blockNum : Z)
    : Store * option sql.Tx * option error :=
  if supported (Backend sp) then
    match fault with
    | Some err => (sp, tx, Some (wrap "update last block exec" err))
    | None =>
        match tx with
        | None =>
            (with_DB sp (sql.exec_progress (channel sp) blockNum (DB sp)),
             None, None)
        | Some t =>
            (sp, Some (sql.Exec (sql.exec_progress (channel sp) blockNum) t),
             None)
        end
    end
  else (sp, tx, Some (unsupported (Backend sp))).

Fixpoint exec_all (on_exec : nat -> option error) (i : nat) (tx : sql.Tx)
    (writes : list WriteRecord) : sql.Tx * option error :=
  match writes with
  | [] => (tx, None)
  | w :: rest =>
      match on_exec i with
      | Some err => (tx, Some (wrap "batch insert exec" err))
      | None =>
          exec_all on_exec (S i)
            (sql.Exec (sql.exec_insert (pk w) (row w)) tx) rest
      end
  end.

Definition batch_body (f : storage.Faults) (sp : Store) (tx : sql.Tx)
    (first : WriteRecord) (writes : list WriteRecord)
    : sql.Tx * option error :=
  if supported (Backend sp) then
    match storage.on_prepare f with
    | Some err => (tx, Some (wrap "prepare batch insert" err))
    | None =>
        match exec_all (storage.on_exec f) 0 tx writes with
        | (tx1, Some err) => (tx1, Some err)
        | (tx1, None) =>
            match MarkProcessed (storage.on_progress f) sp (Some tx1)
                    (BlockNum first) with
            | (_, _, Some err) => (tx1, Some err)
            | (_, None, None) => (tx1, None)
            | (_, Some tx2, None) =>
                match storage.on_commit f with
                | Some err => (tx2, Some (wrap "commit batch insert" err))
                | None => (sql.Commit tx2, None)
                end
            end
        end
    end
  else (tx, Some (unsupported (Backend sp))).

(** [func (sp *Store) BatchInsert(writes []WriteRecord) error] *)
Definition BatchInsert (f : storage.Faults) (sp : Store)
    (writes : list WriteRecord) : Store * option error :=
  match writes with
  | [] => (sp, None)
  | first :: _ =>
      match storage.on_begin f with
      | Some err => (sp, Some (wrap "begin batch insert" err))
      | None =>
          let '(tx, err) := batch_body f sp (sql.Begin (DB sp)) first writes in
          (with_DB sp (sql.Rollback tx), err)
      end
  end.

(** [func (sp *Store) Get(namespace, key string, lastBlock uint64)] *)
Definition Get (fault : option error) (sp : Store)
    (namespace key : string) (lastBlock : Z)
    : option WriteRecord * option error :=
  match fault with
  | Some err => (None, Some (wrap "get current" err))
  | None =>
      (scan <$> sql.select_latest_before namespace key lastBlock
                  (sql.worldstate (DB sp)), None)
  end.

(** [func (sp *Store) LastProcessedBlock() (uint64, error)] *)
Definition LastProcessedBlock (fault : option error) (sp : Store)
    : Z * option error :=
  match fault with
  | Some err => (0, Some (wrap "query last processed block" err))
  | None =>
      match sql.channel_progress (DB sp) !! channel sp with
      | None => (0, None)
      | Some lastBlock => (uint64 lastBlock, None)
      end
  end.

(** The same record and store, seen as the ones of package storage. *)
Definition upgrade (w : WriteRecord) : storage.WriteRecord :=
  storage.mkWriteRecord (Namespace w) (Key w) (BlockNum w) (TxNum w)
    (Value w) (IsDelete w) (TxID w).

Definition as_VersionedDB (sp : Store) : storage.VersionedDB :=
  storage.mkVersionedDB (channel sp) (table sp) (DB sp).

Definition last_block (sp : Store) : Z := (LastProcessedBlock None sp).1.

(** *** stub.go: the earlier simulation stub *)

(** [type WorldStateStore interface] *)
Record WorldStateStore : Type := mkWorldStateStore {
  store_LastProcessedBlock : Z * option error;
  store_Get : string -> string -> Z -> option WriteRecord * option error
}.

(** [kvrwset.KVRead] and [kvrwset.KVWrite], as far as the stub fills
    them. *)
Record KVRead : Type := mkKVRead {
  KVRead_Key : string;
  KVRead_Version : option (Z * Z)
}.

Record KVWrite : Type := mkKVWrite {
  KVWrite_Key : string;
  KVWrite_IsDelete : bool;
  KVWrite_Value : bytes
}.

(** [type Stub struct], with its two maps made, as the struct literals of
    the tests have them. [stub.Stub] below is the struct whose maps may be
    nil, as [StubFactory.New] leaves them. *)
Record Stub : Type := mkStub {
  namespace : string;
  store : WorldStateStore;
  block : Z;
  reads : gmap string KVRead;
  writes : gmap string KVWrite
}.

(** [func (s Stub) GetState(key string) ([]byte, error)] *)
Definition GetState (s : Stub) (key : string)
    : Stub * (bytes * option error) :=
  match store_Get (store s) (namespace s) key (block s) with
  | (_, Some err) => (s, (None, Some err))
  | (None, None) => (s, (None, None))
  | (Some read, None) =>
      (mkStub (namespace s) (store s) (block s)
         (<[Key read := mkKVRead (Key read)
                          (Some (BlockNum read, uint64 (TxNum read)))]>
            (reads s))
         (writes s),
       (Value read, None))
  end.

(** *** committer.go: waiting until the store has caught up

    [WaitUntilSynced] loops on a [select] over [ctx.Done()] and the
    ticker. Which of the two fires, what the peer answers and how far the
    ingestion goroutine has brought the store by then is up to the
    environment: it is given as the list of events the loop receives.
    [time.Sleep] only lets time pass; the durations slept are returned
    next to the outcome. *)

(** [time.Second], a [time.Duration] in nanoseconds. *)
Definition Second : Z := 1000000000.

(** Arithmetic on [time.Duration] is arithmetic on [int64]. *)
Definition int64 (z : Z) : Z := (z + 2 ^ 63) mod 2 ^ 64 - 2 ^ 63.

Inductive event (S : Type) : Type :=
| Done
| Tick (peer : Z + error) (local : S) (local_fault : option error).
Arguments Done {S}.
Arguments Tick {S} peer local local_fault.

Inductive outcome : Type :=
| Blocked
| Returned (err : option error).

(** The committer that drives a [*Store]. *)
Module OnStore.

(** [func (c *Committer) BlockHeight() (uint64, error)] *)
Definition BlockHeight (fault : option error) (sp : Store)
    : Z * option error :=
  match LastProcessedBlock fault sp with
  | (_, Some err) => (0, Some err)
  | (lpb, None) => (uint64 (lpb + 1), None)
  end.

(** [func (c *Committer) WaitUntilSynced(ctx context.Context) error] *)
Fixpoint WaitUntilSynced (events : list (event Store)) : outcome :=
  match events with
  | [] => Blocked
  | Done :: _ => Returned (Some "time out waiting for sync"%string)
  | Tick peer sp fault :: rest =>
      match peer with
      | inr _ => WaitUntilSynced rest
      | inl peerHeight =>
          match BlockHeight fault sp with
          | (_, Some err) =>
              Returned (Some (wrap "get local block height" err))
          | (localHeight, None) =>
              if localHeight >=? peerHeight then Returned None
              else WaitUntilSynced rest
          end
      end
  end.

End OnStore.

(** The committer that drives a [*storage.VersionedDB]. *)
Module OnVersionedDB.

(** [func (c *Committer) BlockHeight() (uint64, error)] *)
Definition BlockHeight (fault : option error) (db : storage.VersionedDB)
    : Z * option error :=
  match storage.LastProcessedBlock fault db with
  | (_, Some err) => (0, Some err)
  | (lpb, None) => (uint64 (lpb + 1), None)
  end.

(** The [for] loop of [WaitUntilSynced], entered with [backoff]. *)
Fixpoint wait_loop (backoff : Z) (events : list (event storage.VersionedDB))
    : list Z * outcome :=
  match events with
  | [] => ([], Blocked)
  | Done :: _ => ([], Returned (Some "time out waiting for sync"%string))
  | Tick peer db fault :: rest =>
      match peer with
      | inr err =>
          let backoff := int64 (backoff * 2) in
          if backoff >=? 30 * Second then
            ([], Returned
                   (Some (wrap "error getting block height from peer" err)))
          else
            let '(slept, r) := wait_loop backoff rest in
            (backoff :: slept, r)
      | inl peerHeight =>
          let backoff := Second in
          match BlockHeight fault db with
          | (_, Some err) =>
              ([], Returned (Some (wrap "get local block height" err)))
          | (localHeight, None) =>
              if localHeight >=? peerHeight then ([], Returned None)
              else wait_loop backoff rest
          end
      end
  end.

(** [func (c *Committer) WaitUntilSynced(ctx context.Context) error] *)
Definition WaitUntilSynced (events : list (event storage.VersionedDB))
    : list Z * outcome :=
  wait_loop Second events.

(** The local height the loop compares with the peer's. *)
Definition local_height (db : storage.VersionedDB) : Z :=
  (BlockHeight None db).1.

(** Histories of events, in terms of consecutive failed fetches of the
    peer's height. [n] is the number of failures in a row so far.

    [calm_from n events]: no event of the history lets the loop
    return: there is no [Done], every fetch that succeeds finds the
    store behind the peer, and no fetch is the fifth failure in a
    row. *)
Fixpoint calm_from (n : nat) (events : list (event storage.VersionedDB))
    : bool :=
  match events with
  | [] => true
  | Done :: _ => false
  | Tick (inr _) _ _ :: rest => (n <? 4)%nat && calm_from (S n) rest
  | Tick (inl peerHeight) db fault :: rest =>
      bool_decide (fault = None) && (local_height db <? peerHeight)
      && calm_from 0 rest
  end.

(** The failures in a row at the end of the history. *)
Fixpoint streak_from (n : nat) (events : list (event storage.VersionedDB))
    : nat :=
  match events with
  | [] => n
  | Tick (inr _) _ _ :: rest => streak_from (S n) rest
  | _ :: rest => streak_from 0 rest
  end.

(** The backoff after [n] failures in a row: [2^n] seconds. *)
Definition backoff_after (n : nat) : Z := 2 ^ Z.of_nat n * Second.

(** The sleeps of the history: after the [n]-th failure in a row,
    [2^n] seconds. *)
Fixpoint sleeps_from (n : nat) (events : list (event storage.VersionedDB))
    : list Z :=
  match events with
  | [] => []
  | Tick (inr _) _ _ :: rest => backoff_after (S n) :: sleeps_from (S n) rest
  | _ :: rest => sleeps_from 0 rest
  end.

End OnVersionedDB.

End committer.

(** ** Stores and sessions of the tests and of the specification's examples *)

Module fixtures.

Import storage.

Definition put_record (key : string) (blockNum txNum : Z) (value : string)
    : WriteRecord :=
  mkWriteRecord "ns" key blockNum txNum (bytes_of value) false "tx".

Definition delete_record (key : string) (blockNum txNum : Z) : WriteRecord :=
  mkWriteRecord "ns" key blockNum txNum None true "tx".

Definition new_store : VersionedDB := New "mychannel" sql.empty.

(** The error of [database/sql] for the third argument of a query when it
    is a [uint64] with the high bit set. *)
Definition high_bit_refused : error :=
  "sql: converting argument $3 type: uint64 values with high bit set are not supported".

(** Block 1 has no writes, block 2 writes k=v1, block 3 writes k=v2 and
    deletes j. *)
Definition three_blocks : list ingest_call :=
  [CallMarkProcessed None 1;
   CallBatchInsert no_faults [put_record "k" 2 0 "v1"];
   CallBatchInsert no_faults [put_record "k" 3 0 "v2"; delete_record "j" 3 1]].

Definition ingested : VersionedDB := ingest_all new_store three_blocks.

(** Calls that arrive out of order after the three blocks. *)
Definition out_of_order : list ingest_call :=
  three_blocks ++
  [CallMarkProcessed None 2;
   CallBatchInsert no_faults [put_record "k" 1 0 "v0"]].

(** A batch whose second record is of a later block than its first. *)
Definition mixed_batch : list WriteRecord :=
  [put_record "k" 2 0 "v1"; put_record "k" 7 0 "v2"].

(** sim_test.go: [mockStore] with a [getFn] that returns
    [(tt.record, tt.getErr)]. *)
Definition mockStore (record : option WriteRecord) (getErr : option error)
    : ReadStore :=
  fun _ _ _ => (record, getErr).

(** sim_test.go, TestGetState, case "key exists". *)
Definition k1_record : WriteRecord :=
  mkWriteRecord "" "k1" 10 1 (bytes_of "v1") false "".

Definition key_exists_stub : SimulationStore :=
  mkSimulationStore false "ns" (mockStore (Some k1_record) None) 100 ∅ ∅.

(** sim_test.go, [newStub]. *)
Definition newStub : SimulationStore :=
  mkSimulationStore false "ns" (mockStore None None) 1 ∅ ∅.

(** A session on [ingested] at its last block. *)
Definition plain_session : SimulationStore :=
  mkSimulationStore false "ns"
    (VersionedDB_ReadStore (fun _ => None) ingested) 3 ∅ ∅.

(** A session on [ingested] at block 3 that reads its own writes, after
    [PutState("j", "A")]. *)
Definition own_writes_session : SimulationStore :=
  (PutState
     (mkSimulationStore true "ns"
        (VersionedDB_ReadStore (fun _ => None) ingested) 3 ∅ ∅)
     "j" (bytes_of "A")).1.

(** stub_test.go, TestGetState, case "key exists", for the earlier
    stub. *)
Definition k1_record_stub : committer.WriteRecord :=
  committer.mkWriteRecord "" "k1" 10 1 (bytes_of "v1") false "".

Definition key_exists_Stub : committer.Stub :=
  committer.mkStub "ns"
    (committer.mkWorldStateStore (0, None)
       (fun _ _ _ => (Some k1_record_stub, None)))
    100 ∅ ∅.

(** The peer cannot be reached at five polls in a row, and no deadline
    fires. *)
Definition peer_down : list (committer.event VersionedDB) :=
  replicate 5 (committer.Tick (inr "unavailable"%string) ingested None).

(** Two failed fetches, then a poll that finds the store one block
    behind the peer. *)
Definition catching_up : list (committer.event VersionedDB) :=
  [committer.Tick (inr "unavailable"%string) new_store None;
   committer.Tick (inr "unavailable"%string) new_store None;
   committer.Tick (inl 5) ingested None].

End fixtures.

(** ** More about the store: histories and views *)

Module store_history.

Import storage.

(** The strict order of versions. *)
Definition version_lt (a b : WriteRecord) : Prop :=
  BlockNum a < BlockNum b \/ (BlockNum a = BlockNum b /\ TxNum a < TxNum b).

(** [w] is a version of [(namespace, key)], of any block. *)
Definition of_key (namespace key : string) (w : WriteRecord) : Prop :=
  Namespace w = namespace /\ Key w = key.

(** A call that writes rows of blocks after [ceiling] only. *)
Definition later_than (ceiling : Z) (c : ingest_call) : Prop :=
  match c with
  | CallMarkProcessed _ _ => True
  | CallBatchInsert _ writes => Forall (fun w => ceiling < BlockNum w) writes
  end.

(** [InsertWrite] of each record in turn, with no failure. *)
Definition insert_each (s : VersionedDB) (writes : list WriteRecord)
    : VersionedDB :=
  foldl (fun s w => (InsertWrite None s w).1) s writes.

(** Once a batch is committed, its rows are stored and the progress is
    at or above its first block, and both stay so. *)
Definition settled (s : VersionedDB) (writes : list WriteRecord) : Prop :=
  (forall w, w ∈ writes -> is_Some (sql.worldstate (backend s) !! pk w)) /\
  (forall first rest, writes = first :: rest ->
     exists stored,
       sql.channel_progress (backend s) !! channel s = Some stored /\
       BlockNum first <= stored).

(** A session with the fields of [session] whose store is [db]. *)
Definition on_store (session : SimulationStore) (db : VersionedDB)
    : SimulationStore :=
  mkSimulationStore (readOwnWrites session) (namespace session)
    (VersionedDB_ReadStore (fun _ => None) db) (blockNum session)
    (reads session) (writes session).

(** The batches that a history of calls has committed. *)
Fixpoint committed_batches (s : VersionedDB) (cs : list ingest_call)
    : list (list WriteRecord) :=
  match cs with
  | [] => []
  | c :: rest =>
      match c with
      | CallBatchInsert f writes =>
          match (BatchInsert f s writes).2 with
          | None => writes :: committed_batches (ingest s c) rest
          | Some _ => committed_batches (ingest s c) rest
          end
      | CallMarkProcessed _ _ => committed_batches (ingest s c) rest
      end
  end.

End store_history.

(** ** More about sessions: histories of reads and writes *)

Module session_history.

Import storage.

(** A call of a chaincode on its stub. *)
Inductive stub_call : Type :=
| Read (key : string)
| Write (c : write_call).

Definition step (s : SimulationStore) (c : stub_call) : SimulationStore :=
  match c with
  | Read key => (GetState s key).1
  | Write c => (simulate s c).1
  end.

Definition run (s : SimulationStore) (cs : list stub_call) : SimulationStore :=
  foldl step s cs.

(** Every entry of the reads map sits under its own key. *)
Definition reads_keyed (s : SimulationStore) : Prop :=
  forall k r, reads s !! k = Some r -> KVRead_Key r = k.

(** The read that [GetState] records for what the store returns. *)
Definition read_of (key : string) (record : option WriteRecord) : KVRead :=
  match record with
  | Some r => mkKVRead key (Some (mkVersion (BlockNum r) (TxNum r)))
  | None => mkKVRead key None
  end.

End session_history.

(** ** Package committer, committer.go: from blocks to records *)

Module blocks.

(** [kvrwset.KVRWSet], with the reads and writes of [committer.KVRead]
    and [committer.KVWrite]. *)
Record KVRWSet : Type := mkKVRWSet {
  Reads : list committer.KVRead;
  Writes : list committer.KVWrite
}.

(** [fabrictx.NsRwset] *)
Record NsRwset : Type := mkNsRwset {
  Namespace : string;
  Rwset : KVRWSet;
  TxID : string
}.

(** [common.Block], as far as [parseBlock] reads it: [Header.Number],
    [Data.Data] and [Metadata.Metadata]. *)
Record Block : Type := mkBlock {
  Number : Z;
  Data : list bytes;
  Metadata : list bytes
}.

(** *** Package fabrictx, parse.go: the messages of a transaction

    The protobuf messages that [RWSets] decodes, as far as it reads them.
    A field that points to a message is an [option]: [None] is [nil],
    which is what [proto.Unmarshal] leaves when the bytes do not hold the
    field. *)

(** [common.Envelope] *)
Record Envelope : Type := mkEnvelope {
  Envelope_Payload : bytes
}.

(** [common.Header] *)
Record Header : Type := mkHeader {
  Header_ChannelHeader : bytes
}.

(** [common.Payload] *)
Record Payload : Type := mkPayload {
  Payload_Header : option Header;
  Payload_Data : bytes
}.

(** [common.ChannelHeader] *)
Record ChannelHeader : Type := mkChannelHeader {
  TxId : string
}.

(** [peer.TransactionAction] *)
Record TransactionAction : Type := mkTransactionAction {
  TransactionAction_Payload : bytes
}.

(** [peer.Transaction] *)
Record Transaction : Type := mkTransaction {
  Actions : list TransactionAction
}.

(** [peer.ChaincodeEndorsedAction] *)
Record ChaincodeEndorsedAction : Type := mkChaincodeEndorsedAction {
  Endorsed_ProposalResponsePayload : bytes
}.

(** [peer.ChaincodeActionPayload] *)
Record ChaincodeActionPayload : Type := mkChaincodeActionPayload {
  Action : option ChaincodeEndorsedAction
}.

(** [peer.ProposalResponsePayload] *)
Record ProposalResponsePayload : Type := mkProposalResponsePayload {
  Extension : bytes
}.

(** [peer.ChaincodeAction] *)
Record ChaincodeAction : Type := mkChaincodeAction {
  Results : bytes
}.

(** [rwset.NsReadWriteSet] *)
Record NsReadWriteSet : Type := mkNsReadWriteSet {
  NsReadWriteSet_Namespace : string;
  NsReadWriteSet_Rwset : bytes
}.

(** [rwset.TxReadWriteSet] *)
Record TxReadWriteSet : Type := mkTxReadWriteSet {
  TxReadWriteSet_NsRwset : list NsReadWriteSet
}.

(** What the code takes from the protobuf packages: [proto.Unmarshal]
    into each of the messages, the index
    [common.BlockMetadataIndex_TRANSACTIONS_FILTER] and the code
    [peer.TxValidationCode_VALID]. *)
Record Codec : Type := mkCodec {
  Unmarshal_Envelope : bytes -> Envelope + error;
  Unmarshal_Payload : bytes -> Payload + error;
  Unmarshal_ChannelHeader : bytes -> ChannelHeader + error;
  Unmarshal_Transaction : bytes -> Transaction + error;
  Unmarshal_ChaincodeActionPayload : bytes -> ChaincodeActionPayload + error;
  Unmarshal_ProposalResponsePayload : bytes -> ProposalResponsePayload + error;
  Unmarshal_ChaincodeAction : bytes -> ChaincodeAction + error;
  Unmarshal_TxReadWriteSet : bytes -> TxReadWriteSet + error;
  Unmarshal_KVRWSet : bytes -> KVRWSet + error;
  TRANSACTIONS_FILTER : nat;
  VALID : Z
}.

(** The loop [for _, ns := range txRWSet.NsRwset] of [RWSets]: the
    rwsets so far and the error it returns, if any. *)
Fixpoint ns_loop (codec : Codec) (txID : string) (nss : list NsReadWriteSet)
    (out : list NsRwset) : list NsRwset * option error :=
  match nss with
  | [] => (out, None)
  | ns :: rest =>
      match Unmarshal_KVRWSet codec (NsReadWriteSet_Rwset ns) with
      | inr err => (out, Some (wrap "kvrwset" err))
      | inl kvs =>
          ns_loop codec txID rest
            (out ++ [mkNsRwset (NsReadWriteSet_Namespace ns) kvs txID])
      end
  end.

(** The loop [for _, act := range tx.Actions] of [RWSets].
    [cap.Action.ProposalResponsePayload] dereferences [cap.Action]: a
    result of [None] stands for the panic on a nil pointer. *)
Fixpoint action_loop (codec : Codec) (txID : string)
    (acts : list TransactionAction) (out : list NsRwset)
    : option (list NsRwset * option error) :=
  match acts with
  | [] => Some (out, None)
  | act :: rest =>
      match Unmarshal_ChaincodeActionPayload codec
              (TransactionAction_Payload act) with
      | inr err => Some (out, Some (wrap "chaincode action payload" err))
      | inl cap =>
          match Action cap with
          | None => None
          | Some endorsed =>
              match Unmarshal_ProposalResponsePayload codec
                      (Endorsed_ProposalResponsePayload endorsed) with
              | inr err =>
                  Some (out, Some (wrap "proposal response payload" err))
              | inl prp =>
                  match Unmarshal_ChaincodeAction codec (Extension prp) with
                  | inr err => Some (out, Some (wrap "chaincode action" err))
                  | inl ccAct =>
                      match Unmarshal_TxReadWriteSet codec (Results ccAct) with
                      | inr err => Some (out, Some (wrap "rwset" err))
                      | inl txRWSet =>
                          match ns_loop codec txID
                                  (TxReadWriteSet_NsRwset txRWSet) out with
                          | (out', Some err) => Some (out', Some err)
                          | (out', None) => action_loop codec txID rest out'
                          end
                      end
                  end
              end
          end
      end
  end.

(** [func RWSets(env) ([]NsRwset, error)].
    [pl.Header.ChannelHeader] dereferences [pl.Header]: a result of
    [None] stands for the panic on a nil pointer, there or in the loop
    over the actions. *)
Definition RWSets (codec : Codec) (env : Envelope)
    : option (list NsRwset * option error) :=
  match Unmarshal_Payload codec (Envelope_Payload env) with
  | inr err => Some ([], Some (wrap "payload" err))
  | inl pl =>
      match Payload_Header pl with
      | None => None
      | Some header =>
          match Unmarshal_ChannelHeader codec (Header_ChannelHeader header) with
          | inr err => Some ([], Some (wrap "channel header" err))
          | inl chdr =>
              match Unmarshal_Transaction codec (Payload_Data pl) with
              | inr err => Some ([], Some (wrap "transaction" err))
              | inl tx => action_loop codec (TxId chdr) (Actions tx) []
              end
          end
      end
  end.


Definition index (b : bytes) (i : nat) : option byte :=
  match b with
  | None => None
  | Some l => l !! i
  end.

(** [peer.TxValidationCode(txFilter[txNum])] *)
Definition code (c : byte) : Z := Z.of_N (Byte.to_N c).

(** The committer that drives a [*Store]. *)
Module OnStore.

(** The two inner loops of [parseBlock]: every write of every rwset of
    the transaction is appended to [writes]. *)
Definition append_writes (number : Z) (txNum : nat) (rwsets : list NsRwset)
    (writes : list committer.WriteRecord) : list committer.WriteRecord :=
  foldl (fun writes rw =>
           foldl (fun writes w =>
                    writes ++
                    [committer.mkWriteRecord (Namespace rw)
                       (committer.KVWrite_Key w) number (Z.of_nat txNum)
                       (committer.KVWrite_Value w)
                       (committer.KVWrite_IsDelete w) (TxID rw)])
             writes (Writes (Rwset rw)))
    writes rwsets.

(** The loop [for txNum, envBytes := range b.Data.Data] of [parseBlock],
    from index [txNum] on; [None] is the panic of [RWSets]. *)
Fixpoint parse_data (codec : Codec) (number : Z) (txFilter : bytes)
    (txNum : nat) (data : list bytes) (writes : list committer.WriteRecord)
    : option (list committer.WriteRecord) :=
  match data with
  | [] => Some writes
  | envBytes :: rest =>
      match index txFilter txNum with
      | None => parse_data codec number txFilter (S txNum) rest writes
      | Some c =>
          if negb (code c =? VALID codec) then
            parse_data codec number txFilter (S txNum) rest writes
          else
            match Unmarshal_Envelope codec envBytes with
            | inr _ => parse_data codec number txFilter (S txNum) rest writes
            | inl env =>
                match RWSets codec env with
                | None => None
                | Some (_, Some _) =>
                    parse_data codec number txFilter (S txNum) rest writes
                | Some (rwsets, None) =>
                    parse_data codec number txFilter (S txNum) rest
                      (append_writes number txNum rwsets writes)
                end
            end
      end
  end.

(** [func parseBlock(block) ([]WriteRecord, uint64, error)] *)
Definition parseBlock (codec : Codec) (b : Block)
    : option (list committer.WriteRecord * Z * option error) :=
  if (length (Metadata b) <=? TRANSACTIONS_FILTER codec)%nat then
    Some ([], 0, Some "block metadata missing TRANSACTIONS_FILTER"%string)
  else
    match parse_data codec (Number b)
            (nth (TRANSACTIONS_FILTER codec) (Metadata b) None) 0 (Data b) []
    with
    | None => None
    | Some writes => Some (writes, Number b, None)
    end.

(** [func (c *Committer) processBlock(block) error]: the error of
    [parseBlock] and the error of [MarkProcessed] are logged and
    dropped. *)
Definition processBlock (codec : Codec) (mark_fault : option error)
    (f : storage.Faults) (sp : committer.Store) (b : Block)
    : option (committer.Store * option error) :=
  match parseBlock codec b with
  | None => None
  | Some (w, num, _) =>
      if (length w =? 0)%nat then
        Some ((committer.MarkProcessed mark_fault sp None num).1.1, None)
      else Some (committer.BatchInsert f sp w)
  end.

End OnStore.

(** The committer that drives a [*storage.VersionedDB]. Its [parseBlock]
    logs the validation code of every transaction, which reads
    [txFilter[txNum]] also when [txNum >= len(txFilter)]: a result of
    [None] stands for that panic, or for the panic of [RWSets]. *)
Module OnVersionedDB.

(** [func records(namespace string, blockNum, txNum uint64, txID string,
    rws) []storage.WriteRecord] *)
Definition records (namespace : string) (blockNum txNum : Z) (txID : string)
    (rws : KVRWSet) : list storage.WriteRecord :=
  (fun w => storage.mkWriteRecord namespace (committer.KVWrite_Key w)
              blockNum txNum (committer.KVWrite_Value w)
              (committer.KVWrite_IsDelete w) txID) <$> Writes rws.

(** The loop [for _, rw := range rwsets] of [parseBlock]. *)
Definition append_records (number : Z) (txNum : nat) (rwsets : list NsRwset)
    (writes : list storage.WriteRecord) : list storage.WriteRecord :=
  foldl (fun writes rw =>
           writes ++ records (Namespace rw) number (uint64 (Z.of_nat txNum))
                       (TxID rw) (Rwset rw))
    writes rwsets.

Fixpoint parse_data (codec : Codec) (number : Z) (txFilter : bytes)
    (txNum : nat) (data : list bytes) (writes : list storage.WriteRecord)
    : option (list storage.WriteRecord) :=
  match data with
  | [] => Some writes
  | envBytes :: rest =>
      match index txFilter txNum with
      | None => None
      | Some c =>
          if negb (code c =? VALID codec) then
            parse_data codec number txFilter (S txNum) rest writes
          else
            match Unmarshal_Envelope codec envBytes with
            | inr _ => parse_data codec number txFilter (S txNum) rest writes
            | inl env =>
                match RWSets codec env with
                | None => None
                | Some (_, Some _) =>
                    parse_data codec number txFilter (S txNum) rest writes
                | Some (rwsets, None) =>
                    parse_data codec number txFilter (S txNum) rest
                      (append_records number txNum rwsets writes)
                end
            end
      end
  end.

(** [func parseBlock(block, log) ([]storage.WriteRecord, uint64, error)] *)
Definition parseBlock (codec : Codec) (b : Block)
    : option (list storage.WriteRecord * Z * option error) :=
  if (length (Metadata b) <=? TRANSACTIONS_FILTER codec)%nat then
    Some ([], 0, Some "block metadata missing TRANSACTIONS_FILTER"%string)
  else
    match parse_data codec (Number b)
            (nth (TRANSACTIONS_FILTER codec) (Metadata b) None) 0 (Data b) []
    with
    | None => None
    | Some writes => Some (writes, Number b, None)
    end.

(** [func (c *Committer) processBlock(block) error] *)
Definition processBlock (codec : Codec) (mark_fault : option error)
    (f : storage.Faults) (db : storage.VersionedDB) (b : Block)
    : option (storage.VersionedDB * option error) :=
  match parseBlock codec b with
  | None => None
  | Some (w, num, _) =>
      if (length w =? 0)%nat then
        Some ((storage.MarkProcessed mark_fault db None num).1.1, None)
      else Some (storage.BatchInsert f db w)
  end.

End OnVersionedDB.

(** *** What a block says, apart from how it is parsed *)

(** What becomes of the transaction at [txNum] when it is marked valid in
    the filter and its envelope unmarshals: the result of [RWSets]. *)
Definition decoded (codec : Codec) (txFilter : bytes) (txNum : nat)
    (envBytes : bytes) : option (option (list NsRwset * option error)) :=
  match index txFilter txNum with
  | None => None
  | Some c =>
      if code c =? VALID codec then
        match Unmarshal_Envelope codec envBytes with
        | inr _ => None
        | inl env => Some (RWSets codec env)
        end
      else None
  end.


(** The rwsets of the transaction at [txNum], when it is marked valid in
    the filter and is decoded without an error. *)
Definition valid_rwsets (codec : Codec) (txFilter : bytes) (txNum : nat)
    (envBytes : bytes) : list NsRwset :=
  match decoded codec txFilter txNum envBytes with
  | Some (Some (rwsets, None)) => rwsets
  | _ => []
  end.

(** The record that [records] makes of one write. *)
Definition record_of (number : Z) (txNum : nat) (rw : NsRwset)
    (w : committer.KVWrite) : storage.WriteRecord :=
  storage.mkWriteRecord (Namespace rw) (committer.KVWrite_Key w) number
    (uint64 (Z.of_nat txNum)) (committer.KVWrite_Value w)
    (committer.KVWrite_IsDelete w) (TxID rw).

(** The records of the writes of the valid transactions of a block, in
    the order of the transactions, of their rwsets and of their writes. *)
Fixpoint writes_of (codec : Codec) (number : Z) (txFilter : bytes)
    (txNum : nat) (data : list bytes) : list storage.WriteRecord :=
  match data with
  | [] => []
  | envBytes :: rest =>
      (valid_rwsets codec txFilter txNum envBytes
         ≫= fun rw => record_of number txNum rw <$> Writes (Rwset rw))
      ++ writes_of codec number txFilter (S txNum) rest
  end.




End blocks.

(** ** Packages comm and committer: the block feed *)

Module delivery.

Import blocks.

(** What [deliver.Recv()] returns: an error (the status code
    [codes.Canceled] or any other), a block, a status ([None] is
    [common.Status_SUCCESS], otherwise the name of the status), or a
    message of a type that the [switch] of [SubscribeBlocks] has no case
    for. A block comes as a value of [B]. *)
Inductive received (B : Type) : Type :=
| RecvCanceled (err : error)
| RecvFailed (err : error)
| RecvBlock (b : B)
| RecvStatus (status : option string)
| RecvOther.
Arguments RecvCanceled {B} err.
Arguments RecvFailed {B} err.
Arguments RecvBlock {B} b.
Arguments RecvStatus {B} status.
Arguments RecvOther {B}.

(** One subscription: the outcome of opening the stream, of building
    the seek envelope and of sending it, and what is received then. *)
Record Stream (B : Type) : Type := mkStream {
  open_fault : option error;
  seek_fault : option error;
  send_fault : option error;
  messages : list (received B)
}.
Arguments mkStream {B} open_fault seek_fault send_fault messages.
Arguments open_fault {B} s.
Arguments seek_fault {B} s.
Arguments send_fault {B} s.
Arguments messages {B} s.

(** A [BlockHandler] working on a state [St]; [None] is a panic. *)
Definition BlockHandler (B St : Type) : Type :=
  B -> St -> option (St * option error).

(** The loop [for { msg, err := deliver.Recv() ... }] of
    [SubscribeBlocks]. *)
Fixpoint receive {B St : Type} (handle : BlockHandler B St)
    (msgs : list (received B)) (st : St) : option (St * committer.outcome) :=
  match msgs with
  | [] => Some (st, committer.Blocked)
  | RecvCanceled _ :: _ => Some (st, committer.Returned None)
  | RecvFailed err :: _ =>
      Some (st, committer.Returned (Some (wrap "recv deliver" err)))
  | RecvBlock b :: rest =>
      match handle b st with
      | None => None
      | Some (st', Some err) =>
          Some (st', committer.Returned (Some (wrap "handler" err)))
      | Some (st', None) => receive handle rest st'
      end
  | RecvStatus None :: _ => Some (st, committer.Returned None)
  | RecvStatus (Some status) :: _ =>
      Some (st, committer.Returned
                  (Some (String.append "deliver stream ended: " status)))
  | RecvOther :: rest => receive handle rest st
  end.

(** [func (p *Peer) SubscribeBlocks(channel, startBlock, signer, handle)
    error] *)
Definition SubscribeBlocks {B St : Type} (handle : BlockHandler B St)
    (stream : Stream B) (st : St) : option (St * committer.outcome) :=
  match open_fault stream with
  | Some err =>
      Some (st, committer.Returned
                  (Some (wrap "open DeliverWithPrivateData" err)))
  | None =>
      match seek_fault stream with
      | Some err =>
          Some (st, committer.Returned (Some (wrap "build seek envelope" err)))
      | None =>
          match send_fault stream with
          | Some err =>
              Some (st, committer.Returned
                          (Some (wrap "send seek envelope" err)))
          | None => receive handle (messages stream) st
          end
      end
  end.

(** What the environment does while the handler of [Run] works on a
    block: whether the context is done by then, and the outcomes of the
    statements of [processBlock]. *)
Record Env : Type := mkEnv {
  stopped : bool;
  mark_fault : option error;
  faults : storage.Faults
}.

(** The handler that [Run] passes to [SubscribeBlocks]. *)
Definition handle (codec : Codec)
    : BlockHandler (Block * Env) storage.VersionedDB :=
  fun b db =>
    if stopped b.2 then Some (db, Some "stopped"%string)
    else OnVersionedDB.processBlock codec (mark_fault b.2) (faults b.2) db b.1.

(** One turn of the loop of [Run]: whether the context is done at the
    top of the loop, the subscription, and whether the context is done
    when the subscription has returned an error. *)
Record Attempt : Type := mkAttempt {
  stopped_before : bool;
  stream : Stream (Block * Env);
  stopped_after : bool
}.

(** What [Run] does besides handling blocks. *)
Inductive action : Type :=
| Subscribe (start : Z)
| Sleep (backoff : Z).

(** [backoff *= 2; if backoff > 30*time.Second { backoff = 30 *
    time.Second }] *)
Definition next_backoff (backoff : Z) : Z :=
  let backoff := committer.int64 (backoff * 2) in
  if backoff >? 30 * committer.Second then 30 * committer.Second else backoff.

(** The [for] loop of [Run]. *)
Fixpoint run_loop (codec : Codec) (start backoff : Z)
    (attempts : list Attempt) (db : storage.VersionedDB)
    : option (storage.VersionedDB * list action * committer.outcome) :=
  match attempts with
  | [] => Some (db, [], committer.Blocked)
  | a :: rest =>
      if stopped_before a then Some (db, [], committer.Returned None)
      else
        match SubscribeBlocks (handle codec) (stream a) db with
        | None => None
        | Some (db', committer.Blocked) =>
            Some (db', [Subscribe start], committer.Blocked)
        | Some (db', committer.Returned (Some err)) =>
            if stopped_after a then
              Some (db', [Subscribe start], committer.Returned None)
            else
              match run_loop codec start (next_backoff backoff) rest db' with
              | None => None
              | Some (db'', trace, out) =>
                  Some (db'', Subscribe start :: Sleep backoff :: trace, out)
              end
        | Some (db', committer.Returned None) =>
            match run_loop codec start committer.Second rest db' with
            | None => None
            | Some (db'', trace, out) =>
                Some (db'', Subscribe start :: trace, out)
            end
        end
  end.

(** [func (c *Committer) Run() error]; the error of
    [LastProcessedBlock] is dropped. *)
Definition Run (codec : Codec) (last_fault : option error)
    (db : storage.VersionedDB) (attempts : list Attempt)
    : option (storage.VersionedDB * list action * committer.outcome) :=
  let lastBlock := (storage.LastProcessedBlock last_fault db).1 in
  run_loop codec (uint64 (lastBlock + 1)) committer.Second attempts db.

(** *** Notions to state properties of the feed *)

(** The blocks that a list of messages holds. *)
Definition delivered {B : Type} (msgs : list (received B)) : list B :=
  msgs ≫= fun m => match m with RecvBlock b => [b] | _ => [] end.

(** The blocks of all the subscriptions of [Run]. *)
Definition offered (attempts : list Attempt) : list Block :=
  attempts ≫= fun a => fst <$> delivered (messages (stream a)).

(** The calls on the store that [processBlock] makes for a parsed
    block. *)
Definition call_of (mark_fault : option error) (f : storage.Faults)
    (parsed : list storage.WriteRecord * Z * option error)
    : storage.ingest_call :=
  if (length parsed.1.1 =? 0)%nat then
    storage.CallMarkProcessed mark_fault parsed.1.2
  else storage.CallBatchInsert f parsed.1.1.

(** All the rows of a batch are of one block. *)
Definition uniform (c : storage.ingest_call) : Prop :=
  match c with
  | storage.CallMarkProcessed _ _ => True
  | storage.CallBatchInsert _ writes =>
      forall first rest, writes = first :: rest ->
        Forall (fun w => storage.BlockNum w = storage.BlockNum first) writes
  end.

(** No row is of a block above the progress. *)
Definition rows_below_progress (db : storage.VersionedDB) : Prop :=
  forall w, storage.holds db w -> storage.BlockNum w <= storage.last_block db.

(** The sleep after the [n]-th failure in a row, counting from 0: 1, 2,
    4, 8, 16 and then 30 seconds. *)
Definition capped (n : nat) : Z :=
  Z.min (2 ^ Z.of_nat n) 30 * committer.Second.

(** The stored progress is at or above [n]. *)
Definition progress_reached (db : storage.VersionedDB) (n : Z) : Prop :=
  exists stored,
    sql.channel_progress (storage.backend db) !! storage.channel db
      = Some stored /\ n <= stored.

(** The trace of [k] failures in a row, from the [n]-th on. *)
Fixpoint retries (start : Z) (n k : nat) : list action :=
  match k with
  | O => []
  | S k' => Subscribe start :: Sleep (capped n) :: retries start (S n) k'
  end.

(** A subscription that fails to open. *)
Definition unreachable : Attempt :=
  mkAttempt false (mkStream (Some "unavailable"%string) None None []) false.

End delivery.

(** ** Package committer, stub.go: the writes of the earlier stub *)

Module stub.

(** [type Stub struct]. A map that was not made is nil ([None]): reading
    it finds nothing, assigning into it panics. [committer.Stub] above is
    the stub whose two maps are made. *)
Record Stub : Type := mkStub {
  namespace : string;
  store : committer.WorldStateStore;
  block : Z;
  reads : option (gmap string committer.KVRead);
  writes : option (gmap string committer.KVWrite)
}.

(** [type StubFactory struct] *)
Record StubFactory : Type := mkStubFactory {
  factory_namespace : string;
  factory_store : committer.WorldStateStore
}.

(** [func (s StubFactory) New() (Stub, error)]: the two maps are left
    out of the struct literal. *)
Definition New (s : StubFactory) : Stub + error :=
  match committer.store_LastProcessedBlock (factory_store s) with
  | (_, Some err) => inr err
  | (lastBlock, None) =>
      inl (mkStub (factory_namespace s) (factory_store s) lastBlock None None)
  end.

(** A stub whose maps are made. *)
Definition made (s : committer.Stub) : Stub :=
  mkStub (committer.namespace s) (committer.store s) (committer.block s)
    (Some (committer.reads s)) (Some (committer.writes s)).

(** [func (s Stub) GetState(key string) ([]byte, error)];
    [s.reads[read.Key] = ...] panics on a nil map ([None]). *)
Definition GetState (s : Stub) (key : string)
    : option (Stub * (bytes * option error)) :=
  match committer.store_Get (store s) (namespace s) key (block s) with
  | (_, Some err) => Some (s, (None, Some err))
  | (None, None) => Some (s, (None, None))
  | (Some read, None) =>
      match reads s with
      | None => None
      | Some m =>
          Some (mkStub (namespace s) (store s) (block s)
                  (Some (<[committer.Key read :=
                             committer.mkKVRead (committer.Key read)
                               (Some (committer.BlockNum read,
                                      uint64 (committer.TxNum read)))]> m))
                  (writes s),
                (committer.Value read, None))
      end
  end.

(** [func (s Stub) PutState(key string, value []byte) error];
    [s.writes[key] = ...] panics on a nil map ([None]). *)
Definition PutState (s : Stub) (key : string) (value : bytes)
    : option (Stub * option error) :=
  if Nat.eqb (String.length key) 0 then Some (s, Some "key is empty"%string)
  else
    match writes s with
    | None => None
    | Some m =>
        Some (mkStub (namespace s) (store s) (block s) (reads s)
                (Some (<[key := committer.mkKVWrite key false value]> m)),
              None)
    end.

(** [func (s Stub) DelState(key string) error] *)
Definition DelState (s : Stub) (key : string) : option (Stub * option error) :=
  match writes s with
  | None => None
  | Some m =>
      Some (mkStub (namespace s) (store s) (block s) (reads s)
              (Some (<[key := committer.mkKVWrite key true None]> m)),
            None)
  end.

(** [func (s *Stub) Finalize() *kvrwset.KVRWSet]: one entry per map
    entry, in the order in which Go ranges over the map; the order of
    [map_to_list] stands for it. A nil map has no entries. *)
Definition Finalize (s : Stub) : blocks.KVRWSet :=
  blocks.mkKVRWSet (map_to_list (default ∅ (reads s))).*2
    (map_to_list (default ∅ (writes s))).*2.

(** Histories of write calls on the stub; [None] once a call has
    panicked. *)
Definition simulate (s : Stub) (c : storage.write_call)
    : option (Stub * option error) :=
  match c with
  | storage.CallPutState key value => PutState s key value
  | storage.CallDelState key => DelState s key
  end.

Definition simulate_all (s : Stub) (cs : list storage.write_call)
    : option Stub :=
  foldl (fun acc c =>
           match acc with
           | None => None
           | Some s => fst <$> simulate s c
           end)
    (Some s) cs.

(** A write of a session as a [kvrwset.KVWrite]. *)
Definition of_session (w : storage.KVWrite) : committer.KVWrite :=
  committer.mkKVWrite (storage.KVWrite_Key w) (storage.KVWrite_IsDelete w)
    (storage.KVWrite_Value w).

(** A call that puts no empty value. *)
Definition puts_a_value (c : storage.write_call) : Prop :=
  match c with
  | storage.CallPutState _ value => len value <> 0
  | storage.CallDelState _ => True
  end.

End stub.

(** ** Package integration: from a session to a transaction *)

Module integration.

(** [func Rwset(res storage.ReadWriteSet) *kvrwset.KVRWSet] *)
Definition Rwset (res : storage.ReadWriteSet) : blocks.KVRWSet :=
  blocks.mkKVRWSet
    ((fun r =>
        committer.mkKVRead (storage.KVRead_Key r)
          (match storage.KVRead_Version r with
           | Some v =>
               Some (storage.Version_BlockNum v,
                     uint64 (storage.Version_TxNum v))
           | None => None
           end)) <$> storage.Reads res)
    ((fun r =>
        committer.mkKVWrite (storage.KVWrite_Key r)
          (storage.KVWrite_IsDelete r) (storage.KVWrite_Value r))
       <$> storage.Writes res).

(** [func (t TransactionContext) Rwset() *kvrwset.KVRWSet], on the
    session of the stub of the context. *)
Definition TransactionContext_Rwset (stub : storage.SimulationStore)
    : blocks.KVRWSet :=
  Rwset (storage.Result stub).

(** [func (e ChaincodeExecutor) NewTransaction()], which returns a
    transaction context and an error, as far as the session of the stub
    of the context goes. *)
Definition NewTransaction (last_fault : option error)
    (get_fault : string -> option error) (namespace : string)
    (readStore : storage.VersionedDB) : storage.SimulationStore + error :=
  storage.NewSimulationStore last_fault get_fault readStore namespace 0 false.

(** The byte [0], U+0000. *)
Definition U0000 : Ascii.ascii := Ascii.zero.

(** The loop of [SplitCompositeKey], entered with [turns] turns to go:
    [len(compositeKey) - i] of them. *)
Fixpoint split_loop (turns : nat) (compositeKey : string)
    (i componentIndex : nat) (components : list string) : list string :=
  match turns with
  | O => components
  | S turns =>
      match String.get i compositeKey with
      | None => components
      | Some c =>
          if Ascii.eqb c U0000 then
            split_loop turns compositeKey (S i) (S i)
              (components ++
               [String.substring componentIndex (i - componentIndex)
                  compositeKey])
          else split_loop turns compositeKey (S i) componentIndex components
      end
  end.

(** [func (s UnimplementedStub) SplitCompositeKey(compositeKey string)
    (string, []string, error)]; [components[0]] panics on an empty slice
    ([None]). *)
Definition SplitCompositeKey (compositeKey : string)
    : option (string * list string * option error) :=
  match split_loop (String.length compositeKey - 1) compositeKey 1 1 [] with
  | [] => None
  | objectType :: attributes => Some (objectType, attributes, None)
  end.

(** *** Notions to state properties of keys and transactions *)

(** The string has a byte [0]. *)
Fixpoint has_zero (s : string) : bool :=
  match s with
  | EmptyString => false
  | String c s' => Ascii.eqb c U0000 || has_zero s'
  end.

(** The components that the bytes [s] close when they follow the bytes
    [cur] of a component that is still open. *)
Fixpoint pieces (cur s : string) : list string :=
  match s with
  | EmptyString => []
  | String c s' =>
      if Ascii.eqb c U0000 then cur :: pieces EmptyString s'
      else pieces (cur +:+ String c EmptyString) s'
  end.

(** A key made of one leading byte, an object type and attributes, each
    closed by U+0000, and then the bytes [rest]. *)
Definition composite (first : Ascii.ascii) (objectType : string)
    (attributes : list string) (rest : string) : string :=
  String first
    (objectType +:+
     String U0000 (foldr (fun a acc => a +:+ String U0000 acc) rest attributes)).

(** The records that the committer makes of the writes of a session when
    its transaction is the one at [txNum] of block [blockNum]. *)
Definition committed_records (namespace : string) (blockNum txNum : Z)
    (txID : string) (stub : storage.SimulationStore)
    : list storage.WriteRecord :=
  blocks.OnVersionedDB.records namespace blockNum txNum txID
    (TransactionContext_Rwset stub).

(** The record that the committer makes of one write of a session. *)
Definition committed_record (namespace : string) (blockNum txNum : Z)
    (txID : string) (w : storage.KVWrite) : storage.WriteRecord :=
  storage.mkWriteRecord namespace (storage.KVWrite_Key w) blockNum txNum
    (storage.KVWrite_Value w) (storage.KVWrite_IsDelete w) txID.

End integration.

(** ** The wait of the committer on a [*Store] *)

Module legacy_wait.

(** An event after which the loop keeps waiting: a fetch of the peer's
    height that fails, or one that finds the store behind the peer. *)
Definition goes_on (e : committer.event committer.Store) : bool :=
  match e with
  | committer.Done => false
  | committer.Tick (inr _) _ _ => true
  | committer.Tick (inl peerHeight) sp fault =>
      bool_decide (fault = None)
      && ((committer.OnStore.BlockHeight None sp).1 <? peerHeight)
  end.

End legacy_wait.

(** ** Blocks, feeds and keys of the examples *)

Module samples.

Import blocks delivery.

(** A codec for the examples. The bytes of an envelope are handed down
    from message to message, and their first byte decides what they
    hold: 1 is a transaction "tx1" that puts k=v1, 2 a transaction "tx2"
    that deletes j, both in the namespace "ns"; 3 is a payload without a
    header. The index of the transactions filter is 2 and the code of a
    valid transaction is 0. *)
Definition kvrwset_of (b : bytes) : KVRWSet + error :=
  match b with
  | Some (Byte.x01 :: _) =>
      inl (mkKVRWSet [] [committer.mkKVWrite "k" false (bytes_of "v1")])
  | Some (Byte.x02 :: _) =>
      inl (mkKVRWSet [] [committer.mkKVWrite "j" true None])
  | _ => inr "no rwsets"%string
  end.

Definition codec : Codec :=
  mkCodec
    (fun b => match b with
              | None => inr "empty envelope"%string
              | Some _ => inl (mkEnvelope b)
              end)
    (fun b => match b with
              | Some (Byte.x03 :: _) => inl (mkPayload None b)
              | _ => inl (mkPayload (Some (mkHeader b)) b)
              end)
    (fun b => match b with
              | Some (Byte.x01 :: _) => inl (mkChannelHeader "tx1")
              | Some (Byte.x02 :: _) => inl (mkChannelHeader "tx2")
              | _ => inr "no channel header"%string
              end)
    (fun b => inl (mkTransaction [mkTransactionAction b]))
    (fun b => inl (mkChaincodeActionPayload
                     (Some (mkChaincodeEndorsedAction b))))
    (fun b => inl (mkProposalResponsePayload b))
    (fun b => inl (mkChaincodeAction b))
    (fun b => inl (mkTxReadWriteSet [mkNsReadWriteSet "ns" b]))
    kvrwset_of 2 0.

(** Block 2: the first transaction is valid, the second is not. *)
Definition block_2 : Block :=
  mkBlock 2 [Some [Byte.x01]; Some [Byte.x02]]
    [None; None; Some [Byte.x00; Byte.x0b]].

(** The record of block 2. *)
Definition record_2 : storage.WriteRecord :=
  storage.mkWriteRecord "ns" "k" 2 0 (bytes_of "v1") false "tx1".



(** The store after block 2. *)
Definition after_block_2 : storage.VersionedDB :=
  storage.after_batch fixtures.new_store [record_2].

(** A feed that delivers block 2 and breaks; the context is done before
    the next subscription. *)
Definition feed : list Attempt :=
  [mkAttempt false
     (mkStream None None None
        [RecvBlock (block_2, mkEnv false None storage.no_faults);
         RecvFailed "EOF"%string])
     false;
   mkAttempt true (mkStream None None None []) false].

(** A chaincode that reads k, writes k and reads k again. *)
Definition read_write_read : list session_history.stub_call :=
  [session_history.Read "k";
   session_history.Write (storage.CallPutState "k" (bytes_of "x"));
   session_history.Read "k"].

(** Six polls in a row at which the peer cannot be reached. *)
Definition legacy_store : committer.Store :=
  committer.NewStorage "mychannel" sql.empty "sqlite".

Definition six_failures : list (committer.event committer.Store) :=
  replicate 6 (committer.Tick (inr "unavailable"%string) legacy_store None).

(** A factory of stubs over a store at block 3 that holds nothing. *)
Definition factory : stub.StubFactory :=
  stub.mkStubFactory "ns"
    (committer.mkWorldStateStore (3, None) (fun _ _ _ => (None, None))).

End samples.

(** * Properties *)

(** ** The SQL statements *)

Section statements.

Implicit Types (t : gmap sql.PK sql.Row) (p : gmap string Z).
Implicit Types (k : sql.PK) (r : sql.Row) (e : sql.PK * sql.Row).

Lemma insert_ignore_lookup k r t k' :
  sql.insert_ignore k r t !! k' =
    match t !! k' with
    | Some v => Some v
    | None => if decide (k = k') then Some r else None
    end.
Proof.
  unfold sql.insert_ignore.
  destruct (t !! k) as [v|] eqn:Hk.
  - destruct (t !! k') as [v'|] eqn:Hk'; [done|].
    case_decide; [congruence | done].
  - rewrite lookup_insert. case_decide as Heq.
    + subst k'. by rewrite Hk.
    + by destruct (t !! k').
Qed.

Lemma insert_ignore_present k r t :
  is_Some (t !! k) -> sql.insert_ignore k r t = t.
Proof. intros [v Hv]. unfold sql.insert_ignore. by rewrite Hv. Qed.

Lemma insert_ignore_keeps k r t k' v :
  t !! k' = Some v -> sql.insert_ignore k r t !! k' = Some v.
Proof. intros Hv. by rewrite insert_ignore_lookup, Hv. Qed.

Lemma insert_ignore_stored k r t : is_Some (sql.insert_ignore k r t !! k).
Proof.
  rewrite insert_ignore_lookup. destruct (t !! k); [by eexists|].
  rewrite decide_True by done. by eexists.
Qed.

Lemma upsert_progress_lookup ch b p :
  sql.upsert_progress ch b p !! ch =
    Some (match p !! ch with None => b | Some stored => Z.max stored b end).
Proof.
  unfold sql.upsert_progress. destruct (p !! ch) as [stored|] eqn:Hch.
  - destruct (Z.ltb_spec stored b).
    + rewrite lookup_insert_eq. f_equal. lia.
    + rewrite Hch. f_equal. lia.
  - by rewrite lookup_insert_eq.
Qed.

Lemma upsert_progress_other ch ch' b p :
  ch <> ch' -> sql.upsert_progress ch b p !! ch' = p !! ch'.
Proof.
  intros Hne. unfold sql.upsert_progress.
  destruct (p !! ch) as [stored|]; [destruct (stored <? b)|];
    by rewrite ?lookup_insert_ne.
Qed.

Lemma upsert_progress_again ch b p :
  sql.upsert_progress ch b (sql.upsert_progress ch b p) =
    sql.upsert_progress ch b p.
Proof.
  unfold sql.upsert_progress at 1. rewrite upsert_progress_lookup.
  destruct (p !! ch) as [stored|].
  - destruct (Z.ltb_spec (Z.max stored b) b); [lia | done].
  - destruct (Z.ltb_spec b b); [lia | done].
Qed.

#[local] Instance version_desc_total : Total sql.version_desc.
Proof. intros a b. unfold sql.version_desc. lia. Qed.

#[local] Instance version_desc_trans : Transitive sql.version_desc.
Proof. intros a b c. unfold sql.version_desc. lia. Qed.

Lemma elem_of_selected (P : sql.PK * sql.Row -> Prop)
    `{!forall e, Decision (P e)} t e :
  e ∈ merge_sort sql.version_desc (filter P (map_to_list t)) <->
  P e /\ sql.stored t e.
Proof.
  rewrite merge_sort_Permutation, list_elem_of_filter.
  destruct e as [k r]. by rewrite elem_of_map_to_list.
Qed.

Lemma select_latest_before_Some ns key c t e :
  sql.select_latest_before ns key c t = Some e <->
  sql.stored t e /\ sql.at_or_before ns key c e /\
  forall e', sql.stored t e' -> sql.at_or_before ns key c e' ->
             sql.version_desc e e'.
Proof.
  unfold sql.select_latest_before.
  set (l := merge_sort _ _).
  assert (Hsorted : StronglySorted sql.version_desc l)
    by apply (StronglySorted_merge_sort _).
  assert (Hin : forall x, x ∈ l <-> sql.at_or_before ns key c x /\ sql.stored t x)
    by (intros x; apply elem_of_selected).
  clearbody l. split.
  - intros Hhd. apply head_Some in Hhd as [l' ->].
    apply StronglySorted_cons in Hsorted as [Hall _].
    assert (He : e ∈ e :: l') by left.
    apply Hin in He as [Hb Hs]. split; [done|]. split; [done|].
    intros e' Hs' Hb'.
    assert (He' : e' ∈ e :: l') by (apply Hin; done).
    apply elem_of_cons in He' as [-> | He'].
    + unfold sql.version_desc. lia.
    + rewrite Forall_forall in Hall. by apply Hall.
  - intros (Hs & Hb & Hmax).
    assert (He : e ∈ l) by (apply Hin; done).
    destruct l as [|e0 l']; [by apply elem_of_nil in He|].
    simpl. f_equal.
    assert (He0 : e0 ∈ e0 :: l') by left.
    apply Hin in He0 as [Hb0 Hs0].
    assert (Hle : sql.version_desc e0 e).
    { apply elem_of_cons in He as [-> | He].
      - unfold sql.version_desc. lia.
      - apply StronglySorted_cons in Hsorted as [Hall _].
        rewrite Forall_forall in Hall. by apply Hall. }
    specialize (Hmax e0 Hs0 Hb0).
    destruct e0 as [[[[n0 k0] b0] x0] r0], e as [[[[n1 k1] b1] x1] r1].
    unfold sql.version_desc, sql.at_or_before, sql.stored in *. simpl in *.
    destruct Hb0 as (-> & -> & _), Hb as (-> & -> & _).
    assert (b0 = b1) as -> by lia. assert (x0 = x1) as -> by lia.
    congruence.
Qed.

Lemma select_latest_before_None ns key c t :
  sql.select_latest_before ns key c t = None <->
  forall e, sql.stored t e -> ~ sql.at_or_before ns key c e.
Proof.
  unfold sql.select_latest_before. rewrite head_None. split.
  - intros Hnil e Hs Hb.
    assert (He : e ∈ merge_sort sql.version_desc
              (filter (sql.at_or_before ns key c) (map_to_list t)))
      by (apply elem_of_selected; done).
    rewrite Hnil in He. by apply elem_of_nil in He.
  - intros Hnone.
    destruct (merge_sort _ _) as [|e l] eqn:Hl; [done|].
    assert (He : e ∈ merge_sort sql.version_desc
              (filter (sql.at_or_before ns key c) (map_to_list t)))
      by (rewrite Hl; left).
    apply elem_of_selected in He as [Hb Hs]. by destruct (Hnone e Hs).
Qed.

End statements.

(** ** The versioned store *)

Section versioned_store.

Import storage.

Implicit Types (s : VersionedDB) (f : Faults) (w : WriteRecord).
Implicit Types (writes : list WriteRecord) (t : gmap sql.PK sql.Row).

Lemma with_backend_same s : with_backend s (backend s) = s.
Proof. by destruct s. Qed.

Lemma insert_all_keeps writes t k v :
  t !! k = Some v -> insert_all writes t !! k = Some v.
Proof.
  revert t. induction writes as [|w writes IH]; intros t Hk; [done|].
  simpl. apply IH. by apply insert_ignore_keeps.
Qed.

Lemma insert_all_stored writes t w :
  w ∈ writes -> is_Some (insert_all writes t !! pk w).
Proof.
  revert t. induction writes as [|w' writes IH]; intros t Hin.
  - by apply elem_of_nil in Hin.
  - apply elem_of_cons in Hin as [-> | Hin]; [|by apply IH].
    simpl. destruct (insert_ignore_stored (pk w') (row w') t) as [v Hv].
    exists v. by apply insert_all_keeps.
Qed.

Lemma insert_all_origin writes t k v :
  insert_all writes t !! k = Some v ->
  t !! k = Some v \/ exists w, w ∈ writes /\ pk w = k /\ row w = v.
Proof.
  revert t. induction writes as [|w writes IH]; intros t Hk; [by left|].
  simpl in Hk. apply IH in Hk as [Hk | (w' & Hin & Hpk & Hrow)].
  - rewrite insert_ignore_lookup in Hk.
    destruct (t !! k) as [v'|]; [by left|].
    case_decide as Heq; [|done]. right. exists w.
    split; [left|]. split; congruence.
  - right. exists w'. split; [by right | done].
Qed.

Lemma insert_all_present writes t :
  (forall w, w ∈ writes -> is_Some (t !! pk w)) -> insert_all writes t = t.
Proof.
  induction writes as [|w writes IH]; intros Hall; [done|].
  simpl. rewrite insert_ignore_present by (apply Hall; left).
  apply IH. intros w' Hin. apply Hall. by right.
Qed.

Lemma insert_all_again writes t :
  insert_all writes (insert_all writes t) = insert_all writes t.
Proof. apply insert_all_present. intros w. apply insert_all_stored. Qed.

(** The insert loop works on the view of the transaction only. *)
Lemma exec_all_faultless on_exec i tx writes :
  forallb (fun j => bool_decide (on_exec j = None)) (seq i (length writes))
    = true ->
  exec_all on_exec i tx writes =
    (sql.mkTx (sql.committed tx)
       (sql.mkDB (insert_all writes (sql.worldstate (sql.pending tx)))
          (sql.channel_progress (sql.pending tx))), None).
Proof.
  revert i tx. induction writes as [|w writes IH]; intros i tx Hok.
  - simpl. by destruct tx as [c [ws cp]].
  - simpl in Hok. apply andb_true_iff in Hok as [Hi Hok].
    apply bool_decide_eq_true in Hi. simpl. rewrite Hi.
    by rewrite (IH _ _ Hok).
Qed.

Lemma exec_all_fault on_exec i tx writes :
  forallb (fun j => bool_decide (on_exec j = None)) (seq i (length writes))
    = false ->
  exists tx' err,
    exec_all on_exec i tx writes = (tx', Some err) /\
    sql.committed tx' = sql.committed tx.
Proof.
  revert i tx. induction writes as [|w writes IH]; intros i tx Hbad;
    [done|].
  simpl in Hbad. simpl. destruct (on_exec i) as [err|] eqn:Hi.
  - by eexists _, _.
  - rewrite bool_decide_eq_true_2 in Hbad by done. simpl in Hbad.
    destruct (IH _ (sql.Exec (sql.exec_insert (pk w) (row w)) tx) Hbad)
      as (tx' & err & -> & Hc).
    by eexists _, _.
Qed.

(** [BatchInsert] either commits every statement or changes nothing, and
    which of the two is decided by the faults alone. *)
Lemma BatchInsert_faultless f s writes :
  faultless f (length writes) = true ->
  BatchInsert f s writes = (after_batch s writes, None).
Proof.
  unfold faultless. rewrite !andb_true_iff, !bool_decide_eq_true.
  intros ((((Hb & Hp) & He) & Hm) & Hc).
  destruct writes as [|first rest]; [done|].
  unfold BatchInsert, batch_body, MarkProcessed.
  rewrite Hb, Hp, (exec_all_faultless _ _ _ _ He), Hm, Hc. done.
Qed.

Lemma BatchInsert_fault f s writes :
  writes <> [] ->
  faultless f (length writes) = false ->
  exists err, BatchInsert f s writes = (s, Some err).
Proof.
  intros Hne Hbad. destruct writes as [|first rest]; [done|].
  unfold BatchInsert, batch_body, MarkProcessed.
  destruct (on_begin f) as [e|] eqn:Hb; [by eexists|].
  destruct (on_prepare f) as [e|] eqn:Hp.
  { eexists. simpl. by rewrite with_backend_same. }
  destruct (forallb (fun i => bool_decide (on_exec f i = None))
              (seq 0 (length (first :: rest)))) eqn:He.
  - rewrite (exec_all_faultless _ _ _ _ He).
    destruct (on_progress f) as [e|] eqn:Hm.
    { eexists. simpl. by rewrite with_backend_same. }
    destruct (on_commit f) as [e|] eqn:Hc.
    { eexists. simpl. by rewrite with_backend_same. }
    unfold faultless in Hbad. rewrite Hb, Hp, He, Hm, Hc in Hbad. done.
  - destruct (exec_all_fault _ _ (sql.Begin (backend s)) _ He)
      as (tx' & err & -> & Hc).
    exists err. unfold sql.Rollback. rewrite Hc. simpl.
    by rewrite with_backend_same.
Qed.

Lemma BatchInsert_cases f s writes :
  BatchInsert f s writes = (after_batch s writes, None) \/
  exists err, BatchInsert f s writes = (s, Some err).
Proof.
  destruct writes as [|first rest]; [by left|].
  destruct (faultless f (length (first :: rest))) eqn:Hf.
  - left. by apply BatchInsert_faultless.
  - right. by apply BatchInsert_fault.
Qed.

Lemma faultless_no_faults n : faultless no_faults n = true.
Proof.
  unfold faultless. simpl. rewrite !andb_true_r.
  apply forallb_forall. intros i _. done.
Qed.

End versioned_store.

Section store_progress.

Import storage.

Implicit Types (s : VersionedDB) (f : Faults) (w : WriteRecord).
Implicit Types (writes : list WriteRecord).

Lemma uint64_typed z : is_uint64 z -> uint64 z = z.
Proof. intros Hz. unfold uint64. by apply Z.mod_small. Qed.


(** The upsert of [MarkProcessed], seen through [LastProcessedBlock]. *)
Lemma last_block_upsert s t b :
  progress_typed s -> is_uint64 b ->
  last_block
    (with_backend s
       (sql.mkDB t (sql.upsert_progress (channel s) b
                      (sql.channel_progress (backend s)))))
    = Z.max (last_block s) b.
Proof.
  intros Ht Hb. unfold last_block, LastProcessedBlock. simpl.
  rewrite upsert_progress_lookup.
  destruct (sql.channel_progress (backend s) !! channel s) as [v|] eqn:Hv;
    simpl.
  - pose proof (Ht _ _ Hv) as Hv'. rewrite (uint64_typed v) by done.
    apply uint64_typed. unfold is_uint64 in *. lia.
  - rewrite uint64_typed by done. unfold is_uint64 in *. lia.
Qed.

Lemma progress_typed_upsert s t b :
  progress_typed s -> is_uint64 b ->
  progress_typed
    (with_backend s
       (sql.mkDB t (sql.upsert_progress (channel s) b
                      (sql.channel_progress (backend s))))).
Proof.
  intros Ht Hb ch v. simpl. destruct (decide (channel s = ch)) as [<-|Hne].
  - rewrite upsert_progress_lookup. intros [= <-].
    destruct (sql.channel_progress (backend s) !! channel s) as [v|] eqn:Hv;
      [|done].
    pose proof (Ht _ _ Hv). unfold is_uint64 in *. lia.
  - rewrite upsert_progress_other by done. apply Ht.
Qed.

Lemma last_block_after_batch s first rest :
  progress_typed s -> is_uint64 (BlockNum first) ->
  last_block (after_batch s (first :: rest))
    = Z.max (last_block s) (BlockNum first).
Proof. intros Ht Hb. by apply last_block_upsert. Qed.

Lemma MarkProcessed_nil fault s b :
  (MarkProcessed fault s None b).1.1 = s \/
  (MarkProcessed fault s None b).1.1 =
    with_backend s (sql.exec_progress (channel s) b (backend s)).
Proof. unfold MarkProcessed. destruct fault; [by left | by right]. Qed.

(** One call of the committer keeps the progress typed and does not
    lower it. *)
Lemma ingest_step s c :
  progress_typed s -> well_typed c ->
  progress_typed (ingest s c) /\ last_block s <= last_block (ingest s c).
Proof.
  intros Ht Hc. destruct c as [fault b | f writes]; simpl in *.
  - destruct (MarkProcessed_nil fault s b) as [-> | ->]; [split; [done|lia]|].
    unfold sql.exec_progress. split.
    + by apply progress_typed_upsert.
    + rewrite last_block_upsert by done. lia.
  - destruct (BatchInsert_cases f s writes) as [-> | [err ->]]; simpl;
      [|split; [done|lia]].
    destruct writes as [|first rest]; [split; [done|simpl; lia]|].
    apply Forall_cons in Hc as [Hfirst _]. split.
    + by apply progress_typed_upsert.
    + rewrite last_block_after_batch by done. lia.
Qed.

Lemma ingest_all_steps cs : forall s,
  progress_typed s -> Forall well_typed cs ->
  progress_typed (ingest_all s cs) /\ last_block s <= last_block (ingest_all s cs).
Proof.
  induction cs as [|c cs IH]; intros s Ht Hcs; [split; [done|simpl; lia]|].
  apply Forall_cons in Hcs as [Hc Hcs].
  destruct (ingest_step s c Ht Hc) as [Ht' Hle].
  destruct (IH _ Ht' Hcs) as [Ht'' Hle'].
  change (ingest_all s (c :: cs)) with (ingest_all (ingest s c) cs).
  split; [done | lia].
Qed.

Lemma progress_typed_New ch : progress_typed (New ch sql.empty).
Proof. intros c v. simpl. by rewrite lookup_empty. Qed.

End store_progress.

Section store_claims.

Import storage.

Implicit Types (s : VersionedDB) (f : Faults) (w : WriteRecord).
Implicit Types (writes : list WriteRecord).

Lemma scan_pk_row w : scan (pk w, row w) = w.
Proof. by destruct w. Qed.

Lemma pk_row_scan e : (pk (scan e), row (scan e)) = e.
Proof. by destruct e as [[[[n k] b] x] [v d i]]. Qed.

Lemma pk_row_inj w w' : pk w = pk w' -> row w = row w' -> w = w'.
Proof.
  intros Hpk Hrow. rewrite <- (scan_pk_row w), <- (scan_pk_row w').
  by rewrite Hpk, Hrow.
Qed.

Lemma holds_stored s w :
  holds s w <-> sql.stored (sql.worldstate (backend s)) (pk w, row w).
Proof. done. Qed.

Lemma after_batch_again s writes :
  after_batch (after_batch s writes) writes = after_batch s writes.
Proof.
  destruct writes as [|first rest]; [done|].
  unfold after_batch, with_backend. simpl. f_equal. f_equal.
  - apply (insert_all_again (first :: rest)).
  - apply upsert_progress_again.
Qed.

Lemma BatchInsert_success f s writes s' :
  BatchInsert f s writes = (s', None) -> s' = after_batch s writes.
Proof.
  intros Hok. destruct (BatchInsert_cases f s writes) as [H | [err H]];
    rewrite H in Hok; congruence.
Qed.

(** C3. [BatchInsert] on an empty batch succeeds and changes nothing. On
    any batch it is all or nothing: when no statement fails it returns
    [nil] and the store holds every record of the batch (a record whose
    primary key is new and occurs once in the batch is stored as given),
    keeps every earlier row, gains no other row, and the progress row is
    advanced; when a statement fails it returns an error and the store,
    version history and progress alike, is the one before the call. *)
Theorem BatchInsert_all_or_nothing f s writes :
  BatchInsert f s [] = (s, None) /\
  (faultless f (length writes) = true ->
     BatchInsert f s writes = (after_batch s writes, None)) /\
  (writes <> [] -> faultless f (length writes) = false ->
     exists err, BatchInsert f s writes = (s, Some err)) /\
  (forall w, w ∈ writes ->
     is_Some (sql.worldstate (backend (after_batch s writes)) !! pk w)) /\
  (forall w, w ∈ writes ->
     sql.worldstate (backend s) !! pk w = None ->
     (forall w', w' ∈ writes -> pk w' = pk w -> w' = w) ->
     holds (after_batch s writes) w) /\
  (forall w, holds s w -> holds (after_batch s writes) w) /\
  (forall w, holds (after_batch s writes) w -> holds s w \/ w ∈ writes) /\
  (forall first rest, writes = first :: rest ->
     sql.channel_progress (backend (after_batch s writes)) !! channel s =
       Some (match sql.channel_progress (backend s) !! channel s with
             | None => BlockNum first
             | Some stored => Z.max stored (BlockNum first)
             end)).
Proof.
  assert (Hws : sql.worldstate (backend (after_batch s writes)) =
                insert_all writes (sql.worldstate (backend s)))
    by (by destruct writes).
  split; [done|]. split; [apply BatchInsert_faultless|].
  split; [apply BatchInsert_fault|].
  split; [|split; [|split; [|split]]].
  - intros w Hin. rewrite Hws. by apply insert_all_stored.
  - intros w Hin Hfresh Huniq. unfold holds. rewrite Hws.
    destruct (insert_all_stored writes (sql.worldstate (backend s)) w Hin)
      as [v Hv].
    rewrite Hv. f_equal.
    apply insert_all_origin in Hv as [Hv | (w' & Hin' & Hpk & Hrow)];
      [congruence|].
    by rewrite <- (Huniq w' Hin' Hpk).
  - intros w Hw. unfold holds. rewrite Hws. by apply insert_all_keeps.
  - intros w Hw. unfold holds in Hw. rewrite Hws in Hw.
    apply insert_all_origin in Hw as [Hw | (w' & Hin' & Hpk & Hrow)];
      [by left|].
    right. by rewrite <- (pk_row_inj w' w).
  - intros first rest ->. simpl. apply upsert_progress_lookup.
Qed.

(** C10. A successful [BatchInsert] of a non-empty batch moves the
    progress to the maximum of its value before the call and the block
    number of the first record: the rest of the batch plays no part in
    it, and a later record with a higher block number is left above the
    progress. *)
Theorem BatchInsert_progress_from_first f s first rest s' :
  progress_typed s -> is_uint64 (BlockNum first) ->
  BatchInsert f s (first :: rest) = (s', None) ->
  last_block s' = Z.max (last_block s) (BlockNum first) /\
  (forall rest', last_block (after_batch s (first :: rest')) = last_block s') /\
  (forall w, w ∈ rest ->
     Z.max (last_block s) (BlockNum first) < BlockNum w ->
     last_block s' < BlockNum w).
Proof.
  intros Ht Hb Hok. apply BatchInsert_success in Hok as ->.
  rewrite last_block_after_batch by done.
  split; [done|]. split.
  - intros rest'. by rewrite last_block_after_batch.
  - intros w _ Hlt. done.
Qed.

(** C5. Replaying a batch that went through leaves the store, version
    history and progress alike, as the first call left it, whether the
    replay itself goes through or fails; without faults the replay returns
    [nil]. A record whose primary key is stored already is ignored
    without an error. *)
Theorem BatchInsert_idempotent f1 f2 s writes s1 :
  BatchInsert f1 s writes = (s1, None) ->
  (BatchInsert f2 s1 writes).1 = s1 /\
  BatchInsert no_faults s1 writes = (s1, None) /\
  (forall s0 w, is_Some (sql.worldstate (backend s0) !! pk w) ->
     InsertWrite None s0 w = (s0, None) /\
     (BatchInsert no_faults s0 [w]).2 = None /\
     sql.worldstate (backend (BatchInsert no_faults s0 [w]).1) =
       sql.worldstate (backend s0)).
Proof.
  intros Hok. apply BatchInsert_success in Hok as ->.
  split; [|split].
  - destruct (BatchInsert_cases f2 (after_batch s writes) writes)
      as [-> | [err ->]]; [|done].
    apply after_batch_again.
  - rewrite BatchInsert_faultless by apply faultless_no_faults.
    by rewrite after_batch_again.
  - intros s0 w Hw. split; [|split].
    + unfold InsertWrite, sql.exec_insert.
      rewrite insert_ignore_present by done.
      by destruct s0 as [c t [ws cp]].
    + by rewrite BatchInsert_faultless by apply faultless_no_faults.
    + rewrite BatchInsert_faultless by apply faultless_no_faults.
      simpl. by rewrite insert_ignore_present.
Qed.

(** C4. Over any history of [MarkProcessed] and [BatchInsert] calls,
    failing or not, in any order of block numbers, the value of
    [LastProcessedBlock] does not decrease. [MarkProcessed b] leaves the
    larger of the value before and [b]; when the stored value is not
    below [b] the store is left as it is. Marking block 5 and then block
    3 on a new store leaves 5. *)
Theorem LastProcessedBlock_never_decreases s cs :
  progress_typed s -> Forall well_typed cs ->
  last_block s <= last_block (ingest_all s cs) /\
  (forall b, is_uint64 b ->
     last_block (MarkProcessed None s None b).1.1 =
       if last_block s <? b then b else last_block s) /\
  (forall b stored,
     sql.channel_progress (backend s) !! channel s = Some stored ->
     ~ stored < b ->
     (MarkProcessed None s None b).1.1 = s) /\
  (forall ch,
     last_block (ingest_all (New ch sql.empty)
                   [CallMarkProcessed None 5; CallMarkProcessed None 3]) = 5).
Proof.
  intros Ht Hcs. split; [by apply ingest_all_steps|]. split; [|split].
  - intros b Hb. unfold MarkProcessed, sql.exec_progress. simpl.
    rewrite last_block_upsert by done.
    destruct (Z.ltb_spec (last_block s) b); lia.
  - intros b stored Hst Hge. unfold MarkProcessed, sql.exec_progress. simpl.
    unfold sql.upsert_progress. rewrite Hst.
    destruct (Z.ltb_spec stored b); [lia|].
    by destruct s as [c t [ws cp]].
  - intros ch. unfold ingest_all. simpl.
    unfold last_block, LastProcessedBlock, sql.exec_progress. simpl.
    rewrite upsert_progress_lookup, upsert_progress_lookup, lookup_empty.
    done.
Qed.

(** What the query of [Get] selects, in terms of the records held. *)
Lemma Get_Some s namespace key lastBlock w :
  Get None s namespace key lastBlock = (Some w, None) <->
  holds s w /\ version_of namespace key lastBlock w /\
  forall w', holds s w' -> version_of namespace key lastBlock w' ->
             version_le w' w.
Proof.
  unfold Get. split.
  - intros [= Hsel]. apply fmap_Some in Hsel as (e & Hsel & ->).
    apply select_latest_before_Some in Hsel as (Hs & Hb & Hmax).
    split; [|split].
    + apply holds_stored. by rewrite pk_row_scan.
    + by destruct e as [[[[n k] b] x] r].
    + intros w' Hw' Hv'.
      specialize (Hmax (pk w', row w') Hw' ltac:(by destruct w')).
      destruct e as [[[[n k] b] x] r], w'.
      unfold sql.version_desc, version_le in *. simpl in *. lia.
  - intros (Hw & Hv & Hmax). f_equal.
    apply fmap_Some. exists (pk w, row w).
    split; [|by rewrite scan_pk_row].
    apply select_latest_before_Some. split; [done|].
    split; [by destruct w|].
    intros e' Hs' Hb'.
    specialize (Hmax (scan e')
      ltac:(apply holds_stored; by rewrite pk_row_scan)
      ltac:(by destruct e' as [[[[n k] b] x] r])).
    destruct e' as [[[[n k] b] x] r], w.
    unfold sql.version_desc, version_le in *. simpl in *. lia.
Qed.

Lemma Get_None s namespace key lastBlock :
  Get None s namespace key lastBlock = (None, None) <->
  forall w, holds s w -> ~ version_of namespace key lastBlock w.
Proof.
  unfold Get. split.
  - intros [= Hsel]. apply fmap_None in Hsel.
    intros w Hw Hv.
    pose proof (proj1 (select_latest_before_None _ _ _ _) Hsel
                  (pk w, row w) Hw) as Hnot.
    apply Hnot. by destruct w.
  - intros Hnone. f_equal. apply fmap_None.
    apply select_latest_before_None. intros e Hs Hb.
    apply (Hnone (scan e)).
    + apply holds_stored. by rewrite pk_row_scan.
    + by destruct e as [[[[n k] b] x] r].
Qed.

Lemma bind_uint64_low refusal arg outcome :
  arg < 2 ^ 63 -> sql.bind_uint64 refusal arg outcome = outcome.
Proof.
  intros Hlow. unfold sql.bind_uint64.
  by destruct (Z.leb_spec (2 ^ 63) arg); [lia|].
Qed.

Lemma bind_uint64_high refusal arg outcome :
  2 ^ 63 <= arg -> sql.bind_uint64 refusal arg outcome = Some refusal.
Proof.
  intros Hhigh. unfold sql.bind_uint64.
  by destruct (Z.leb_spec (2 ^ 63) arg); [|lia].
Qed.

(** C6, as stated, fails for the ceilings from 2^63 on. The store
    [ingested] holds the version of "k" written in block 3, which is the
    latest at or before the ceiling 2^63; the query of [Get] is refused
    for that ceiling and [Get] returns an error, not the record. *)
Lemma Get_refuses_a_high_ceiling :
  holds fixtures.ingested (fixtures.put_record "k" 3 0 "v2") /\
  version_of "ns" "k" (2 ^ 63) (fixtures.put_record "k" 3 0 "v2") /\
  (forall w', holds fixtures.ingested w' -> version_of "ns" "k" (2 ^ 63) w' ->
     version_le w' (fixtures.put_record "k" 3 0 "v2")) /\
  Get (sql.bind_uint64 fixtures.high_bit_refused (2 ^ 63) None)
    fixtures.ingested "ns" "k" (2 ^ 63)
    = (None, Some (wrap "get current" fixtures.high_bit_refused)) /\
  Get (sql.bind_uint64 fixtures.high_bit_refused (2 ^ 63) None)
    fixtures.ingested "ns" "k" (2 ^ 63)
    <> (Some (fixtures.put_record "k" 3 0 "v2"), None).
Proof.
  assert (Hget : Get None fixtures.ingested "ns" "k" (2 ^ 63)
                 = (Some (fixtures.put_record "k" 3 0 "v2"), None))
    by (vm_compute; reflexivity).
  apply Get_Some in Hget as (Hw & Hv & Hmax).
  split; [exact Hw|]. split; [exact Hv|]. split; [exact Hmax|].
  split; [reflexivity | discriminate].
Qed.

(** C6 (amended). For a ceiling below 2^63, when its query goes through,
    [Get] returns a record exactly when it is the stored version of the
    key with the highest [(BlockNum, TxNum)], block first and transaction
    second, among those with [BlockNum <= lastBlock]; it returns
    [(nil, nil)] exactly when no version of the key is stored at or
    before [lastBlock]; it returns nothing else. For a ceiling from 2^63
    on the query is refused and [Get] returns the error, whatever the
    store holds. *)
Theorem Get_latest_at_or_before refusal s namespace key lastBlock :
  (lastBlock < 2 ^ 63 ->
   (forall w,
      Get (sql.bind_uint64 refusal lastBlock None) s namespace key lastBlock
        = (Some w, None) <->
      holds s w /\ version_of namespace key lastBlock w /\
      forall w', holds s w' -> version_of namespace key lastBlock w' ->
                 version_le w' w) /\
   (Get (sql.bind_uint64 refusal lastBlock None) s namespace key lastBlock
      = (None, None) <->
    forall w, holds s w -> ~ version_of namespace key lastBlock w) /\
   (Get (sql.bind_uint64 refusal lastBlock None) s namespace key lastBlock).2
     = None) /\
  (2 ^ 63 <= lastBlock ->
   forall fault,
     Get (sql.bind_uint64 refusal lastBlock fault) s namespace key lastBlock
       = (None, Some (wrap "get current" refusal))).
Proof.
  split.
  - intros Hlow. rewrite bind_uint64_low by done.
    split; [intros w; apply Get_Some|]. split; [apply Get_None | done].
  - intros Hhigh fault. by rewrite bind_uint64_high.
Qed.

(** The three blocks of the specification's example, read at the ceiling
    of block 2. *)
Lemma Get_latest_at_or_before_witness :
  Get (sql.bind_uint64 fixtures.high_bit_refused 2 None) fixtures.ingested
    "ns" "k" 2
    = (Some (fixtures.put_record "k" 2 0 "v1"), None).
Proof.
  apply (proj1 (Get_latest_at_or_before fixtures.high_bit_refused
                  fixtures.ingested "ns" "k" 2) ltac:(lia)).
  apply Get_Some. vm_compute. reflexivity.
Defined.

End store_claims.

(** ** The simulation session *)

Section session.

Import storage.

Implicit Types (s : SimulationStore) (key : string) (value : bytes).

Lemma GetState_from_store s key :
  from_store s key ->
  (if readOwnWrites s then writes s !! key else None) = None.
Proof. intros [-> | Hw]; [done|]. by destruct (readOwnWrites s). Qed.

Lemma GetState_live s key r :
  from_store s key ->
  store s (namespace s) key (blockNum s) = (Some r, None) ->
  IsDelete r = false ->
  GetState s key =
    (set_reads s
       (<[key := mkKVRead key (Some (mkVersion (BlockNum r) (TxNum r)))]>
          (reads s)),
     (None, None)).
Proof.
  intros Hfs Hget Hlive. unfold GetState.
  by rewrite (GetState_from_store _ _ Hfs), Hget, Hlive.
Qed.

Lemma GetState_deleted s key r :
  from_store s key ->
  store s (namespace s) key (blockNum s) = (Some r, None) ->
  IsDelete r = true ->
  GetState s key = (s, (None, None)).
Proof.
  intros Hfs Hget Hdel. unfold GetState.
  by rewrite (GetState_from_store _ _ Hfs), Hget, Hdel.
Qed.

Lemma GetState_absent s key :
  from_store s key ->
  store s (namespace s) key (blockNum s) = (None, None) ->
  GetState s key =
    (set_reads s (<[key := mkKVRead key None]> (reads s)), (None, None)).
Proof.
  intros Hfs Hget. unfold GetState.
  by rewrite (GetState_from_store _ _ Hfs), Hget.
Qed.

Lemma NewSimulationStore_plain :
  NewSimulationStore None (fun _ => None) fixtures.ingested "ns" 0 false
    = inl fixtures.plain_session.
Proof. reflexivity. Qed.

(** C1 (the code departs from the claim). In the case "key exists" of
    TestGetState the store holds a live record of "k1" at block 10,
    transaction 1, with value "v1". [GetState] records the read with
    version (10, 1) and returns [(nil, nil)]: the value of the record is
    not returned. The stub of package committer returns it. *)
Theorem GetState_key_exists_returns_nil :
  GetState fixtures.key_exists_stub "k1" =
    (set_reads fixtures.key_exists_stub
       (<["k1" := mkKVRead "k1" (Some (mkVersion 10 1))]> ∅),
     (None, None)) /\
  (GetState fixtures.key_exists_stub "k1").2.1
    <> Value fixtures.k1_record /\
  (committer.GetState fixtures.key_exists_Stub "k1").2
    = (bytes_of "v1", None).
Proof. split; [reflexivity|]. split; [discriminate | reflexivity]. Qed.

(** C2, as stated, fails: the session [own_writes_session] reads its own
    writes and has put "A" under "j"; the latest record of "j" at or
    before its snapshot is a delete, and [GetState] returns "A". *)
Lemma GetState_deleted_key_pending_put :
  store fixtures.own_writes_session (namespace fixtures.own_writes_session)
    "j" (blockNum fixtures.own_writes_session)
    = (Some (fixtures.delete_record "j" 3 1), None) /\
  IsDelete (fixtures.delete_record "j" 3 1) = true /\
  (GetState fixtures.own_writes_session "j").2 = (bytes_of "A", None) /\
  (GetState fixtures.own_writes_session "j").2 <> (None, None).
Proof.
  split; [vm_compute; reflexivity|]. split; [reflexivity|].
  split; [reflexivity | discriminate].
Qed.

(** C2 (amended). When [GetState] goes to the store for the key (the
    session does not read its own writes, or has no pending write for
    the key): if the latest record of the key at or before the snapshot
    is a delete, it returns [(nil, nil)] and leaves the session, and so
    the read set, as it was; if there is no record, it returns
    [(nil, nil)] and records a read of the key with no version. *)
Theorem GetState_deleted_or_absent s key :
  from_store s key ->
  (forall r, store s (namespace s) key (blockNum s) = (Some r, None) ->
     IsDelete r = true -> GetState s key = (s, (None, None))) /\
  (store s (namespace s) key (blockNum s) = (None, None) ->
     GetState s key =
       (set_reads s (<[key := mkKVRead key None]> (reads s)), (None, None))) /\
  (forall db w,
     store s = VersionedDB_ReadStore (fun _ => None) db ->
     holds db w -> version_of (namespace s) key (blockNum s) w ->
     (forall w', holds db w' -> version_of (namespace s) key (blockNum s) w' ->
                 version_le w' w) ->
     IsDelete w = true ->
     GetState s key = (s, (None, None))) /\
  (forall db,
     store s = VersionedDB_ReadStore (fun _ => None) db ->
     (forall w, holds db w -> ~ version_of (namespace s) key (blockNum s) w) ->
     GetState s key =
       (set_reads s (<[key := mkKVRead key None]> (reads s)), (None, None))).
Proof.
  intros Hfs. split; [|split; [|split]].
  - intros r. by apply GetState_deleted.
  - by apply GetState_absent.
  - intros db w Hst Hw Hv Hmax Hdel.
    apply (GetState_deleted s key w); [done | | done].
    rewrite Hst. unfold VersionedDB_ReadStore. by apply Get_Some.
  - intros db Hst Hnone. apply GetState_absent; [done|].
    rewrite Hst. unfold VersionedDB_ReadStore. by apply Get_None.
Qed.

Lemma GetState_deleted_or_absent_witness :
  from_store fixtures.plain_session "j" /\
  GetState fixtures.plain_session "j"
    = (fixtures.plain_session, (None, None)).
Proof.
  assert (H : from_store fixtures.plain_session "j") by (left; reflexivity).
  split; [exact H|].
  apply (proj1 (GetState_deleted_or_absent fixtures.plain_session "j" H)
           (fixtures.delete_record "j" 3 1)).
  - vm_compute. reflexivity.
  - reflexivity.
Defined.

End session.

Section write_set.

Import storage.

Implicit Types (s : SimulationStore) (c : write_call) (key : string).

Lemma length_zero_empty key : Nat.eqb (String.length key) 0 = true <-> key = ""%string.
Proof. by destruct key. Qed.

Lemma PutState_rejected s key value :
  key = ""%string \/ len value = 0 ->
  PutState s key value = (s, Some "key is empty"%string).
Proof.
  intros Hbad. unfold PutState.
  destruct (Nat.eqb (String.length key) 0) eqn:Hk; [done|].
  destruct Hbad as [-> | Hv]; [done|]. by rewrite Hv.
Qed.

Lemma PutState_accepted s key value :
  key <> ""%string -> len value <> 0 ->
  PutState s key value =
    (set_writes s (<[key := mkKVWrite key false value]> (writes s)), None).
Proof.
  intros Hk Hv. unfold PutState.
  destruct (Nat.eqb (String.length key) 0) eqn:Hk0.
  - by apply length_zero_empty in Hk0.
  - destruct (Z.eqb_spec (len value) 0); done.
Qed.

Lemma PutState_cases s key value :
  PutState s key value = (s, Some "key is empty"%string) \/
  PutState s key value =
    (set_writes s (<[key := mkKVWrite key false value]> (writes s)), None).
Proof.
  unfold PutState. destruct (Nat.eqb (String.length key) 0); [by left|].
  destruct (len value =? 0); [by left | by right].
Qed.

(** A call that returns [nil] has stored its entry under its key; a call
    that returns an error has left the session as it was. *)
Lemma simulate_accepted s c :
  (simulate s c).2 = None ->
  (simulate s c).1 =
    set_writes s (<[call_key c := call_entry c]> (writes s)).
Proof.
  destruct c as [key value | key]; simpl; [|done].
  destruct (PutState_cases s key value) as [-> | ->]; done.
Qed.

Lemma simulate_rejected s c :
  (simulate s c).2 <> None -> (simulate s c).1 = s.
Proof.
  destruct c as [key value | key]; simpl; [|done].
  destruct (PutState_cases s key value) as [-> | ->]; done.
Qed.

Lemma keyed_simulate s c : keyed s -> keyed (simulate s c).1.
Proof.
  intros Hs. destruct ((simulate s c).2) as [err|] eqn:Hr.
  - rewrite simulate_rejected; [done | by rewrite Hr].
  - rewrite simulate_accepted by done. intros k w. simpl.
    rewrite lookup_insert. case_decide as Hk.
    + intros [= <-]. subst k. by destruct c.
    + apply Hs.
Qed.

Lemma keyed_simulate_all cs : forall s, keyed s -> keyed (simulate_all s cs).
Proof.
  induction cs as [|c cs IH]; intros s Hs; [done|].
  apply (IH (simulate s c).1). by apply keyed_simulate.
Qed.

Lemma keyed_new s : writes s = ∅ -> keyed s.
Proof. intros Hw k w. by rewrite Hw, lookup_empty. Qed.

Lemma simulate_all_snoc s pre c :
  simulate_all s (pre ++ [c]) = (simulate (simulate_all s pre) c).1.
Proof. unfold simulate_all. by rewrite foldl_app. Qed.

Lemma elem_of_Writes s w :
  w ∈ Writes (Result s) <-> exists k, writes s !! k = Some w.
Proof.
  unfold Result. simpl. rewrite list_elem_of_fmap. split.
  - intros ([k w'] & -> & Hin). exists k. by apply elem_of_map_to_list.
  - intros [k Hk]. exists (k, w). split; [done|].
    by apply elem_of_map_to_list.
Qed.

Lemma Writes_keys s :
  keyed s -> KVWrite_Key <$> Writes (Result s) = (map_to_list (writes s)).*1.
Proof.
  intros Hs. unfold Result. simpl. rewrite <- list_fmap_compose.
  apply Forall_fmap_ext_1, Forall_forall. intros [k w] Hin. simpl.
  apply Hs. by apply elem_of_map_to_list.
Qed.

(** C7. In a session whose entries sit under their own keys (every
    session made by [NewSimulationStore] and its calls), after any history
    of [PutState] and [DelState] calls the last call decides the entry of
    its key: when it is accepted, the write set holds under that key its
    entry and no other, the put value with [IsDelete = false] or
    [IsDelete = true] for a delete; when it is a [PutState] that is
    rejected, it has no effect and the session is as before it. Each key
    occurs once in the writes of [Result]. Put "v1" then put "v2" leaves
    the second value; put then delete leaves the delete. *)
Theorem last_write_wins s pre c :
  keyed s ->
  ((simulate (simulate_all s pre) c).2 = None ->
     writes (simulate_all s (pre ++ [c])) !! call_key c = Some (call_entry c) /\
     call_entry c ∈ Writes (Result (simulate_all s (pre ++ [c]))) /\
     (forall w, w ∈ Writes (Result (simulate_all s (pre ++ [c]))) ->
        KVWrite_Key w = call_key c -> w = call_entry c)) /\
  ((simulate (simulate_all s pre) c).2 <> None ->
     simulate_all s (pre ++ [c]) = simulate_all s pre) /\
  NoDup (KVWrite_Key <$> Writes (Result (simulate_all s (pre ++ [c])))) /\
  Writes (Result (simulate_all fixtures.newStub
                    [CallPutState "x" (bytes_of "v1");
                     CallPutState "x" (bytes_of "v2")]))
    = [mkKVWrite "x" false (bytes_of "v2")] /\
  Writes (Result (simulate_all fixtures.newStub
                    [CallPutState "y" (bytes_of "v"); CallDelState "y"]))
    = [mkKVWrite "y" true None].
Proof.
  intros Hs.
  assert (Hkeyed : keyed (simulate_all s (pre ++ [c]))).
  { by apply keyed_simulate_all. }
  split; [|split; [|split; [|split]]].
  - intros Hok.
    assert (Hlook : writes (simulate_all s (pre ++ [c])) !! call_key c
                    = Some (call_entry c)).
    { rewrite simulate_all_snoc, simulate_accepted by done. simpl.
      apply lookup_insert_eq. }
    split; [done|]. split.
    + apply elem_of_Writes. by exists (call_key c).
    + intros w Hin Hkey. apply elem_of_Writes in Hin as [k Hk].
      pose proof (Hkeyed _ _ Hk) as Hwk. rewrite Hkey in Hwk. subst k.
      congruence.
  - intros Herr. rewrite simulate_all_snoc. by apply simulate_rejected.
  - rewrite Writes_keys by done. apply NoDup_fst_map_to_list.
  - reflexivity.
  - reflexivity.
Qed.

Lemma last_write_wins_witness :
  keyed fixtures.newStub /\
  writes (simulate_all fixtures.newStub
            ([CallPutState "x" (bytes_of "v1")] ++ [CallDelState "x"]))
    !! "x" = Some (mkKVWrite "x" true None) /\
  simulate_all fixtures.newStub
    ([CallPutState "x" (bytes_of "v1")] ++ [CallPutState "x" None])
    = simulate_all fixtures.newStub [CallPutState "x" (bytes_of "v1")].
Proof.
  assert (Hk : keyed fixtures.newStub) by (apply keyed_new; reflexivity).
  split; [exact Hk|]. split.
  - exact (proj1 (proj1 (last_write_wins fixtures.newStub
                           [CallPutState "x" (bytes_of "v1")] (CallDelState "x")
                           Hk) eq_refl)).
  - apply (proj1 (proj2 (last_write_wins fixtures.newStub
                           [CallPutState "x" (bytes_of "v1")]
                           (CallPutState "x" None) Hk))).
    discriminate.
Defined.

(** C8. [PutState] returns an error exactly when the key is empty or
    the value is empty or nil; it then leaves the session, and so the
    writes map, as it was; otherwise it stores the entry under the key.
    [DelState] returns [nil] for every key, the empty one included, and
    stores a delete under it. *)
Theorem PutState_rejects_empty s key value :
  ((PutState s key value).2 <> None <-> key = ""%string \/ len value = 0) /\
  ((PutState s key value).2 <> None ->
     PutState s key value = (s, Some "key is empty"%string)) /\
  ((PutState s key value).2 = None ->
     writes (PutState s key value).1
       = <[key := mkKVWrite key false value]> (writes s)) /\
  (DelState s key).2 = None /\
  (DelState s ""%string).2 = None /\
  writes (DelState s key).1 = <[key := mkKVWrite key true None]> (writes s).
Proof.
  split; [|split; [|split]].
  - split.
    + intros Herr. destruct (decide (key = ""%string)) as [|Hk]; [by left|].
      destruct (decide (len value = 0)) as [|Hv]; [by right|].
      by rewrite PutState_accepted in Herr.
    + intros Hbad. by rewrite PutState_rejected.
  - intros Herr. destruct (PutState_cases s key value) as [H | H];
      [done | by rewrite H in Herr].
  - intros Hok. destruct (PutState_cases s key value) as [H | H];
      rewrite H in Hok |- *; done.
  - done.
Qed.

End write_set.

(** ** Witnesses for the store *)

Section store_witnesses.

Import storage.

Lemma BatchInsert_progress_from_first_witness :
  progress_typed fixtures.new_store /\
  is_uint64 2 /\
  last_block (BatchInsert no_faults fixtures.new_store fixtures.mixed_batch).1
    = 2 /\
  last_block (BatchInsert no_faults fixtures.new_store fixtures.mixed_batch).1
    < 7.
Proof.
  assert (Ht : progress_typed fixtures.new_store)
    by apply progress_typed_New.
  assert (Hb : is_uint64 2) by (unfold is_uint64; lia).
  destruct (BatchInsert_progress_from_first no_faults fixtures.new_store
              (fixtures.put_record "k" 2 0 "v1")
              [fixtures.put_record "k" 7 0 "v2"]
              (BatchInsert no_faults fixtures.new_store fixtures.mixed_batch).1
              Ht Hb eq_refl) as (Hmax & _ & Hlater).
  split; [exact Ht|]. split; [exact Hb|]. split; [exact Hmax|].
  apply (Hlater (fixtures.put_record "k" 7 0 "v2")); [left | reflexivity].
Defined.

Lemma BatchInsert_idempotent_witness :
  BatchInsert no_faults fixtures.new_store fixtures.mixed_batch
    = ((BatchInsert no_faults fixtures.new_store fixtures.mixed_batch).1, None)
  /\
  (BatchInsert no_faults
     (BatchInsert no_faults fixtures.new_store fixtures.mixed_batch).1
     fixtures.mixed_batch).1
    = (BatchInsert no_faults fixtures.new_store fixtures.mixed_batch).1.
Proof.
  split; [reflexivity|].
  exact (proj1 (BatchInsert_idempotent no_faults no_faults fixtures.new_store
                  fixtures.mixed_batch _ eq_refl)).
Defined.

Lemma LastProcessedBlock_never_decreases_witness :
  progress_typed fixtures.new_store /\
  Forall well_typed fixtures.out_of_order /\
  last_block fixtures.new_store
    <= last_block (ingest_all fixtures.new_store fixtures.out_of_order).
Proof.
  assert (Ht : progress_typed fixtures.new_store)
    by apply progress_typed_New.
  assert (Hcs : Forall well_typed fixtures.out_of_order).
  { repeat constructor; unfold is_uint64; simpl; lia. }
  split; [exact Ht|]. split; [exact Hcs|].
  exact (proj1 (LastProcessedBlock_never_decreases fixtures.new_store
                  fixtures.out_of_order Ht Hcs)).
Defined.

(** The three blocks of the specification's example, read back. *)
Example three_blocks_read_back :
  last_block fixtures.ingested = 3 /\
  last_block (ingest_all fixtures.new_store fixtures.out_of_order) = 3 /\
  (GetHistory None fixtures.ingested "ns" "k").1
    = [fixtures.put_record "k" 2 0 "v1"; fixtures.put_record "k" 3 0 "v2"] /\
  (GetCurrent None fixtures.ingested "ns" "j").1
    = Some (fixtures.delete_record "j" 3 1) /\
  (Get None fixtures.ingested "ns" "k" 2).1
    = Some (fixtures.put_record "k" 2 0 "v1").
Proof. repeat split; vm_compute; reflexivity. Qed.

End store_witnesses.

(** ** The store of package committer *)

Section committer_store.

Import committer.

Implicit Types (sp : Store) (f : storage.Faults) (writes : list WriteRecord).

Lemma exec_all_upgrade on_exec writes : forall i tx,
  exec_all on_exec i tx writes
    = storage.exec_all on_exec i tx (upgrade <$> writes).
Proof.
  induction writes as [|w writes IH]; intros i tx; [done|].
  simpl. destruct (on_exec i); [done|]. apply IH.
Qed.

(** With a supported backend the two stores run the same statements. *)
Lemma BatchInsert_supported f sp writes :
  supported (Backend sp) = true ->
  BatchInsert f sp writes =
    (with_DB sp
       (storage.backend
          (storage.BatchInsert f (as_VersionedDB sp) (upgrade <$> writes)).1),
     (storage.BatchInsert f (as_VersionedDB sp) (upgrade <$> writes)).2).
Proof.
  intros Hsup. destruct writes as [|first rest].
  { by destruct sp. }
  unfold BatchInsert, storage.BatchInsert. simpl.
  destruct (storage.on_begin f); [by destruct sp|].
  unfold batch_body, storage.batch_body, MarkProcessed, storage.MarkProcessed.
  rewrite Hsup. destruct (storage.on_prepare f); [done|].
  rewrite (exec_all_upgrade _ (first :: rest)). simpl.
  destruct (storage.on_exec f 0); [done|].
  destruct (storage.exec_all _ _ _ _) as [tx1 [err|]]; [done|].
  destruct (storage.on_progress f); [done|].
  destruct (storage.on_commit f); done.
Qed.

(** With any other backend a non-empty batch is refused after [Begin],
    and the deferred rollback leaves the store as it was. *)
Lemma BatchInsert_unsupported f sp writes :
  supported (Backend sp) = false -> writes <> [] ->
  exists err, BatchInsert f sp writes = (sp, Some err).
Proof.
  intros Hsup Hne. destruct writes as [|first rest]; [done|].
  unfold BatchInsert, batch_body. rewrite Hsup.
  destruct (storage.on_begin f); [by eexists|].
  eexists. simpl. by destruct sp.
Qed.

Lemma last_block_as_VersionedDB sp :
  last_block sp = storage.last_block (as_VersionedDB sp).
Proof. done. Qed.

End committer_store.

(** ** Waiting until the store has caught up *)

Section synchronisation.

Import committer committer.OnVersionedDB.

Implicit Types (events pre rest : list (event storage.VersionedDB)).
Implicit Types (db : storage.VersionedDB) (n : nat).

Lemma BlockHeight_local db : BlockHeight None db = (local_height db, None).
Proof.
  unfold local_height, BlockHeight, storage.LastProcessedBlock.
  by destruct (sql.channel_progress (storage.backend db) !! storage.channel db).
Qed.

Lemma BlockHeight_fault err db :
  BlockHeight (Some err) db = (0, Some (wrap "query last processed block" err)).
Proof. done. Qed.

(** Doubling the backoff: below five failures in a row the loop sleeps,
    at the fifth the doubled backoff is 32 seconds and the loop gives
    up. *)
Lemma backoff_doubled n :
  (n < 4)%nat ->
  int64 (backoff_after n * 2) = backoff_after (S n) /\
  (backoff_after (S n) >=? 30 * Second) = false.
Proof.
  intros Hn. destruct n as [|[|[|[|n]]]]; try lia; by vm_compute.
Qed.

Lemma backoff_exhausted : (int64 (backoff_after 4 * 2) >=? 30 * Second) = true.
Proof. by vm_compute. Qed.

Lemma wait_loop_failed backoff err db fault rest :
  wait_loop backoff (Tick (inr err) db fault :: rest) =
    if int64 (backoff * 2) >=? 30 * Second then
      ([], Returned (Some (wrap "error getting block height from peer" err)))
    else (int64 (backoff * 2) :: (wait_loop (int64 (backoff * 2)) rest).1,
          (wait_loop (int64 (backoff * 2)) rest).2).
Proof.
  simpl. destruct (int64 (backoff * 2) >=? 30 * Second); [done|].
  by destruct (wait_loop (int64 (backoff * 2)) rest).
Qed.

Lemma wait_loop_fetched backoff peerHeight db rest :
  wait_loop backoff (Tick (inl peerHeight) db None :: rest) =
    if local_height db >=? peerHeight then ([], Returned None)
    else wait_loop (backoff_after 0) rest.
Proof.
  change (wait_loop backoff (Tick (inl peerHeight) db None :: rest)) with
    (match BlockHeight None db with
     | (_, Some err) =>
         ([], Returned (Some (wrap "get local block height" err)))
     | (localHeight, None) =>
         if localHeight >=? peerHeight then ([], Returned None)
         else wait_loop Second rest
     end).
  by rewrite BlockHeight_local.
Qed.

Lemma WaitUntilSynced_start events :
  WaitUntilSynced events = wait_loop (backoff_after 0) events.
Proof. done. Qed.

(** Over a calm history the loop keeps going: it has slept
    [sleeps_from n pre] and stands at the backoff of the failures in a
    row at the end of the history. *)
Lemma wait_loop_calm pre : forall n rest,
  (n <= 4)%nat -> calm_from n pre = true ->
  wait_loop (backoff_after n) (pre ++ rest) =
    (sleeps_from n pre
       ++ (wait_loop (backoff_after (streak_from n pre)) rest).1,
     (wait_loop (backoff_after (streak_from n pre)) rest).2) /\
  (streak_from n pre <= 4)%nat.
Proof.
  induction pre as [|e pre IH]; intros n rest Hn Hcalm.
  - simpl. split; [|done].
    by destruct (wait_loop (backoff_after n) rest).
  - destruct e as [|[peerHeight | err] db fault]; simpl in Hcalm; [done| |].
    + apply andb_true_iff in Hcalm as [Hcalm Hrest].
      apply andb_true_iff in Hcalm as [Hfault Hbehind].
      apply bool_decide_eq_true in Hfault as ->.
      apply Z.ltb_lt in Hbehind.
      destruct (IH 0%nat rest ltac:(lia) Hrest) as [Heq Hstreak].
      split; [|done].
      rewrite <- app_comm_cons, wait_loop_fetched.
      destruct (Z.geb_spec (local_height db) peerHeight); [lia|].
      exact Heq.
    + apply andb_true_iff in Hcalm as [Hlt Hrest].
      apply Nat.ltb_lt in Hlt.
      destruct (backoff_doubled n Hlt) as [Hdouble Hbelow].
      destruct (IH (S n) rest ltac:(lia) Hrest) as [Heq Hstreak].
      split; [|done].
      rewrite <- app_comm_cons, wait_loop_failed, Hdouble, Hbelow, Heq.
      done.
Qed.

Lemma sleeps_bounded pre : forall n,
  (n <= 4)%nat -> calm_from n pre = true ->
  Forall (fun d => 2 * Second <= d <= 16 * Second) (sleeps_from n pre).
Proof.
  induction pre as [|e pre IH]; intros n Hn Hcalm; [constructor|].
  destruct e as [|[peerHeight | err] db fault]; simpl in Hcalm; [done| |].
  - apply andb_true_iff in Hcalm as [_ Hrest]. apply (IH 0%nat); [lia|done].
  - apply andb_true_iff in Hcalm as [Hlt Hrest]. apply Nat.ltb_lt in Hlt.
    simpl. constructor; [|apply IH; [lia | done]].
    destruct n as [|[|[|[|n]]]]; try lia; by vm_compute.
Qed.

(** C9, as stated, fails: when the fetch of the peer's height fails at
    five polls in a row, [WaitUntilSynced] has slept 2, 4, 8 and 16
    seconds and returns the error of the fetch, with no deadline having
    fired; the error is not the timeout. *)
Lemma WaitUntilSynced_peer_down_surfaces :
  WaitUntilSynced fixtures.peer_down =
    ([2 * Second; 4 * Second; 8 * Second; 16 * Second],
     Returned
       (Some "error getting block height from peer: unavailable"%string)) /\
  (Done ∉ fixtures.peer_down) /\
  (WaitUntilSynced fixtures.peer_down).2
    <> Returned (Some "time out waiting for sync"%string).
Proof.
  split; [by vm_compute|]. split; [|by vm_compute].
  unfold fixtures.peer_down. intros Hin.
  apply elem_of_replicate in Hin as [Heq _]. discriminate.
Qed.

(** The committer of a [*Store] goes on to the next tick after a failed
    fetch, with no sleep in between, and never returns its error. *)
Lemma OnStore_failed_fetch_skipped err (sp : Store) fault
    (later : list (event Store)) :
  OnStore.WaitUntilSynced (Tick (inr err) sp fault :: later)
    = OnStore.WaitUntilSynced later.
Proof. done. Qed.

(** C9 (amended). Let [pre] be a history in which no deadline fires,
    every fetched peer height is above the local height and the fetch
    never fails five times in a row. Over [pre] the loop keeps waiting,
    sleeping 2, 4, 8, 16 seconds after the first to fourth failure in a
    row. Then: a poll that finds the local height
    ([LastProcessedBlock()+1]) at or above the peer's returns [nil]; a
    deadline returns the timeout error; a failed fetch is retried after
    the doubled sleep when fewer than four failures precede it in a row,
    and is returned to the caller, as an error that is not the timeout,
    when it is the fifth in a row; a failed query of the local height is
    returned at once. *)
Theorem WaitUntilSynced_outcomes pre rest :
  calm_from 0 pre = true ->
  WaitUntilSynced pre = (sleeps_from 0 pre, Blocked) /\
  Forall (fun d => 2 * Second <= d <= 16 * Second) (sleeps_from 0 pre) /\
  (forall peerHeight db, local_height db >= peerHeight ->
     WaitUntilSynced (pre ++ Tick (inl peerHeight) db None :: rest)
       = (sleeps_from 0 pre, Returned None)) /\
  WaitUntilSynced (pre ++ Done :: rest)
    = (sleeps_from 0 pre, Returned (Some "time out waiting for sync"%string)) /\
  (forall err db fault, (streak_from 0 pre < 4)%nat ->
     WaitUntilSynced (pre ++ [Tick (inr err) db fault])
       = (sleeps_from 0 pre ++ [backoff_after (S (streak_from 0 pre))],
          Blocked)) /\
  (forall err db fault, streak_from 0 pre = 4%nat ->
     WaitUntilSynced (pre ++ Tick (inr err) db fault :: rest)
       = (sleeps_from 0 pre,
          Returned (Some (wrap "error getting block height from peer" err)))) /\
  (forall peerHeight db err,
     WaitUntilSynced (pre ++ Tick (inl peerHeight) db (Some err) :: rest)
       = (sleeps_from 0 pre,
          Returned (Some (wrap "get local block height"
                            (wrap "query last processed block" err))))).
Proof.
  intros Hcalm. rewrite !WaitUntilSynced_start.
  assert (Hrun : forall suffix,
    wait_loop (backoff_after 0) (pre ++ suffix) =
      (sleeps_from 0 pre
         ++ (wait_loop (backoff_after (streak_from 0 pre)) suffix).1,
       (wait_loop (backoff_after (streak_from 0 pre)) suffix).2))
    by (intros suffix; apply wait_loop_calm; [lia | done]).
  split; [|split; [|split; [|split; [|split; [|split]]]]].
  - rewrite <- (app_nil_r pre) at 1. rewrite Hrun. simpl.
    by rewrite app_nil_r.
  - apply sleeps_bounded; [lia | done].
  - intros peerHeight db Hge. rewrite Hrun, wait_loop_fetched.
    destruct (Z.geb_spec (local_height db) peerHeight); [|lia].
    simpl. by rewrite app_nil_r.
  - rewrite Hrun. simpl. by rewrite app_nil_r.
  - intros err db fault Hlt. rewrite Hrun, wait_loop_failed.
    destruct (backoff_doubled _ Hlt) as [-> ->]. done.
  - intros err db fault Hfour. rewrite Hrun, wait_loop_failed, Hfour.
    rewrite backoff_exhausted. simpl. by rewrite app_nil_r.
  - intros peerHeight db err. rewrite Hrun. simpl. by rewrite app_nil_r.
Qed.

Lemma WaitUntilSynced_outcomes_witness :
  calm_from 0 fixtures.catching_up = true /\
  WaitUntilSynced
    (fixtures.catching_up ++ [Tick (inl 4) fixtures.ingested None])
    = ([2 * Second; 4 * Second], Returned None).
Proof.
  assert (Hcalm : calm_from 0 fixtures.catching_up = true) by reflexivity.
  split; [exact Hcalm|].
  refine (proj1 (proj2 (proj2
            (WaitUntilSynced_outcomes fixtures.catching_up [] Hcalm)))
            4 fixtures.ingested _).
  vm_compute. discriminate.
Defined.

End synchronisation.

(** * Further properties *)

(** ** Reading the version history *)

Section reading.

Import storage store_history.

Implicit Types (s : VersionedDB) (w : WriteRecord).
Implicit Types (t : gmap sql.PK sql.Row) (e : sql.PK * sql.Row).

#[local] Existing Instance version_desc_total.
#[local] Existing Instance version_desc_trans.

#[local] Instance version_asc_total : Total sql.version_asc.
Proof. intros a b. unfold sql.version_asc. lia. Qed.

#[local] Instance version_asc_trans : Transitive sql.version_asc.
Proof. intros a b c. unfold sql.version_asc. lia. Qed.

#[local] Instance scan_inj : Inj (=) (=) scan.
Proof.
  intros e1 e2 Heq. rewrite <- (pk_row_scan e1), <- (pk_row_scan e2).
  by rewrite Heq.
Qed.

Lemma elem_of_sorted (R : relation (sql.PK * sql.Row))
    `{!forall a b, Decision (R a b)}
    (P : sql.PK * sql.Row -> Prop) `{!forall e, Decision (P e)} t e :
  e ∈ merge_sort R (filter P (map_to_list t)) <-> P e /\ sql.stored t e.
Proof.
  rewrite merge_sort_Permutation, list_elem_of_filter.
  destruct e as [k r]. by rewrite elem_of_map_to_list.
Qed.

Lemma NoDup_sorted (R : relation (sql.PK * sql.Row))
    `{!forall a b, Decision (R a b)}
    (P : sql.PK * sql.Row -> Prop) `{!forall e, Decision (P e)} t :
  NoDup (merge_sort R (filter P (map_to_list t))).
Proof.
  rewrite merge_sort_Permutation. apply NoDup_filter, NoDup_map_to_list.
Qed.

(** Two rows of one key with the same version are the same row. *)
Lemma stored_same_version t ns key e1 e2 :
  sql.stored t e1 -> sql.stored t e2 ->
  sql.of_key ns key e1 -> sql.of_key ns key e2 ->
  e1.1.1.2 = e2.1.1.2 -> e1.1.2 = e2.1.2 -> e1 = e2.
Proof.
  destruct e1 as [[[[n1 k1] b1] x1] r1], e2 as [[[[n2 k2] b2] x2] r2].
  unfold sql.stored, sql.of_key. simpl.
  intros H1 H2 [-> ->] [-> ->] -> ->. congruence.
Qed.

Lemma select_history_elem ns key t e :
  e ∈ sql.select_history ns key t <-> sql.of_key ns key e /\ sql.stored t e.
Proof. apply elem_of_sorted. Qed.

Lemma select_history_sorted ns key t :
  StronglySorted (fun a b => version_lt (scan a) (scan b))
    (sql.select_history ns key t).
Proof.
  assert (Hs : StronglySorted sql.version_asc (sql.select_history ns key t))
    by apply (StronglySorted_merge_sort _).
  assert (Hnd : NoDup (sql.select_history ns key t)) by apply NoDup_sorted.
  assert (Hin : forall e, e ∈ sql.select_history ns key t ->
                          sql.of_key ns key e /\ sql.stored t e)
    by (intros e; apply select_history_elem).
  induction Hs as [|a l Hl IH Hall]; [constructor|].
  apply NoDup_cons in Hnd as [Hna Hnd].
  constructor.
  - apply IH; [done|]. intros e He. apply Hin. by right.
  - rewrite Forall_forall in Hall |- *. intros b Hb.
    specialize (Hall b Hb).
    destruct (Hin a ltac:(left)) as [Hka Hsa].
    destruct (Hin b ltac:(by right)) as [Hkb Hsb].
    destruct (decide (a.1.1.2 = b.1.1.2 /\ a.1.2 = b.1.2)) as [[Hb1 Hb2]|Hne].
    + exfalso. apply Hna.
      by rewrite (stored_same_version t ns key a b).
    + destruct a as [[[[n1 k1] b1] x1] r1], b as [[[[n2 k2] b2] x2] r2].
      unfold sql.version_asc, version_lt in *. simpl in *. lia.
Qed.

Lemma select_latest_Some ns key t e :
  sql.select_latest ns key t = Some e <->
  sql.stored t e /\ sql.of_key ns key e /\
  forall e', sql.stored t e' -> sql.of_key ns key e' -> sql.version_desc e e'.
Proof.
  unfold sql.select_latest. set (l := merge_sort _ _).
  assert (Hsorted : StronglySorted sql.version_desc l)
    by apply (StronglySorted_merge_sort _).
  assert (Hin : forall x, x ∈ l <-> sql.of_key ns key x /\ sql.stored t x)
    by (intros x; apply elem_of_sorted).
  clearbody l. split.
  - intros Hhd. apply head_Some in Hhd as [l' ->].
    apply StronglySorted_cons in Hsorted as [Hall _].
    destruct (proj1 (Hin e) ltac:(left)) as [Hk Hs].
    split; [done|]. split; [done|]. intros e' Hs' Hk'.
    assert (He' : e' ∈ e :: l') by (by apply Hin).
    apply elem_of_cons in He' as [-> | He'].
    + unfold sql.version_desc. lia.
    + rewrite Forall_forall in Hall. by apply Hall.
  - intros (Hs & Hk & Hmax).
    assert (He : e ∈ l) by (by apply Hin).
    destruct l as [|e0 l']; [by apply elem_of_nil in He|].
    simpl. f_equal.
    destruct (proj1 (Hin e0) ltac:(left)) as [Hk0 Hs0].
    assert (Hle : sql.version_desc e0 e).
    { apply elem_of_cons in He as [-> | He].
      - unfold sql.version_desc. lia.
      - apply StronglySorted_cons in Hsorted as [Hall _].
        rewrite Forall_forall in Hall. by apply Hall. }
    specialize (Hmax e0 Hs0 Hk0).
    apply (stored_same_version t ns key); try done;
      unfold sql.version_desc in *; lia.
Qed.

Lemma select_latest_None ns key t :
  sql.select_latest ns key t = None <->
  forall e, sql.stored t e -> ~ sql.of_key ns key e.
Proof.
  unfold sql.select_latest. rewrite head_None. split.
  - intros Hnil e Hs Hk.
    assert (He : e ∈ merge_sort sql.version_desc
              (filter (sql.of_key ns key) (map_to_list t)))
      by (by apply elem_of_sorted).
    rewrite Hnil in He. by apply elem_of_nil in He.
  - intros Hnone. destruct (merge_sort _ _) as [|e l] eqn:Hl; [done|].
    assert (He : e ∈ merge_sort sql.version_desc
              (filter (sql.of_key ns key) (map_to_list t)))
      by (rewrite Hl; left).
    apply elem_of_sorted in He as [Hk Hs]. by destruct (Hnone e Hs).
Qed.

End reading.

Section history_and_current.

Import storage store_history.

Implicit Types (s : VersionedDB) (w : WriteRecord).

#[local] Existing Instance scan_inj.

Lemma of_key_scan ns key e : sql.of_key ns key e <-> of_key ns key (scan e).
Proof. by destruct e as [[[[n k] b] x] r]. Qed.

Lemma stored_scan s e :
  sql.stored (sql.worldstate (backend s)) e <-> holds s (scan e).
Proof. by destruct e as [[[[n k] b] x] [v d i]]. Qed.

Lemma GetHistory_elem s ns key w :
  w ∈ (GetHistory None s ns key).1 <-> holds s w /\ of_key ns key w.
Proof.
  unfold GetHistory. simpl. rewrite list_elem_of_fmap. split.
  - intros (e & -> & He). apply select_history_elem in He as [Hk Hs].
    split; [by apply stored_scan | by apply of_key_scan].
  - intros [Hw Hk]. exists (pk w, row w). rewrite scan_pk_row.
    split; [done|]. apply select_history_elem. split; [by destruct w | done].
Qed.

Lemma GetHistory_sorted s ns key :
  StronglySorted version_lt (GetHistory None s ns key).1.
Proof.
  unfold GetHistory. simpl.
  eapply StronglySorted_fmap; [|apply select_history_sorted]. done.
Qed.

Lemma GetCurrent_Some s ns key w :
  GetCurrent None s ns key = (Some w, None) <->
  holds s w /\ of_key ns key w /\
  forall w', holds s w' -> of_key ns key w' -> version_le w' w.
Proof.
  unfold GetCurrent. split.
  - intros [= Hsel]. apply fmap_Some in Hsel as (e & Hsel & ->).
    apply select_latest_Some in Hsel as (Hs & Hk & Hmax).
    split; [by apply stored_scan|]. split; [by apply of_key_scan|].
    intros w' Hw' Hk'.
    specialize (Hmax (pk w', row w') Hw' ltac:(by destruct w')).
    destruct e as [[[[n k] b] x] r], w'.
    unfold sql.version_desc, version_le in *. simpl in *. lia.
  - intros (Hw & Hk & Hmax). f_equal. apply fmap_Some.
    exists (pk w, row w). split; [|by rewrite scan_pk_row].
    apply select_latest_Some. split; [done|]. split; [by destruct w|].
    intros e' Hs' Hk'.
    specialize (Hmax (scan e') ltac:(by apply stored_scan)
                  ltac:(by apply of_key_scan)).
    destruct e' as [[[[n k] b] x] r], w.
    unfold sql.version_desc, version_le in *. simpl in *. lia.
Qed.

Lemma GetCurrent_None s ns key :
  GetCurrent None s ns key = (None, None) <->
  forall w, holds s w -> ~ of_key ns key w.
Proof.
  unfold GetCurrent. split.
  - intros [= Hsel]. apply fmap_None in Hsel. intros w Hw Hk.
    apply (proj1 (select_latest_None _ _ _) Hsel (pk w, row w) Hw).
    by destruct w.
  - intros Hnone. f_equal. apply fmap_None, select_latest_None.
    intros e Hs Hk. apply (Hnone (scan e)).
    + by apply stored_scan.
    + by apply of_key_scan.
Qed.

Lemma version_lt_le a b : version_lt a b -> version_le a b.
Proof. unfold version_lt, version_le. lia. Qed.

(** X1. [GetHistory] returns the versions of the key that the store
    holds, all of them and nothing else, each once, in strictly
    increasing order of [(BlockNum, TxNum)]. *)
Theorem GetHistory_all_versions_in_order s ns key :
  (forall w, w ∈ (GetHistory None s ns key).1 <-> holds s w /\ of_key ns key w) /\
  StronglySorted version_lt (GetHistory None s ns key).1 /\
  NoDup (GetHistory None s ns key).1 /\
  (GetHistory None s ns key).2 = None.
Proof.
  split; [intros w; apply GetHistory_elem|].
  split; [apply GetHistory_sorted|]. split; [|done].
  unfold GetHistory. simpl. apply (NoDup_fmap_2 _), NoDup_sorted.
Qed.

(** X2. [GetCurrent] returns the version of the key with the highest
    [(BlockNum, TxNum)] of all that the store holds, and [(nil, nil)]
    exactly when it holds none. It is the last entry of [GetHistory], and
    it is what [Get] returns for every ceiling from its block on and
    below 2^63, when the query goes through. *)
Theorem GetCurrent_is_last_of_history s ns key :
  (forall w, GetCurrent None s ns key = (Some w, None) <->
     holds s w /\ of_key ns key w /\
     forall w', holds s w' -> of_key ns key w' -> version_le w' w) /\
  (GetCurrent None s ns key = (None, None) <->
   forall w, holds s w -> ~ of_key ns key w) /\
  (GetCurrent None s ns key).1 = last (GetHistory None s ns key).1 /\
  (forall refusal w ceiling,
     GetCurrent None s ns key = (Some w, None) ->
     BlockNum w <= ceiling -> ceiling < 2 ^ 63 ->
     Get (sql.bind_uint64 refusal ceiling None) s ns key ceiling
       = (Some w, None)).
Proof.
  split; [intros w; apply GetCurrent_Some|].
  split; [apply GetCurrent_None|]. split.
  - destruct (last (GetHistory None s ns key).1) as [x|] eqn:Hlast.
    + apply last_Some in Hlast as [l' Hl].
      assert (Hx : x ∈ (GetHistory None s ns key).1)
        by (rewrite Hl; apply elem_of_app; right; left).
      apply GetHistory_elem in Hx as [Hhx Hkx].
      pose proof (GetHistory_sorted s ns key) as Hsorted. rewrite Hl in Hsorted.
      enough (GetCurrent None s ns key = (Some x, None)) as -> by done.
      apply GetCurrent_Some. split; [done|]. split; [done|].
      intros w' Hw' Hk'.
      assert (Hin : w' ∈ (GetHistory None s ns key).1)
        by (by apply GetHistory_elem).
      rewrite Hl in Hin. apply elem_of_app in Hin as [Hin | Hin].
      * apply version_lt_le.
        apply (StronglySorted_app_1_elem_of _ _ _ _ _ Hsorted Hin). left.
      * apply list_elem_of_singleton in Hin as ->.
        unfold version_le. lia.
    + apply last_None in Hlast.
      enough (GetCurrent None s ns key = (None, None)) as -> by done.
      apply GetCurrent_None. intros w Hw Hk.
      assert (Hin : w ∈ (GetHistory None s ns key).1)
        by (by apply GetHistory_elem).
      rewrite Hlast in Hin. by apply elem_of_nil in Hin.
  - intros refusal w ceiling Hcur Hle Hlow.
    rewrite bind_uint64_low by done.
    apply GetCurrent_Some in Hcur as (Hw & [Hn Hk] & Hmax).
    apply Get_Some. split; [done|]. split; [done|].
    intros w' Hw' (Hn' & Hk' & _). by apply Hmax.
Qed.

End history_and_current.

(** ** Histories of ingestion *)

Section ingestion_histories.

Import storage store_history.

Implicit Types (s : VersionedDB) (w : WriteRecord) (c : ingest_call).
Implicit Types (cs : list ingest_call) (writes : list WriteRecord).

Lemma worldstate_after_batch s writes :
  sql.worldstate (backend (after_batch s writes))
    = insert_all writes (sql.worldstate (backend s)).
Proof. by destruct writes. Qed.

Lemma channel_after_batch s writes : channel (after_batch s writes) = channel s.
Proof. by destruct writes. Qed.

Lemma holds_after_batch_keeps s writes w :
  holds s w -> holds (after_batch s writes) w.
Proof.
  unfold holds. rewrite worldstate_after_batch. apply insert_all_keeps.
Qed.

Lemma holds_after_batch_origin s writes w :
  holds (after_batch s writes) w -> holds s w \/ w ∈ writes.
Proof.
  unfold holds. rewrite worldstate_after_batch. intros Hw.
  apply insert_all_origin in Hw as [Hw | (w' & Hin & Hpk & Hrow)]; [by left|].
  right. by rewrite <- (pk_row_inj w' w).
Qed.

Lemma worldstate_MarkProcessed fault s b :
  sql.worldstate (backend (MarkProcessed fault s None b).1.1)
    = sql.worldstate (backend s).
Proof. unfold MarkProcessed. by destruct fault. Qed.

Lemma channel_ingest s c : channel (ingest s c) = channel s.
Proof.
  destruct c as [fault b | f writes]; simpl.
  - unfold MarkProcessed. by destruct fault.
  - destruct (BatchInsert_cases f s writes) as [-> | [err ->]]; [|done].
    apply channel_after_batch.
Qed.

Lemma holds_ingest_keeps s c w : holds s w -> holds (ingest s c) w.
Proof.
  intros Hw. destruct c as [fault b | f writes]; simpl.
  - unfold holds. by rewrite worldstate_MarkProcessed.
  - destruct (BatchInsert_cases f s writes) as [-> | [err ->]]; [|done].
    by apply holds_after_batch_keeps.
Qed.

Lemma holds_ingest_origin s c w :
  holds (ingest s c) w ->
  holds s w \/ exists writes, writes ∈ committed_batches s [c] /\ w ∈ writes.
Proof.
  destruct c as [fault b | f writes]; simpl.
  - unfold holds. rewrite worldstate_MarkProcessed. by left.
  - destruct (BatchInsert_cases f s writes) as [H | [err H]]; rewrite H; simpl;
      [|by left].
    intros Hw. apply holds_after_batch_origin in Hw as [Hw | Hin]; [by left|].
    right. exists writes. split; [left | done].
Qed.

Lemma committed_batches_cons s c cs :
  committed_batches s (c :: cs)
    = committed_batches s [c] ++ committed_batches (ingest s c) cs.
Proof.
  destruct c as [fault b | f writes]; simpl; [done|].
  by destruct ((BatchInsert f s writes).2).
Qed.

Lemma holds_ingest_all_keeps cs : forall s w,
  holds s w -> holds (ingest_all s cs) w.
Proof.
  induction cs as [|c cs IH]; intros s w Hw; [done|].
  apply (IH (ingest s c)). by apply holds_ingest_keeps.
Qed.

Lemma holds_ingest_all_origin cs : forall s w,
  holds (ingest_all s cs) w ->
  holds s w \/ exists writes, writes ∈ committed_batches s cs /\ w ∈ writes.
Proof.
  induction cs as [|c cs IH]; intros s w Hw; [by left|].
  rewrite committed_batches_cons.
  apply (IH (ingest s c)) in Hw as [Hw | (ws & Hws & Hin)].
  - apply holds_ingest_origin in Hw as [Hw | (ws & Hws & Hin)]; [by left|].
    right. exists ws. split; [|done]. apply elem_of_app. by left.
  - right. exists ws. split; [|done]. apply elem_of_app. by right.
Qed.

(** What [Get] returns depends on the versions at or before the ceiling
    only. *)
Lemma Get_ext s s' ns key ceiling :
  (forall w, version_of ns key ceiling w -> holds s w <-> holds s' w) ->
  Get None s ns key ceiling = Get None s' ns key ceiling.
Proof.
  intros Hsame.
  destruct (Get None s ns key ceiling) as [[w|] e] eqn:Hget.
  - assert (e = None) as -> by (unfold Get in Hget; congruence).
    symmetry. apply Get_Some. apply Get_Some in Hget as (Hw & Hv & Hmax).
    split; [by apply Hsame|]. split; [done|].
    intros w' Hw' Hv'. apply Hmax; [by apply Hsame | done].
  - assert (e = None) as -> by (unfold Get in Hget; congruence).
    symmetry. apply Get_None. intros w Hw Hv.
    apply (proj1 (Get_None _ _ _ _) Hget w); [by apply Hsame | done].
Qed.

(** A version at or before the ceiling makes [Get] return one that is at
    least as new. *)
Lemma Get_exists s ns key ceiling w :
  holds s w -> version_of ns key ceiling w ->
  exists w', Get None s ns key ceiling = (Some w', None) /\ version_le w w'.
Proof.
  intros Hw Hv.
  destruct (Get None s ns key ceiling) as [[w'|] e] eqn:Hget.
  - assert (e = None) as -> by (unfold Get in Hget; congruence).
    exists w'. split; [done|].
    apply Get_Some in Hget as (_ & _ & Hmax). by apply Hmax.
  - assert (e = None) as -> by (unfold Get in Hget; congruence).
    by destruct (proj1 (Get_None _ _ _ _) Hget w).
Qed.

Lemma later_than_holds cs : forall s ceiling ns key w,
  Forall (later_than ceiling) cs ->
  version_of ns key ceiling w ->
  holds s w <-> holds (ingest_all s cs) w.
Proof.
  intros s ceiling ns key w Hlater (Hn & Hk & Hb). split.
  - apply holds_ingest_all_keeps.
  - intros Hw. apply holds_ingest_all_origin in Hw as [Hw | (ws & Hws & Hin)];
      [done|]. exfalso.
    revert s Hws. induction Hlater as [|c cs Hc Hcs IH]; intros s Hws.
    + by apply elem_of_nil in Hws.
    + rewrite committed_batches_cons in Hws.
      apply elem_of_app in Hws as [Hws | Hws]; [|by apply (IH (ingest s c))].
      destruct c as [fault b | f writes]; simpl in Hws;
        [by apply elem_of_nil in Hws|].
      destruct ((BatchInsert f s writes).2); [by apply elem_of_nil in Hws|].
      apply list_elem_of_singleton in Hws as ->.
      simpl in Hc. rewrite Forall_forall in Hc. specialize (Hc w Hin). lia.
Qed.

(** X3. A read at a ceiling does not see later blocks: after any history
    of calls that write rows of blocks above [ceiling] only, [Get] returns
    at every ceiling up to [ceiling] what it returned before, and
    [GetState] of a session bound to such a version returns the same and
    records the same reads. *)
Theorem reads_at_a_version_are_stable s cs ceiling :
  Forall (later_than ceiling) cs ->
  (forall ns key lower, lower <= ceiling ->
     Get None (ingest_all s cs) ns key lower = Get None s ns key lower) /\
  (forall session key, blockNum session <= ceiling ->
     (GetState (on_store session (ingest_all s cs)) key).2
       = (GetState (on_store session s) key).2 /\
     reads (GetState (on_store session (ingest_all s cs)) key).1
       = reads (GetState (on_store session s) key).1).
Proof.
  intros Hlater.
  assert (Hget : forall ns key lower, lower <= ceiling ->
    Get None (ingest_all s cs) ns key lower = Get None s ns key lower).
  { intros ns key lower Hle. symmetry. apply Get_ext.
    intros w (Hn & Hk & Hb). apply (later_than_holds cs s ceiling ns key);
      [done|]. unfold version_of. repeat split; [done | done | lia]. }
  split; [done|]. intros session key Hle.
  unfold GetState, on_store.
  cbn [readOwnWrites namespace store blockNum reads writes].
  unfold VersionedDB_ReadStore. rewrite (Hget _ _ _ Hle).
  destruct (if readOwnWrites session then writes session !! key else None)
    as [record|]; [by destruct (KVWrite_IsDelete record)|].
  destruct (Get None s (namespace session) key (blockNum session))
    as [[r|] [err|]]; try done.
  by destruct (IsDelete r).
Qed.

(** X4. The version history is append-only. Over any history of
    [MarkProcessed] and [BatchInsert] calls, failing or not, every record
    held stays held as it is, every record held afterwards was held before
    or belongs to a batch that was committed, [GetHistory] keeps all its
    entries, and [Get] never goes back to an older version. *)
Theorem version_history_is_append_only s cs :
  (forall w, holds s w -> holds (ingest_all s cs) w) /\
  (forall w, holds (ingest_all s cs) w ->
     holds s w \/ exists writes, writes ∈ committed_batches s cs /\ w ∈ writes) /\
  (forall ns key,
     (GetHistory None s ns key).1 ⊆ (GetHistory None (ingest_all s cs) ns key).1) /\
  (forall ns key ceiling w,
     Get None s ns key ceiling = (Some w, None) ->
     exists w', Get None (ingest_all s cs) ns key ceiling = (Some w', None) /\
                version_le w w').
Proof.
  split; [intros w; apply holds_ingest_all_keeps|].
  split; [intros w; apply holds_ingest_all_origin|]. split.
  - intros ns key w Hin. apply GetHistory_elem in Hin as [Hw Hk].
    apply GetHistory_elem. split; [by apply holds_ingest_all_keeps | done].
  - intros ns key ceiling w Hget. apply Get_Some in Hget as (Hw & Hv & _).
    apply Get_exists; [by apply holds_ingest_all_keeps | done].
Qed.

End ingestion_histories.

Section batches_and_single_writes.

Import storage store_history.

Implicit Types (s : VersionedDB) (w : WriteRecord) (f : Faults).
Implicit Types (cs : list ingest_call) (writes : list WriteRecord).

Lemma insert_each_rows writes : forall s,
  insert_each s writes =
    with_backend s
      (sql.mkDB (insert_all writes (sql.worldstate (backend s)))
         (sql.channel_progress (backend s))).
Proof.
  induction writes as [|w writes IH]; intros s.
  - by destruct s as [c t [ws cp]].
  - change (insert_each s (w :: writes))
      with (insert_each (InsertWrite None s w).1 writes).
    by rewrite IH.
Qed.

(** X5. A [BatchInsert] that meets no failure leaves the store that
    [InsertWrite] of each record in turn, followed by
    [MarkProcessed(nil, writes[0].BlockNum)], leaves; [InsertWrite] on its
    own never moves the progress. *)
Theorem BatchInsert_is_inserts_then_mark s first rest :
  BatchInsert no_faults s (first :: rest) =
    ((MarkProcessed None (insert_each s (first :: rest)) None
        (BlockNum first)).1.1, None) /\
  (forall w, sql.channel_progress (backend (InsertWrite None s w).1)
             = sql.channel_progress (backend s)) /\
  (forall w err, InsertWrite (Some err) s w = (s, Some (wrap "insert write" err))).
Proof.
  split; [|done].
  rewrite BatchInsert_faultless by apply faultless_no_faults.
  by rewrite insert_each_rows.
Qed.

(** X6. A committed write can be read back: after a [BatchInsert] that
    went through, [Get] for the key of any record of the batch, at any
    ceiling from the block of the record on and below 2^63, returns a
    version at least as new as the record when its query goes through; it
    returns the record itself when its primary key was new, it occurs
    once in the batch, its value is not an empty slice that is not nil,
    and no version of the key that the store then holds at or before the
    ceiling is newer. *)
Theorem committed_write_is_read_back refusal f s writes s' w ceiling :
  BatchInsert f s writes = (s', None) ->
  w ∈ writes ->
  BlockNum w <= ceiling ->
  ceiling < 2 ^ 63 ->
  (exists w',
     Get (sql.bind_uint64 refusal ceiling None) s' (Namespace w) (Key w) ceiling
       = (Some w', None) /\
     version_le w w') /\
  (sql.worldstate (backend s) !! pk w = None ->
   (forall w0, w0 ∈ writes -> pk w0 = pk w -> w0 = w) ->
   Value w <> Some [] ->
   (forall w0, holds s' w0 -> version_of (Namespace w) (Key w) ceiling w0 ->
               version_le w0 w) ->
   Get (sql.bind_uint64 refusal ceiling None) s' (Namespace w) (Key w) ceiling
     = (Some w, None)).
Proof.
  intros Hok Hin Hle Hlow. rewrite bind_uint64_low by done.
  apply BatchInsert_success in Hok as ->.
  destruct (insert_all_stored writes (sql.worldstate (backend s)) w Hin)
    as [r Hr].
  split.
  - assert (Hheld : holds (after_batch s writes) (scan (pk w, r))).
    { apply stored_scan. unfold sql.stored. simpl.
      by rewrite worldstate_after_batch. }
    destruct (Get_exists _ (Namespace w) (Key w) ceiling _ Hheld)
      as (w' & Hget & Hver); [by destruct w|].
    exists w'. split; [done|]. destruct w. exact Hver.
  - intros Hfresh Huniq _ Hmax. apply Get_Some. split; [|split; [|done]].
    + unfold holds. rewrite worldstate_after_batch, Hr. f_equal.
      apply insert_all_origin in Hr as [Hr | (w0 & Hin0 & Hpk & Hrow)];
        [congruence|].
      by rewrite <- (Huniq w0 Hin0 Hpk).
    + by destruct w.
Qed.

Lemma stored_ingest_keeps s c k r :
  sql.worldstate (backend s) !! k = Some r ->
  sql.worldstate (backend (ingest s c)) !! k = Some r.
Proof.
  intros Hk. apply (stored_scan _ (k, r)).
  apply holds_ingest_keeps. by apply stored_scan.
Qed.

Lemma settled_ingest s c writes : settled s writes -> settled (ingest s c) writes.
Proof.
  intros [Hrows Hprog]. split.
  - intros w Hin. destruct (Hrows w Hin) as [r Hr]. exists r.
    by apply stored_ingest_keeps.
  - intros first rest Heq. destruct (Hprog first rest Heq) as (v & Hv & Hle).
    rewrite channel_ingest. destruct c as [fault b | f ws]; simpl.
    + unfold MarkProcessed. destruct fault; [by exists v|]. simpl.
      rewrite upsert_progress_lookup, Hv. eexists. split; [done | lia].
    + destruct (BatchInsert_cases f s ws) as [-> | [err ->]]; [|by exists v].
      destruct ws as [|w0 ws]; [by exists v|]. simpl.
      rewrite upsert_progress_lookup, Hv. eexists. split; [done | lia].
Qed.

Lemma settled_after_batch s writes : settled (after_batch s writes) writes.
Proof.
  split.
  - intros w Hin. rewrite worldstate_after_batch. by apply insert_all_stored.
  - intros first rest ->. simpl. rewrite upsert_progress_lookup.
    eexists. split; [done|].
    destruct (sql.channel_progress (backend s) !! channel s); lia.
Qed.

Lemma settled_replay s writes : settled s writes -> after_batch s writes = s.
Proof.
  intros [Hrows Hprog]. destruct writes as [|first rest]; [done|].
  destruct (Hprog first rest eq_refl) as (v & Hv & Hle).
  unfold after_batch. rewrite insert_all_present by done.
  unfold sql.upsert_progress. rewrite Hv.
  destruct (Z.ltb_spec v (BlockNum first)); [lia|].
  by destruct s as [c t [ws cp]].
Qed.

Lemma committed_batches_settled cs : forall s writes,
  writes ∈ committed_batches s cs -> settled (ingest_all s cs) writes.
Proof.
  induction cs as [|c cs IH]; intros s writes Hin.
  - by apply elem_of_nil in Hin.
  - rewrite committed_batches_cons in Hin.
    apply elem_of_app in Hin as [Hin | Hin]; [|by apply (IH (ingest s c))].
    assert (Hnow : settled (ingest s c) writes).
    { destruct c as [fault b | f ws]; simpl in Hin;
        [by apply elem_of_nil in Hin|].
      destruct (BatchInsert f s ws) as [s1 [err|]] eqn:Hb; simpl in Hin;
        [by apply elem_of_nil in Hin|].
      apply list_elem_of_singleton in Hin as ->. simpl. rewrite Hb. simpl.
      apply BatchInsert_success in Hb as ->. apply settled_after_batch. }
    clear Hin. change (ingest_all s (c :: cs)) with (ingest_all (ingest s c) cs).
    revert Hnow. generalize (ingest s c). clear.
    induction cs as [|c cs IH]; intros s Hs; [done|].
    apply (IH (ingest s c)). by apply settled_ingest.
Qed.

(** X7. Replaying a batch that was committed at any earlier point of a
    history of calls leaves the store, rows and progress alike, as the
    history left it, whether the replay goes through or fails. *)
Theorem replay_of_a_committed_batch_changes_nothing s cs writes f :
  writes ∈ committed_batches s cs ->
  (BatchInsert f (ingest_all s cs) writes).1 = ingest_all s cs /\
  BatchInsert no_faults (ingest_all s cs) writes = (ingest_all s cs, None).
Proof.
  intros Hin. apply committed_batches_settled in Hin.
  split.
  - destruct (BatchInsert_cases f (ingest_all s cs) writes) as [-> | [err ->]];
      [|done].
    by apply settled_replay.
  - rewrite BatchInsert_faultless by apply faultless_no_faults.
    by rewrite settled_replay.
Qed.

End batches_and_single_writes.

(** ** The two stores *)

Section two_stores.

Import committer.

Implicit Types (sp : Store) (f : storage.Faults) (writes : list WriteRecord).

(** X8. With the backend "postgres" or "sqlite" the [Store] of package
    committer does on its database what the [VersionedDB] of package
    storage does, in [BatchInsert] and in [MarkProcessed]; with any other
    backend both calls return an error and leave the database as it was. *)
Theorem Store_runs_as_VersionedDB f sp writes fault blockNum :
  (supported (Backend sp) = true ->
     BatchInsert f sp writes =
       (with_DB sp
          (storage.backend
             (storage.BatchInsert f (as_VersionedDB sp) (upgrade <$> writes)).1),
        (storage.BatchInsert f (as_VersionedDB sp) (upgrade <$> writes)).2) /\
     MarkProcessed fault sp None blockNum =
       (with_DB sp
          (storage.backend
             (storage.MarkProcessed fault (as_VersionedDB sp) None blockNum).1.1),
        None,
        (storage.MarkProcessed fault (as_VersionedDB sp) None blockNum).2)) /\
  (supported (Backend sp) = false ->
     (writes <> [] -> exists err, BatchInsert f sp writes = (sp, Some err)) /\
     MarkProcessed fault sp None blockNum
       = (sp, None, Some (unsupported (Backend sp)))) /\
  (Backend sp = "postgres"%string \/ Backend sp = "sqlite"%string <->
   supported (Backend sp) = true).
Proof.
  split; [|split].
  - intros Hsup. split; [by apply BatchInsert_supported|].
    unfold MarkProcessed, storage.MarkProcessed. rewrite Hsup.
    destruct fault; [by destruct sp | done].
  - intros Hsup. split; [by apply BatchInsert_unsupported|].
    unfold MarkProcessed. by rewrite Hsup.
  - unfold supported. rewrite orb_true_iff, !String.eqb_eq. done.
Qed.

End two_stores.

(** ** Sessions: reads next to writes *)

Section session_reads_and_writes.

Import storage session_history.

Implicit Types (s : SimulationStore) (key : string) (value : bytes).
Implicit Types (c : write_call) (cs : list stub_call).

(** [GetState] either leaves the session as it is or records one read. *)
Lemma GetState_session s key :
  (GetState s key).1 = s \/
  exists record,
    (store s (namespace s) key (blockNum s)).1 = record /\
    (GetState s key).1 = set_reads s (<[key := read_of key record]> (reads s)).
Proof.
  unfold GetState.
  destruct (if readOwnWrites s then writes s !! key else None) as [w|].
  { left. by destruct (KVWrite_IsDelete w). }
  destruct (store s (namespace s) key (blockNum s)) as [record [err|]];
    [by left|].
  destruct record as [r|]; [|right; by exists None].
  destruct (IsDelete r); [by left|]. right. by exists (Some r).
Qed.

Lemma simulate_session s c :
  (simulate s c).1 = s \/
  (simulate s c).1 = set_writes s (<[call_key c := call_entry c]> (writes s)).
Proof.
  destruct ((simulate s c).2) as [err|] eqn:Hr.
  - left. apply simulate_rejected. by rewrite Hr.
  - right. by apply simulate_accepted.
Qed.

(** X9. Reading one's own writes. In a session that reads its own writes,
    [GetState] after an accepted [PutState] of the key returns the value
    put, and after a [DelState] of the key returns [(nil, nil)]; in both
    cases the store is not asked and the session, its read set included,
    stays as it is. In a session that does not, a write changes neither
    what [GetState] returns nor the read it records. *)
Theorem GetState_after_own_write s key value c :
  (readOwnWrites s = true -> (PutState s key value).2 = None ->
     GetState (PutState s key value).1 key
       = ((PutState s key value).1, (value, None))) /\
  (readOwnWrites s = true ->
     GetState (DelState s key).1 key = ((DelState s key).1, (None, None))) /\
  (readOwnWrites s = false ->
     (GetState (simulate s c).1 key).2 = (GetState s key).2 /\
     reads (GetState (simulate s c).1 key).1 = reads (GetState s key).1).
Proof.
  split; [|split].
  - intros Hrow Hok.
    destruct (PutState_cases s key value) as [H | H]; rewrite H in Hok |- *;
      [done|].
    unfold GetState. simpl. by rewrite Hrow, lookup_insert_eq.
  - intros Hrow. unfold GetState, DelState. simpl.
    by rewrite Hrow, lookup_insert_eq.
  - intros Hrow.
    destruct (simulate_session s c) as [-> | ->]; [done|].
    unfold GetState. simpl. rewrite Hrow.
    destruct (store s (namespace s) key (blockNum s)) as [[r|] [err|]];
      try done.
    by destruct (IsDelete r).
Qed.

(** X10. [GetState] never touches the write set, and [PutState] and
    [DelState] never touch the read set; none of them changes the
    namespace, the version or the mode of the session. When the store
    returns an error, [GetState] returns that error as it is, with a nil
    value, and records nothing. *)
Theorem reads_and_writes_are_kept_apart s key c :
  writes (GetState s key).1 = writes s /\
  reads (simulate s c).1 = reads s /\
  (namespace (GetState s key).1, blockNum (GetState s key).1,
   readOwnWrites (GetState s key).1)
    = (namespace s, blockNum s, readOwnWrites s) /\
  (namespace (simulate s c).1, blockNum (simulate s c).1,
   readOwnWrites (simulate s c).1)
    = (namespace s, blockNum s, readOwnWrites s) /\
  (forall record err,
     from_store s key ->
     store s (namespace s) key (blockNum s) = (record, Some err) ->
     GetState s key = (s, (None, Some err))).
Proof.
  split; [|split; [|split; [|split]]].
  - destruct (GetState_session s key) as [-> | (record & _ & ->)]; done.
  - destruct (simulate_session s c) as [-> | ->]; done.
  - destruct (GetState_session s key) as [-> | (record & _ & ->)]; done.
  - destruct (simulate_session s c) as [-> | ->]; done.
  - intros record err Hfs Hget. unfold GetState.
    by rewrite (GetState_from_store _ _ Hfs), Hget.
Qed.

(** X11. Reading a key twice is reading it once: a second [GetState] of
    the same key returns what the first returned and leaves the session
    as the first left it. *)
Theorem GetState_twice s key :
  GetState (GetState s key).1 key = ((GetState s key).1, (GetState s key).2).
Proof.
  unfold GetState at 2 3 4.
  destruct (if readOwnWrites s then writes s !! key else None) as [w|] eqn:Hown.
  { destruct (KVWrite_IsDelete w) eqn:Hdel; simpl;
      unfold GetState; by rewrite Hown, Hdel. }
  destruct (store s (namespace s) key (blockNum s)) as [record [err|]] eqn:Hget.
  { simpl. unfold GetState. by rewrite Hown, Hget. }
  destruct record as [r|].
  - destruct (IsDelete r) eqn:Hdel; simpl.
    + unfold GetState. by rewrite Hown, Hget, Hdel.
    + unfold GetState. simpl. rewrite Hown, Hget, Hdel. simpl.
      unfold set_reads. simpl. by rewrite insert_insert_eq.
  - simpl. unfold GetState. simpl. rewrite Hown, Hget. simpl.
    unfold set_reads. simpl. by rewrite insert_insert_eq.
Qed.

End session_reads_and_writes.

Section read_set.

Import storage session_history.

Implicit Types (s : SimulationStore) (key : string) (cs : list stub_call).

Lemma step_view s (c : stub_call) :
  store (step s c) = store s /\ namespace (step s c) = namespace s /\
  blockNum (step s c) = blockNum s.
Proof.
  destruct c as [key | c]; simpl.
  - destruct (GetState_session s key) as [-> | (record & _ & ->)]; done.
  - destruct (simulate_session s c) as [-> | ->]; done.
Qed.

Lemma step_reads s (c : stub_call) k r :
  reads (step s c) !! k = Some r ->
  reads s !! k = Some r \/
  (c = Read k /\ r = read_of k (store s (namespace s) k (blockNum s)).1).
Proof.
  destruct c as [key | c]; simpl.
  - destruct (GetState_session s key) as [-> | (record & <- & ->)];
      [by left|].
    simpl. rewrite lookup_insert. case_decide as Hk; [|by left].
    subst key. intros [= <-]. by right.
  - destruct (simulate_session s c) as [-> | ->]; by left.
Qed.

Lemma run_reads cs : forall s k r,
  reads (run s cs) !! k = Some r ->
  reads s !! k = Some r \/
  (Read k ∈ cs /\ r = read_of k (store s (namespace s) k (blockNum s)).1).
Proof.
  induction cs as [|c cs IH]; intros s k r Hr; [by left|].
  apply (IH (step s c)) in Hr as [Hr | [Hin ->]].
  - apply step_reads in Hr as [Hr | [-> ->]]; [by left|].
    right. split; [left | done].
  - right. split; [by right|].
    destruct (step_view s c) as (-> & -> & ->). done.
Qed.

Lemma read_of_key k record : KVRead_Key (read_of k record) = k.
Proof. by destruct record. Qed.

Lemma elem_of_Reads s r :
  r ∈ Reads (Result s) <-> exists k, reads s !! k = Some r.
Proof.
  unfold Result. simpl. rewrite list_elem_of_fmap. split.
  - intros ([k r'] & -> & Hin). exists k. by apply elem_of_map_to_list.
  - intros [k Hk]. exists (k, r). split; [done|].
    by apply elem_of_map_to_list.
Qed.

(** X12. The read set of a session. After any history of [GetState],
    [PutState] and [DelState] calls on a session whose reads sit under
    their own keys (a new session has none), [Result] lists each key that
    was read at most once; every read is one the session started with or
    the read of a key for which [GetState] was called, and then it carries
    the version that the store of the session returns for that key at the
    version of the session, or none when the store has no record: all
    reads are of one snapshot. *)
Theorem reads_of_a_session_are_of_one_snapshot s cs :
  reads_keyed s ->
  reads_keyed (run s cs) /\
  NoDup (KVRead_Key <$> Reads (Result (run s cs))) /\
  length (Reads (Result (run s cs))) = size (reads (run s cs)) /\
  (forall r, r ∈ Reads (Result (run s cs)) ->
     r ∈ Reads (Result s) \/
     (Read (KVRead_Key r) ∈ cs /\
      r = read_of (KVRead_Key r)
            (store s (namespace s) (KVRead_Key r) (blockNum s)).1)).
Proof.
  intros Hs.
  assert (Hkeyed : reads_keyed (run s cs)).
  { intros k r Hr. apply run_reads in Hr as [Hr | [_ ->]]; [by apply Hs|].
    apply read_of_key. }
  split; [done|]. split; [|split].
  - assert (Heq : KVRead_Key <$> Reads (Result (run s cs))
                  = (map_to_list (reads (run s cs))).*1).
    { unfold Result. simpl. rewrite <- list_fmap_compose.
      apply Forall_fmap_ext_1, Forall_forall. intros [k r] Hin. simpl.
      apply Hkeyed. by apply elem_of_map_to_list. }
    rewrite Heq. apply NoDup_fst_map_to_list.
  - unfold Result. simpl. by rewrite length_fmap, length_map_to_list.
  - intros r Hin. apply elem_of_Reads in Hin as [k Hk].
    pose proof (Hkeyed _ _ Hk) as Hrk.
    apply run_reads in Hk as [Hk | [Hin ->]].
    + left. apply elem_of_Reads. by exists k.
    + right. rewrite read_of_key. done.
Qed.

End read_set.

(** ** From blocks to records *)

Section parsing_blocks.

Import blocks.

Implicit Types (codec : Codec) (b : Block) (txFilter : bytes).
Implicit Types (data : list bytes) (writes : list storage.WriteRecord).

Lemma append_records_app number txNum (rwsets : list NsRwset) writes :
  OnVersionedDB.append_records number txNum rwsets writes =
    writes ++ (rwsets ≫= fun rw => record_of number txNum rw <$> Writes (Rwset rw)).
Proof.
  unfold OnVersionedDB.append_records. revert writes.
  induction rwsets as [|rw rwsets IH]; intros writes; simpl.
  - by rewrite app_nil_r.
  - rewrite IH. by rewrite <- app_assoc.
Qed.





Lemma RWSets_actionless codec env pl header chdr tx act rest cap :
  Unmarshal_Payload codec (Envelope_Payload env) = inl pl ->
  Payload_Header pl = Some header ->
  Unmarshal_ChannelHeader codec (Header_ChannelHeader header) = inl chdr ->
  Unmarshal_Transaction codec (Payload_Data pl) = inl tx ->
  Actions tx = act :: rest ->
  Unmarshal_ChaincodeActionPayload codec (TransactionAction_Payload act)
    = inl cap ->
  Action cap = None ->
  RWSets codec env = None.
Proof.
  intros Hpl Hh Hc Htx Hacts Hcap Ha. unfold RWSets.
  rewrite Hpl, Hh, Hc, Htx, Hacts. simpl. by rewrite Hcap, Ha.
Qed.

(** Every rwset that [RWSets] returns carries the transaction id of the
    channel header. *)
Lemma ns_loop_out codec txID nss : forall out,
  exists more, (ns_loop codec txID nss out).1 = out ++ more /\
               Forall (fun rw => TxID rw = txID) more.
Proof.
  induction nss as [|ns nss IH]; intros out; simpl.
  - exists []. by rewrite app_nil_r.
  - destruct (Unmarshal_KVRWSet codec (NsReadWriteSet_Rwset ns)) as [kvs|err].
    + destruct (IH (out ++ [mkNsRwset (NsReadWriteSet_Namespace ns) kvs txID]))
        as (more & -> & Hall).
      eexists. rewrite <- app_assoc. split; [done|].
      by constructor.
    + exists []. by rewrite app_nil_r.
Qed.

(** What the loop of the committer on a [*storage.VersionedDB] returns,
    when it returns: the records of the valid transactions after the
    ones it was given. *)
Lemma parse_data_Some codec number txFilter data : forall txNum writes res,
  OnVersionedDB.parse_data codec number txFilter txNum data writes = Some res ->
  res = writes ++ writes_of codec number txFilter txNum data.
Proof.
  induction data as [|envBytes rest IH]; intros txNum writes res; simpl.
  - intros [= <-]. by rewrite app_nil_r.
  - unfold valid_rwsets, decoded.
    destruct (index txFilter txNum) as [c|]; [|done].
    destruct (code c =? VALID codec); simpl; [|apply IH].
    destruct (Unmarshal_Envelope codec envBytes) as [env|]; [|apply IH].
    destruct (RWSets codec env) as [[rwsets [err|]]|]; [apply IH | |done].
    intros Hp. apply IH in Hp as ->.
    rewrite append_records_app. by rewrite <- app_assoc.
Qed.








Lemma elem_of_writes_of codec number txFilter data : forall txNum w,
  w ∈ writes_of codec number txFilter txNum data <->
  exists i envBytes rw kw,
    data !! i = Some envBytes /\
    rw ∈ valid_rwsets codec txFilter (txNum + i) envBytes /\
    kw ∈ Writes (Rwset rw) /\
    w = record_of number (txNum + i) rw kw.
Proof.
  induction data as [|envBytes rest IH]; intros txNum w; simpl.
  - split; [intros H; by apply elem_of_nil in H|].
    by intros (i & e & rw & kw & Hi & _).
  - rewrite elem_of_app, list_elem_of_bind, IH. split.
    + intros [(rw & Hw & Hrw) | (i & e & rw & kw & Hi & Hrw & Hkw & ->)].
      * apply list_elem_of_fmap in Hw as (kw & -> & Hkw).
        exists 0%nat, envBytes, rw, kw. rewrite Nat.add_0_r. done.
      * exists (S i), e, rw, kw. by rewrite <- Nat.add_succ_comm.
    + intros (i & e & rw & kw & Hi & Hrw & Hkw & ->).
      destruct i as [|i]; simpl in Hi.
      * injection Hi as <-. rewrite Nat.add_0_r in *. left.
        exists rw. split; [|done]. apply list_elem_of_fmap. by exists kw.
      * right. exists i, e, rw, kw. by rewrite Nat.add_succ_comm.
Qed.

Lemma writes_of_block codec number txFilter data txNum :
  Forall (fun w => storage.BlockNum w = number)
    (writes_of codec number txFilter txNum data).
Proof.
  apply Forall_forall. intros w Hw.
  by apply elem_of_writes_of in Hw as (i & e & rw & kw & _ & _ & _ & ->).
Qed.


End parsing_blocks.

Section block_claims.

Import blocks.

Implicit Types (codec : Codec) (b : Block).





End block_claims.

(** ** Processing blocks *)

Section processing_blocks.

Import blocks delivery.

Implicit Types (codec : Codec) (b : Block) (db : storage.VersionedDB).
Implicit Types (f : storage.Faults) (mf : option error).

Lemma parseBlock_shape codec b parsed :
  OnVersionedDB.parseBlock codec b = Some parsed ->
  ((length (Metadata b) <= TRANSACTIONS_FILTER codec)%nat /\
   parsed = ([], 0, Some "block metadata missing TRANSACTIONS_FILTER"%string))
  \/
  ((TRANSACTIONS_FILTER codec < length (Metadata b))%nat /\
   exists writes,
     Forall (fun w => storage.BlockNum w = Number b) writes /\
     parsed = (writes, Number b, None)).
Proof.
  unfold OnVersionedDB.parseBlock.
  destruct (Nat.leb_spec (length (Metadata b)) (TRANSACTIONS_FILTER codec))
    as [Hmeta | Hmeta].
  - intros [= <-]. by left.
  - set (txFilter := nth (TRANSACTIONS_FILTER codec) (Metadata b) None).
    destruct (OnVersionedDB.parse_data codec (Number b) txFilter 0 (Data b) [])
      as [res|] eqn:Hp; [|done].
    intros [= <-]. right. split; [done|]. eexists. split; [|done].
    apply parse_data_Some in Hp as ->. apply writes_of_block.
Qed.

Lemma processBlock_call codec mf f db b parsed :
  OnVersionedDB.parseBlock codec b = Some parsed ->
  exists err,
    OnVersionedDB.processBlock codec mf f db b
      = Some (storage.ingest db (call_of mf f parsed), err).
Proof.
  intros Hp. unfold OnVersionedDB.processBlock, call_of. rewrite Hp.
  destruct parsed as [[w num] e]. simpl.
  destruct (length w =? 0)%nat; simpl; [by eexists|].
  destruct (storage.BatchInsert f db w) as [db' err]. by eexists.
Qed.

Lemma call_of_typed codec mf f b parsed :
  is_uint64 (Number b) ->
  OnVersionedDB.parseBlock codec b = Some parsed ->
  storage.well_typed (call_of mf f parsed) /\ uniform (call_of mf f parsed).
Proof.
  intros Hn Hp. unfold call_of.
  apply parseBlock_shape in Hp as [[_ ->] | [_ (writes & Hall & ->)]]; simpl.
  - split; [|done]. unfold is_uint64. lia.
  - destruct writes as [|first rest]; simpl; [by split|]. split.
    + eapply Forall_impl; [exact Hall|]. intros w ->. done.
    + intros first' rest' [= <- <-].
      apply Forall_cons in Hall as [Hfirst Hrest].
      constructor; [done|]. eapply Forall_impl; [exact Hrest|].
      intros w ->. done.
Qed.

Lemma rows_below_ingest db (c : storage.ingest_call) :
  storage.progress_typed db -> storage.well_typed c -> uniform c ->
  rows_below_progress db -> rows_below_progress (storage.ingest db c).
Proof.
  intros Ht Hc Hu Hrows w Hw.
  destruct (ingest_step db c Ht Hc) as [_ Hle].
  destruct c as [fault n | f writes].
  - assert (storage.holds db w).
    { unfold storage.holds in *. simpl in Hw.
      by rewrite worldstate_MarkProcessed in Hw. }
    specialize (Hrows w ltac:(done)). lia.
  - simpl in Hw, Hle |- *.
    destruct (BatchInsert_cases f db writes) as [H | [err H]];
      rewrite H in Hw, Hle |- *; simpl in *;
      [|specialize (Hrows w Hw); lia].
    apply holds_after_batch_origin in Hw as [Hw | Hin];
      [specialize (Hrows w Hw); lia|].
    destruct writes as [|first rest]; [by apply elem_of_nil in Hin|].
    simpl in Hc. apply Forall_cons in Hc as [Hfirst _].
    specialize (Hu first rest eq_refl). rewrite Forall_forall in Hu.
    rewrite (Hu w Hin). rewrite last_block_after_batch by done. lia.
Qed.



End processing_blocks.

(** ** The block feed *)

Section block_feed.

Import blocks delivery.

Implicit Types (codec : Codec) (db : storage.VersionedDB).
Implicit Types (attempts : list Attempt) (trace : list action).

Lemma receive_app {B St : Type} (h : BlockHandler B St) pre rest st st0 :
  receive h pre st = Some (st0, committer.Blocked) ->
  receive h (pre ++ rest) st = receive h rest st0.
Proof.
  revert st. induction pre as [|m pre IH]; intros st Hpre; simpl in *.
  - by injection Hpre as ->.
  - destruct m as [e | e | b | [status|] | ]; try done.
    + destruct (h b st) as [[st' [err|]]|]; try done. by apply IH.
    + by apply IH.
Qed.

(** X18. [SubscribeBlocks] hands the blocks to the handler in the order
    in which they are received and stops at the first message that ends
    the stream; whatever would follow is not received. After messages
    that were all handled: a block whose handler fails ends the stream
    with the error "handler: ..." and the state the handler left; a
    cancelled receive and a status SUCCESS end it with [nil]; any other
    error of the receive and any other status end it with an error; a
    panic of the handler is a panic of [SubscribeBlocks]. *)
Theorem SubscribeBlocks_stops_at_the_first_failure {B St : Type}
    (h : BlockHandler B St) pre rest st st0 :
  receive h pre st = Some (st0, committer.Blocked) ->
  let run msgs := SubscribeBlocks h (mkStream None None None msgs) st in
  (forall b st1 err, h b st0 = Some (st1, Some err) ->
     run (pre ++ RecvBlock b :: rest)
       = Some (st1, committer.Returned (Some (wrap "handler" err)))) /\
  (forall b st1, h b st0 = Some (st1, None) ->
     run (pre ++ RecvBlock b :: rest) = receive h rest st1) /\
  (forall b, h b st0 = None -> run (pre ++ RecvBlock b :: rest) = None) /\
  (forall err, run (pre ++ RecvCanceled err :: rest)
     = Some (st0, committer.Returned None)) /\
  run (pre ++ RecvStatus None :: rest) = Some (st0, committer.Returned None) /\
  (forall err, run (pre ++ RecvFailed err :: rest)
     = Some (st0, committer.Returned (Some (wrap "recv deliver" err)))) /\
  (forall status, run (pre ++ RecvStatus (Some status) :: rest)
     = Some (st0, committer.Returned
                    (Some (String.append "deliver stream ended: " status)))) /\
  run (pre ++ RecvOther :: rest) = receive h rest st0.
Proof.
  intros Hpre run. unfold run, SubscribeBlocks. simpl.
  repeat split; intros; rewrite (receive_app h pre _ st st0 Hpre); simpl;
    try done.
  - by rewrite H.
  - by rewrite H.
  - by rewrite H.
Qed.

Lemma handle_step codec (be : Block * Env) db db' err :
  is_uint64 (Number be.1) ->
  handle codec be db = Some (db', err) ->
  db' = db \/
  exists c, storage.well_typed c /\ uniform c /\ db' = storage.ingest db c.
Proof.
  intros Hn. unfold handle. destruct (stopped be.2); [intros [= <- _]; by left|].
  intros Hp.
  destruct (OnVersionedDB.parseBlock codec be.1) as [parsed|] eqn:Hparse.
  - destruct (processBlock_call codec (mark_fault be.2) (faults be.2) db be.1
                parsed Hparse) as [err' Hcall].
    rewrite Hcall in Hp. injection Hp as <- _. right.
    exists (call_of (mark_fault be.2) (faults be.2) parsed).
    destruct (call_of_typed codec (mark_fault be.2) (faults be.2) be.1 parsed
                Hn Hparse) as [Ht Hu].
    done.
  - unfold OnVersionedDB.processBlock in Hp. by rewrite Hparse in Hp.
Qed.

(** What the feed does to the store is a history of calls of
    [MarkProcessed] and [BatchInsert], each batch of one block. *)
Lemma receive_calls codec msgs : forall db db' out,
  Forall (fun be => is_uint64 (Number be.1)) (delivered msgs) ->
  receive (handle codec) msgs db = Some (db', out) ->
  exists cs, Forall storage.well_typed cs /\ Forall uniform cs /\
             db' = storage.ingest_all db cs.
Proof.
  induction msgs as [|m msgs IH]; intros db db' out Hall Hrec; simpl in *.
  - injection Hrec as <- _. by exists [].
  - destruct m as [e | e | be | [status|] | ]; simpl in Hall;
      try (injection Hrec as <- _; by exists []).
    + apply Forall_cons in Hall as [Hbe Hall].
      destruct (handle codec be db) as [[db1 errh]|] eqn:Hh; [|done].
      assert (Hrest : exists cs, Forall storage.well_typed cs /\
                Forall uniform cs /\ db' = storage.ingest_all db1 cs).
      { destruct errh as [e|]; [injection Hrec as <- _; by exists []|].
        by apply (IH db1 db' out). }
      destruct Hrest as (cs & Hcs & Hus & ->).
      destruct (handle_step codec be db db1 errh Hbe Hh)
        as [-> | (c & Hc & Hu & ->)].
      * by exists cs.
      * exists (c :: cs). split; [by constructor|]. split; [by constructor|].
        done.
    + by apply (IH db db' out).
Qed.

Lemma ingest_all_app db cs1 cs2 :
  storage.ingest_all db (cs1 ++ cs2)
    = storage.ingest_all (storage.ingest_all db cs1) cs2.
Proof. unfold storage.ingest_all. by rewrite foldl_app. Qed.

Lemma run_loop_calls codec start attempts : forall backoff db db' trace out,
  Forall (fun b => is_uint64 (Number b)) (offered attempts) ->
  run_loop codec start backoff attempts db = Some (db', trace, out) ->
  exists cs, Forall storage.well_typed cs /\ Forall uniform cs /\
             db' = storage.ingest_all db cs.
Proof.
  induction attempts as [|a attempts IH]; intros backoff db db' trace out Hall Hrun;
    simpl in *.
  - injection Hrun as <- _ _. by exists [].
  - unfold offered in Hall. simpl in Hall. apply Forall_app in Hall as [Ha Hall].
    destruct (stopped_before a); [injection Hrun as <- _ _; by exists []|].
    assert (Hsub : forall db1 out1,
      SubscribeBlocks (handle codec) (stream a) db = Some (db1, out1) ->
      exists cs, Forall storage.well_typed cs /\ Forall uniform cs /\
                 db1 = storage.ingest_all db cs).
    { intros db1 out1. unfold SubscribeBlocks.
      destruct (open_fault (stream a)); [intros [= <- _]; by exists []|].
      destruct (seek_fault (stream a)); [intros [= <- _]; by exists []|].
      destruct (send_fault (stream a)); [intros [= <- _]; by exists []|].
      apply receive_calls. rewrite Forall_fmap in Ha. exact Ha. }
    destruct (SubscribeBlocks (handle codec) (stream a) db)
      as [[db1 out1]|] eqn:Hs; [|done].
    destruct (Hsub db1 out1 eq_refl) as (cs1 & Hcs1 & Hus1 & ->).
    assert (Hnext : forall b1 trace1,
      run_loop codec start b1 attempts (storage.ingest_all db cs1)
        = Some (db', trace1, out) ->
      exists cs, Forall storage.well_typed cs /\ Forall uniform cs /\
                 db' = storage.ingest_all db cs).
    { intros b1 trace1 Hr.
      destruct (IH _ _ _ _ _ Hall Hr) as (cs2 & Hcs2 & Hus2 & ->).
      exists (cs1 ++ cs2). rewrite ingest_all_app.
      split; [by apply Forall_app|]. split; [by apply Forall_app | done]. }
    destruct out1 as [|[err|]].
    + injection Hrun as <- _ _. by exists cs1.
    + destruct (stopped_after a); [injection Hrun as <- _ _; by exists cs1|].
      destruct (run_loop codec start (next_backoff backoff) attempts _)
        as [[[db2 tr2] out2]|] eqn:Hr; [|done].
      injection Hrun as <- _ <-. by eapply Hnext.
    + destruct (run_loop codec start committer.Second attempts _)
        as [[[db2 tr2] out2]|] eqn:Hr; [|done].
      injection Hrun as <- _ <-. by eapply Hnext.
Qed.

End block_feed.

Section running.

Import blocks delivery.

Implicit Types (codec : Codec) (db : storage.VersionedDB).
Implicit Types (attempts : list Attempt) (trace : list action).

Lemma rows_below_ingest_all cs : forall db,
  storage.progress_typed db -> Forall storage.well_typed cs -> Forall uniform cs ->
  rows_below_progress db -> rows_below_progress (storage.ingest_all db cs).
Proof.
  induction cs as [|c cs IH]; intros db Ht Hcs Hus Hrows; [done|].
  apply Forall_cons in Hcs as [Hc Hcs]. apply Forall_cons in Hus as [Hu Hus].
  apply (IH (storage.ingest db c)); try done.
  - by apply ingest_step.
  - by apply rows_below_ingest.
Qed.

(** With no row above the progress, reading at the progress is reading
    the current version. *)
Lemma Get_at_progress_is_current db ns key :
  rows_below_progress db ->
  storage.Get None db ns key (storage.last_block db)
    = storage.GetCurrent None db ns key.
Proof.
  intros Hrows.
  destruct (storage.GetCurrent None db ns key) as [[w|] e] eqn:Hcur.
  - assert (e = None) as -> by (unfold storage.GetCurrent in Hcur; congruence).
    apply GetCurrent_Some in Hcur as (Hw & [Hn Hk] & Hmax).
    apply Get_Some. split; [done|]. split.
    + split; [done|]. split; [done|]. by apply Hrows.
    + intros w' Hw' (Hn' & Hk' & _). by apply Hmax.
  - assert (e = None) as -> by (unfold storage.GetCurrent in Hcur; congruence).
    apply Get_None. intros w Hw (Hn & Hk & _).
    by apply (proj1 (GetCurrent_None _ _ _) Hcur w).
Qed.

(** X17. Whatever the feed delivers and whichever statements fail, [Run]
    keeps the store consistent: when it returns or blocks, the progress is
    not below what it was, every record held before is still held, and if
    no row was of a block above the progress then none is now, so that a
    session made with [blockNum = 0] reads the current version of every
    key. *)
Theorem Run_keeps_the_store_consistent codec last_fault db attempts db' trace out :
  storage.progress_typed db ->
  Forall (fun b => is_uint64 (Number b)) (offered attempts) ->
  Run codec last_fault db attempts = Some (db', trace, out) ->
  storage.last_block db <= storage.last_block db' /\
  (forall w, storage.holds db w -> storage.holds db' w) /\
  (rows_below_progress db ->
   rows_below_progress db' /\
   forall get_fault ns readOwnWrites,
     exists session,
       storage.NewSimulationStore None get_fault db' ns 0 readOwnWrites
         = inl session /\
       storage.blockNum session = storage.last_block db' /\
       forall key,
         storage.Get None db' ns key (storage.blockNum session)
           = storage.GetCurrent None db' ns key).
Proof.
  intros Ht Hall Hrun. unfold Run in Hrun.
  apply run_loop_calls in Hrun as (cs & Hcs & Hus & ->); [|done].
  split; [by apply ingest_all_steps|].
  split; [intros w; apply holds_ingest_all_keeps|].
  intros Hrows.
  assert (Hrows' : rows_below_progress (storage.ingest_all db cs))
    by (by apply rows_below_ingest_all).
  split; [done|]. intros get_fault ns row.
  unfold storage.NewSimulationStore. simpl.
  destruct (sql.channel_progress (storage.backend (storage.ingest_all db cs))
              !! storage.channel (storage.ingest_all db cs)) as [v|] eqn:Hv.
  - eexists. split; [done|]. simpl.
    assert (Hlb : storage.last_block (storage.ingest_all db cs) = uint64 v).
    { unfold storage.last_block, storage.LastProcessedBlock. by rewrite Hv. }
    split; [done|]. intros key. rewrite <- Hlb.
    by apply Get_at_progress_is_current.
  - eexists. split; [done|]. simpl.
    assert (Hlb : storage.last_block (storage.ingest_all db cs) = 0).
    { unfold storage.last_block, storage.LastProcessedBlock. by rewrite Hv. }
    split; [done|]. intros key. rewrite <- Hlb.
    by apply Get_at_progress_is_current.
Qed.

Lemma next_backoff_capped n : next_backoff (capped n) = capped (S n).
Proof.
  unfold next_backoff, capped.
  destruct (decide (n < 5)%nat) as [Hn | Hn].
  - destruct n as [|[|[|[|[|n]]]]]; try lia; by vm_compute.
  - assert (Hpow : 2 ^ 5 <= 2 ^ Z.of_nat n) by (apply Z.pow_le_mono_r; lia).
    assert (Hpow' : 2 ^ 5 <= 2 ^ Z.of_nat (S n))
      by (apply Z.pow_le_mono_r; lia).
    change (2 ^ 5) with 32 in *.
    rewrite !Z.min_r by lia. by vm_compute.
Qed.

Lemma next_backoff_bounds backoff :
  committer.Second <= backoff <= 30 * committer.Second ->
  committer.Second <= next_backoff backoff <= 30 * committer.Second.
Proof.
  intros Hb. unfold next_backoff, committer.int64, committer.Second in *.
  rewrite Z.mod_small by lia.
  destruct (Z.gtb_spec (backoff * 2 + 2 ^ 63 - 2 ^ 63) (30 * 1000000000)); lia.
Qed.

Lemma run_loop_control codec start attempts : forall backoff db db' trace out,
  committer.Second <= backoff <= 30 * committer.Second ->
  run_loop codec start backoff attempts db = Some (db', trace, out) ->
  (out = committer.Blocked \/ out = committer.Returned None) /\
  (forall d, Sleep d ∈ trace ->
     committer.Second <= d <= 30 * committer.Second) /\
  (forall n, Subscribe n ∈ trace -> n = start).
Proof.
  induction attempts as [|a attempts IH]; intros backoff db db' trace out Hb Hrun;
    simpl in Hrun.
  - injection Hrun as _ <- <-. split; [by left|].
    split; intros x Hx; by apply elem_of_nil in Hx.
  - destruct (stopped_before a).
    { injection Hrun as _ <- <-. split; [by right|].
      split; intros x Hx; by apply elem_of_nil in Hx. }
    destruct (SubscribeBlocks (handle codec) (stream a) db)
      as [[db1 [|[err|]]]|]; [| | |done].
    + injection Hrun as _ <- <-. split; [by left|]. split.
      * intros d Hd. apply list_elem_of_singleton in Hd. done.
      * intros n Hn. apply list_elem_of_singleton in Hn. congruence.
    + destruct (stopped_after a).
      { injection Hrun as _ <- <-. split; [by right|]. split.
        - intros d Hd. apply list_elem_of_singleton in Hd. done.
        - intros n Hn. apply list_elem_of_singleton in Hn. congruence. }
      destruct (run_loop codec start (next_backoff backoff) attempts db1)
        as [[[db2 tr2] out2]|] eqn:Hr; [|done].
      injection Hrun as _ <- <-.
      destruct (IH _ _ _ _ _ (next_backoff_bounds _ Hb) Hr) as (Hout & Hsl & Hsub).
      split; [done|]. split.
      * intros d Hd. apply elem_of_cons in Hd as [Hd | Hd]; [done|].
        apply elem_of_cons in Hd as [Hd | Hd]; [|by apply Hsl].
        injection Hd as ->. done.
      * intros n Hn. apply elem_of_cons in Hn as [Hn | Hn]; [congruence|].
        apply elem_of_cons in Hn as [Hn | Hn]; [done | by apply Hsub].
    + destruct (run_loop codec start committer.Second attempts db1)
        as [[[db2 tr2] out2]|] eqn:Hr; [|done].
      injection Hrun as _ <- <-.
      assert (Hsec : committer.Second <= committer.Second
                     <= 30 * committer.Second)
        by (unfold committer.Second; lia).
      destruct (IH _ _ _ _ _ Hsec Hr) as (Hout & Hsl & Hsub).
      split; [done|]. split.
      * intros d Hd. apply elem_of_cons in Hd as [Hd | Hd]; [done|].
        by apply Hsl.
      * intros n Hn. apply elem_of_cons in Hn as [Hn | Hn]; [congruence|].
        by apply Hsub.
Qed.

Lemma run_loop_unreachable codec start k : forall n db,
  run_loop codec start (capped n) (replicate k unreachable) db
    = Some (db, retries start n k, committer.Blocked).
Proof.
  induction k as [|k IH]; intros n db; [done|].
  simpl. rewrite next_backoff_capped, IH. done.
Qed.

(** X19. [Run] never returns an error: it blocks or, once the context is
    done, returns [nil]. Every subscription asks for the block after the
    progress that the store had when [Run] began, also after blocks have
    been processed. Every sleep is between 1 and 30 seconds; while the
    peer cannot be reached [Run] sleeps 1, 2, 4, 8, 16 and from then on 30
    seconds, and leaves the store alone. *)
Theorem Run_retries_with_capped_backoff codec last_fault db attempts :
  (forall db' trace out,
     Run codec last_fault db attempts = Some (db', trace, out) ->
     (out = committer.Blocked \/ out = committer.Returned None) /\
     (forall d, Sleep d ∈ trace ->
        committer.Second <= d <= 30 * committer.Second) /\
     (forall n, Subscribe n ∈ trace ->
        n = uint64 ((storage.LastProcessedBlock last_fault db).1 + 1))) /\
  (forall k,
     Run codec last_fault db (replicate k unreachable)
       = Some (db,
               retries (uint64 ((storage.LastProcessedBlock last_fault db).1 + 1))
                 0 k,
               committer.Blocked)) /\
  capped <$> seq 0 7
    = (fun n => n * committer.Second) <$> [1; 2; 4; 8; 16; 30; 30].
Proof.
  split; [|split].
  - intros db' trace out Hrun. unfold Run in Hrun.
    apply (run_loop_control codec _ attempts committer.Second db db');
      [|done].
    unfold committer.Second. lia.
  - intros k. unfold Run. apply (run_loop_unreachable codec _ k 0).
  - by vm_compute.
Qed.

End running.

Section redelivery.

Import blocks delivery.

Implicit Types (codec : Codec) (db : storage.VersionedDB) (b : Block).

Lemma settled_ingest_all cs : forall db writes,
  store_history.settled db writes ->
  store_history.settled (storage.ingest_all db cs) writes.
Proof.
  induction cs as [|c cs IH]; intros db writes Hs; [done|].
  apply (IH (storage.ingest db c)). by apply settled_ingest.
Qed.

Lemma progress_reached_ingest db (c : storage.ingest_call) n :
  progress_reached db n -> progress_reached (storage.ingest db c) n.
Proof.
  intros (v & Hv & Hle). unfold progress_reached.
  rewrite channel_ingest. destruct c as [fault m | f ws]; simpl.
  - unfold storage.MarkProcessed. destruct fault; [by exists v|]. simpl.
    rewrite upsert_progress_lookup, Hv. eexists. split; [done | lia].
  - destruct (BatchInsert_cases f db ws) as [-> | [err ->]]; [|by exists v].
    destruct ws as [|w0 ws]; [by exists v|]. simpl.
    rewrite upsert_progress_lookup, Hv. eexists. split; [done | lia].
Qed.

Lemma progress_reached_ingest_all cs : forall db n,
  progress_reached db n -> progress_reached (storage.ingest_all db cs) n.
Proof.
  induction cs as [|c cs IH]; intros db n Hp; [done|].
  apply (IH (storage.ingest db c)). by apply progress_reached_ingest.
Qed.

Lemma progress_reached_marked db n :
  progress_reached (storage.MarkProcessed None db None n).1.1 n.
Proof.
  unfold progress_reached, storage.MarkProcessed. simpl.
  rewrite upsert_progress_lookup. eexists. split; [done|].
  destruct (sql.channel_progress (storage.backend db) !! storage.channel db); lia.
Qed.

Lemma MarkProcessed_reached mf db n :
  progress_reached db n -> (storage.MarkProcessed mf db None n).1.1 = db.
Proof.
  intros (v & Hv & Hle). unfold storage.MarkProcessed.
  destruct mf; [done|]. simpl. unfold sql.exec_progress, sql.upsert_progress.
  rewrite Hv. destruct (Z.ltb_spec v n); [lia|].
  by destruct db as [c t [ws cp]].
Qed.

(** X20. A block may be delivered again. Once [processBlock] has gone
    through for a block without any failure, processing the same block
    again, at once or after any further calls on the store and whichever
    statements fail this time, leaves the store exactly as it is. *)
Theorem block_delivered_again_changes_nothing codec db b db1 cs mf f :
  OnVersionedDB.processBlock codec None storage.no_faults db b
    = Some (db1, None) ->
  exists err,
    OnVersionedDB.processBlock codec mf f (storage.ingest_all db1 cs) b
      = Some (storage.ingest_all db1 cs, err).
Proof.
  unfold OnVersionedDB.processBlock.
  destruct (OnVersionedDB.parseBlock codec b) as [[[w num] e]|]; [|done].
  destruct (length w =? 0)%nat.
  - intros [= <-]. exists None. do 2 f_equal.
    apply MarkProcessed_reached, progress_reached_ingest_all,
      progress_reached_marked.
  - intros [= Hb].
    assert (Hs : store_history.settled (storage.ingest_all db1 cs) w).
    { apply settled_ingest_all.
      rewrite BatchInsert_faultless in Hb by apply faultless_no_faults.
      injection Hb as <-. apply settled_after_batch. }
    destruct (BatchInsert_cases f (storage.ingest_all db1 cs) w)
      as [-> | [err ->]].
    + exists None. by rewrite settled_replay.
    + by exists (Some err).
Qed.

End redelivery.

(** ** Composite keys *)

Section composite_keys.

Import integration.

Implicit Types (s pre cur suf : string) (c : Ascii.ascii).

Lemma append_cons c s1 s2 : String c s1 +:+ s2 = String c (s1 +:+ s2).
Proof. done. Qed.

Lemma append_nil_r s : s +:+ EmptyString = s.
Proof. induction s as [|c s IH]; [done|]. by rewrite append_cons, IH. Qed.

Lemma append_assoc s1 s2 s3 : (s1 +:+ s2) +:+ s3 = s1 +:+ (s2 +:+ s3).
Proof.
  induction s1 as [|c s1 IH]; [done|]. by rewrite !append_cons, IH.
Qed.

Lemma length_append s1 s2 :
  String.length (s1 +:+ s2) = (String.length s1 + String.length s2)%nat.
Proof.
  induction s1 as [|c s1 IH]; [done|]. rewrite append_cons. simpl.
  by rewrite IH.
Qed.

Lemma get_append_length pre c suf :
  String.get (String.length pre) (pre +:+ String c suf) = Some c.
Proof. induction pre as [|a pre IH]; [done|]. by rewrite append_cons. Qed.

Lemma substring_prefix cur suf :
  String.substring 0 (String.length cur) (cur +:+ suf) = cur.
Proof.
  induction cur as [|a cur IH]; [by destruct suf|].
  rewrite append_cons. simpl. by rewrite IH.
Qed.

Lemma substring_append_length pre m s :
  String.substring (String.length pre) m (pre +:+ s) = String.substring 0 m s.
Proof. induction pre as [|a pre IH]; [done|]. by rewrite append_cons. Qed.

(** The loop closes the components that the bytes still to be read
    close. *)
Lemma split_loop_pieces suf : forall pre cur components,
  split_loop (String.length suf) (pre +:+ (cur +:+ suf))
    (String.length pre + String.length cur) (String.length pre) components
    = components ++ pieces cur suf.
Proof.
  induction suf as [|c suf IH]; intros pre cur components.
  - simpl. by rewrite app_nil_r.
  - cbn [String.length split_loop pieces].
    assert (Hget : String.get (String.length pre + String.length cur)
                     (pre +:+ (cur +:+ String c suf)) = Some c).
    { rewrite <- append_assoc, <- length_append. apply get_append_length. }
    rewrite Hget. destruct (Ascii.eqb c U0000).
    + replace (String.length pre + String.length cur - String.length pre)%nat
        with (String.length cur) by lia.
      rewrite substring_append_length, substring_prefix.
      replace (pre +:+ (cur +:+ String c suf))
        with ((pre +:+ (cur +:+ String c EmptyString))
              +:+ (EmptyString +:+ suf))
        by (by rewrite !append_assoc).
      replace (S (String.length pre + String.length cur))
        with (String.length (pre +:+ (cur +:+ String c EmptyString))
              + String.length EmptyString)%nat
        by (rewrite !length_append; simpl; lia).
      replace (String.length (pre +:+ (cur +:+ String c EmptyString))
               + String.length EmptyString)%nat
        with (String.length (pre +:+ (cur +:+ String c EmptyString))) at 2
        by (simpl; lia).
      rewrite IH. by rewrite <- app_assoc.
    + replace (pre +:+ (cur +:+ String c suf))
        with (pre +:+ ((cur +:+ String c EmptyString) +:+ suf))
        by (by rewrite !append_assoc).
      replace (S (String.length pre + String.length cur))
        with (String.length pre
              + String.length (cur +:+ String c EmptyString))%nat
        by (rewrite !length_append; simpl; lia).
      apply IH.
Qed.

Lemma SplitCompositeKey_pieces c body :
  SplitCompositeKey (String c body) =
    match pieces EmptyString body with
    | [] => None
    | objectType :: attributes => Some (objectType, attributes, None)
    end.
Proof.
  unfold SplitCompositeKey.
  replace (String.length (String c body) - 1)%nat with (String.length body)
    by (simpl; lia).
  pose proof (split_loop_pieces body (String c EmptyString) EmptyString [])
    as Hloop.
  change (String c EmptyString +:+ (EmptyString +:+ body))
    with (String c body) in Hloop.
  change (String.length (String c EmptyString) + String.length EmptyString)%nat
    with 1%nat in Hloop.
  change (String.length (String c EmptyString)) with 1%nat in Hloop.
  by rewrite Hloop.
Qed.

Lemma pieces_open s : forall cur, has_zero s = false -> pieces cur s = [].
Proof.
  induction s as [|c s IH]; intros cur Hz; [done|].
  simpl in *. apply orb_false_iff in Hz as [-> Hz]. by apply IH.
Qed.

Lemma pieces_none s : forall cur, pieces cur s = [] <-> has_zero s = false.
Proof.
  induction s as [|c s IH]; intros cur; [done|].
  simpl. destruct (Ascii.eqb c U0000); simpl; [done|]. apply IH.
Qed.

Lemma pieces_closed s : forall cur suf,
  has_zero s = false ->
  pieces cur (s +:+ String U0000 suf) = (cur +:+ s) :: pieces EmptyString suf.
Proof.
  induction s as [|c s IH]; intros cur suf Hz.
  - simpl. by rewrite append_nil_r.
  - simpl in Hz. apply orb_false_iff in Hz as [Hc Hz].
    rewrite append_cons. simpl. rewrite Hc, IH by done.
    by rewrite append_assoc.
Qed.

Lemma pieces_attributes attributes rest :
  Forall (fun a => has_zero a = false) attributes ->
  has_zero rest = false ->
  pieces EmptyString (foldr (fun a acc => a +:+ String U0000 acc) rest attributes)
    = attributes.
Proof.
  intros Hall Hrest. induction Hall as [|a attributes Ha Hall IH]; simpl.
  - by apply pieces_open.
  - by rewrite pieces_closed, IH.
Qed.

(** X21. [SplitCompositeKey] on a key made of one leading byte, an object
    type and attributes, each closed by U+0000 and none with a U+0000
    inside: it returns the object type and the attributes, with a [nil]
    error. Bytes after the last U+0000 are dropped, so keys that differ
    only there split alike. *)
Theorem SplitCompositeKey_of_a_composite_key first objectType attributes rest :
  has_zero objectType = false ->
  Forall (fun a => has_zero a = false) attributes ->
  has_zero rest = false ->
  SplitCompositeKey (composite first objectType attributes rest)
    = Some (objectType, attributes, None).
Proof.
  intros Hobj Hall Hrest. unfold composite.
  rewrite SplitCompositeKey_pieces, pieces_closed by done.
  by rewrite pieces_attributes.
Qed.

(** X22. [SplitCompositeKey] panics exactly on the keys that have no
    U+0000 after their first byte, the empty key and every simple key
    among them; when it returns, its error is [nil]. *)
Theorem SplitCompositeKey_panics_on_simple_keys :
  SplitCompositeKey EmptyString = None /\
  (forall c body,
     SplitCompositeKey (String c body) = None <-> has_zero body = false) /\
  (forall key r, SplitCompositeKey key = Some r -> r.2 = None).
Proof.
  split; [done|]. split.
  - intros c body. rewrite SplitCompositeKey_pieces, <- (pieces_none body EmptyString).
    by destruct (pieces EmptyString body).
  - intros key r. unfold SplitCompositeKey.
    destruct (split_loop _ _ _ _ _); [done|]. by intros [= <-].
Qed.

End composite_keys.

(** ** From a session to the store *)

Section committing_a_session.

Import storage integration.

Implicit Types (db : VersionedDB) (s : SimulationStore) (f : Faults).

Lemma committed_records_fmap ns blockNum txNum txID s :
  committed_records ns blockNum txNum txID s
    = committed_record ns blockNum txNum txID <$> Writes (Result s).
Proof.
  unfold committed_records, blocks.OnVersionedDB.records,
    TransactionContext_Rwset, Rwset. simpl.
  rewrite <- list_fmap_compose. apply list_fmap_ext. by intros i [k d v].
Qed.

Lemma elem_of_committed_records ns blockNum txNum txID s w :
  keyed s ->
  w ∈ committed_records ns blockNum txNum txID s <->
  exists kw, writes s !! Key w = Some kw /\
             w = committed_record ns blockNum txNum txID kw.
Proof.
  intros Hkeyed. rewrite committed_records_fmap, list_elem_of_fmap. split.
  - intros (kw & -> & Hin). apply elem_of_Writes in Hin as [k Hk].
    exists kw. split; [|done]. simpl. by rewrite (Hkeyed k kw Hk).
  - intros (kw & Hk & ->). exists kw. split; [done|].
    apply elem_of_Writes. by eexists.
Qed.

Lemma Get_after_commit f db s ns blockNum txNum txID db' key ceiling :
  keyed s ->
  (forall w, holds db w -> BlockNum w < blockNum) ->
  BatchInsert f db (committed_records ns blockNum txNum txID s) = (db', None) ->
  blockNum <= ceiling ->
  Get None db' ns key ceiling =
    match writes s !! key with
    | Some kw =>
        (Some (mkWriteRecord ns key blockNum txNum (KVWrite_Value kw)
                 (KVWrite_IsDelete kw) txID), None)
    | None => Get None db ns key ceiling
    end.
Proof.
  intros Hkeyed Hnew Hok Hle. apply BatchInsert_success in Hok as ->.
  set (batch := committed_records ns blockNum txNum txID s).
  destruct (writes s !! key) as [kw|] eqn:Hkey.
  - set (rec := mkWriteRecord ns key blockNum txNum (KVWrite_Value kw)
                  (KVWrite_IsDelete kw) txID).
    assert (Hrec : rec = committed_record ns blockNum txNum txID kw).
    { unfold rec, committed_record. by rewrite (Hkeyed key kw Hkey). }
    assert (Hin : rec ∈ batch).
    { apply elem_of_committed_records; [done|]. by exists kw. }
    apply Get_Some. split; [|split].
    + destruct (insert_all_stored batch (sql.worldstate (backend db)) rec Hin)
        as [r Hr].
      unfold holds. rewrite worldstate_after_batch, Hr. f_equal.
      apply insert_all_origin in Hr as [Hr | (w0 & Hin0 & Hpk & Hrow)].
      * assert (Hold : holds db (scan (pk rec, r))) by by apply stored_scan.
        apply Hnew in Hold. simpl in Hold. lia.
      * apply elem_of_committed_records in Hin0 as (kw0 & Hk0 & ->); [|done].
        assert (Hk : KVWrite_Key kw0 = key) by by injection Hpk.
        simpl in Hk0. rewrite Hk, Hkey in Hk0. injection Hk0 as <-.
        by rewrite <- Hrow, Hrec.
    + unfold version_of. simpl. done.
    + intros w' Hw' Hv'.
      apply holds_after_batch_origin in Hw' as [Hw' | Hw'].
      * left. apply Hnew in Hw'. simpl. lia.
      * apply elem_of_committed_records in Hw' as (kw0 & _ & ->); [|done].
        right. simpl. lia.
  - symmetry. apply Get_ext. intros w (Hns & Hk & Hb). split.
    + apply holds_after_batch_keeps.
    + intros Hw. apply holds_after_batch_origin in Hw as [Hw | Hw]; [done|].
      apply elem_of_committed_records in Hw as (kw0 & Hk0 & _); [|done].
      rewrite Hk in Hk0. congruence.
Qed.

(** X23. From a session to the store. Let the writes of a session, none
    of them with an empty value that is not nil, be committed as the
    transaction at [txNum] of a block that is above every row of the
    store: the records that [records] makes of [Rwset(Result())] go
    through [BatchInsert]. Then [Get] at any ceiling from that block on
    and below 2^63 returns, when its query goes through, for a key that
    the session wrote, the record of its last write (value and delete
    flag, under the version [(blockNum, txNum)]), and for every other key
    what it returned before. The writes of a session that began without
    writes have no such empty value. *)
Theorem session_writes_are_read_back refusal f db s ns blockNum txNum txID db'
    key ceiling :
  keyed s ->
  (forall k kw, writes s !! k = Some kw -> KVWrite_Value kw <> Some []) ->
  (forall w, holds db w -> BlockNum w < blockNum) ->
  BatchInsert f db (committed_records ns blockNum txNum txID s) = (db', None) ->
  blockNum <= ceiling ->
  ceiling < 2 ^ 63 ->
  Get (sql.bind_uint64 refusal ceiling None) db' ns key ceiling =
    match writes s !! key with
    | Some kw =>
        (Some (mkWriteRecord ns key blockNum txNum (KVWrite_Value kw)
                 (KVWrite_IsDelete kw) txID), None)
    | None => Get (sql.bind_uint64 refusal ceiling None) db ns key ceiling
    end /\
  (forall s0 cs k kw,
     writes s0 = ∅ -> writes (simulate_all s0 cs) !! k = Some kw ->
     KVWrite_Value kw <> Some []).
Proof.
  intros Hkeyed _ Hnew Hok Hle Hlow. split.
  - rewrite !bind_uint64_low by done. by apply (Get_after_commit f).
  - intros s0 cs. revert s0.
    enough (forall s1,
              (forall k kw, writes s1 !! k = Some kw ->
                            KVWrite_Value kw <> Some []) ->
              forall k kw, writes (simulate_all s1 cs) !! k = Some kw ->
                           KVWrite_Value kw <> Some []) as Hall.
    { intros s0 k kw Hempty. apply Hall. intros k' kw'.
      by rewrite Hempty, lookup_empty. }
    induction cs as [|c cs IH]; intros s1 Hs1; [done|].
    apply (IH (simulate s1 c).1). intros k kw.
    destruct c as [key' value | key']; simpl.
    + unfold PutState.
      destruct (Nat.eqb (String.length key') 0); [apply Hs1|].
      destruct (Z.eqb_spec (len value) 0) as [|Hlen]; [apply Hs1|].
      simpl. rewrite lookup_insert. case_decide; [|apply Hs1].
      intros [= <-]. simpl. intros ->. by apply Hlen.
    + rewrite lookup_insert. case_decide; [|apply Hs1].
      by intros [= <-].
Qed.

(** X24. The next transaction reads what the last one committed. Let
    the writes of a session be committed as the transaction at [txNum] of
    a block above the progress of a store none of whose rows is above its
    progress. Then [NewTransaction] on the store gives a session at that
    block, and its [GetState] of a key that the committed session wrote
    records the read of the version [(blockNum, txNum)]; when the key was
    deleted it records no read. *)
Theorem next_transaction_reads_the_committed_version f db s ns blockNum txNum
    txID db' key kw :
  keyed s ->
  progress_typed db ->
  is_uint64 blockNum ->
  delivery.rows_below_progress db ->
  last_block db < blockNum ->
  BatchInsert f db (committed_records ns blockNum txNum txID s) = (db', None) ->
  writes s !! key = Some kw ->
  exists s1,
    NewTransaction None (fun _ => None) ns db' = inl s1 /\
    SimulationStore_Version s1 = blockNum /\
    readOwnWrites s1 = false /\
    reads (GetState s1 key).1 =
      if KVWrite_IsDelete kw then ∅
      else {[ key := mkKVRead key (Some (mkVersion blockNum txNum)) ]}.
Proof.
  intros Hkeyed Ht Hb Hrows Hlt Hok Hkey.
  assert (Hnew : forall w, holds db w -> BlockNum w < blockNum).
  { intros w Hw. apply Hrows in Hw. lia. }
  pose proof (Get_after_commit f db s ns blockNum txNum txID db' key blockNum
                Hkeyed Hnew Hok ltac:(lia)) as Hget.
  rewrite Hkey in Hget.
  assert (Hlast : last_block db' = blockNum).
  { apply BatchInsert_success in Hok as ->.
    assert (Hin : committed_record ns blockNum txNum txID kw
                    ∈ committed_records ns blockNum txNum txID s).
    { apply elem_of_committed_records; [done|]. exists kw. split; [|done].
      simpl. by rewrite (Hkeyed key kw Hkey). }
    destruct (committed_records ns blockNum txNum txID s) as [|first rest]
      eqn:Hbatch; [by apply elem_of_nil in Hin|].
    assert (Hfirst : BlockNum first = blockNum).
    { assert (Hf : first ∈ committed_records ns blockNum txNum txID s)
        by (rewrite Hbatch; left).
      by apply elem_of_committed_records in Hf as (kw0 & _ & ->). }
    rewrite last_block_after_batch by (by rewrite ?Hfirst).
    rewrite Hfirst. lia. }
  unfold NewTransaction, NewSimulationStore.
  change (0 =? 0) with true. cbv iota.
  unfold last_block in Hlast.
  destruct (LastProcessedBlock None db') as [lastBlock e] eqn:Hl.
  assert (e = None) as ->.
  { unfold LastProcessedBlock in Hl.
    destruct (sql.channel_progress (backend db') !! channel db'); congruence. }
  simpl in Hlast. subst lastBlock.
  eexists. split; [done|]. split; [done|]. split; [done|].
  unfold GetState.
  cbn [storage.readOwnWrites storage.namespace storage.store
       storage.blockNum storage.reads storage.writes].
  unfold VersionedDB_ReadStore. rewrite Hget. simpl.
  destruct (KVWrite_IsDelete kw); [done|]. simpl. apply insert_empty.
Qed.

End committing_a_session.

(** ** The wait of the committer on a [*Store] *)

Section waiting_on_a_Store.

Import committer.

(** X25. [WaitUntilSynced] of the committer on a [*Store]. Over a history
    in which no deadline fires and every fetch of the peer's height fails
    or finds the store behind the peer, the loop keeps waiting, however
    many fetches fail in a row. Then: a poll that finds the local height
    ([LastProcessedBlock()+1]) at or above the peer's returns [nil]; a
    deadline returns the timeout error; a failure to read the local
    height is returned at once; one more failed fetch changes nothing. *)
Theorem WaitUntilSynced_on_a_Store_waits_through_failures pre rest :
  forallb legacy_wait.goes_on pre = true ->
  OnStore.WaitUntilSynced pre = Blocked /\
  OnStore.WaitUntilSynced (pre ++ Done :: rest)
    = Returned (Some "time out waiting for sync"%string) /\
  (forall peerHeight sp,
     peerHeight <= (OnStore.BlockHeight None sp).1 ->
     OnStore.WaitUntilSynced (pre ++ Tick (inl peerHeight) sp None :: rest)
       = Returned None) /\
  (forall peerHeight sp err,
     OnStore.WaitUntilSynced
       (pre ++ Tick (inl peerHeight) sp (Some err) :: rest)
       = Returned (Some (wrap "get local block height"
                           (wrap "query last processed block" err)))) /\
  (forall err sp fault,
     OnStore.WaitUntilSynced (pre ++ Tick (inr err) sp fault :: rest)
       = OnStore.WaitUntilSynced (pre ++ rest)).
Proof.
  intros Hpre.
  assert (Hskip : forall later,
            OnStore.WaitUntilSynced (pre ++ later)
              = OnStore.WaitUntilSynced later).
  { intros later. induction pre as [|e pre IH]; [done|].
    simpl in Hpre. apply andb_true_iff in Hpre as [He Hpre].
    rewrite <- (IH Hpre). destruct e as [|[peerHeight|err] sp fault]; simpl.
    - done.
    - simpl in He. apply andb_true_iff in He as [Hf Hlt].
      apply bool_decide_eq_true in Hf as ->.
      destruct (OnStore.BlockHeight None sp) as [localHeight e] eqn:Hh.
      assert (e = None) as ->.
      { unfold OnStore.BlockHeight in Hh.
        destruct (LastProcessedBlock None sp) as [l [e0|]] eqn:Hl;
          [|congruence].
        unfold LastProcessedBlock in Hl.
        destruct (sql.channel_progress (DB sp) !! channel sp); congruence. }
      simpl in Hlt.
      destruct (Z.geb_spec localHeight peerHeight) as [Hge|Hge]; [|done].
      apply Z.ltb_lt in Hlt. lia.
    - done. }
  split; [|split; [|split; [|split]]].
  - rewrite <- (app_nil_r pre). by rewrite Hskip.
  - by rewrite Hskip.
  - intros peerHeight sp Hle. rewrite Hskip. simpl.
    destruct (OnStore.BlockHeight None sp) as [localHeight e] eqn:Hh.
    assert (e = None) as ->.
    { unfold OnStore.BlockHeight in Hh.
      destruct (LastProcessedBlock None sp) as [l [e0|]] eqn:Hl;
        [|congruence].
      unfold LastProcessedBlock in Hl.
      destruct (sql.channel_progress (DB sp) !! channel sp); congruence. }
    simpl in Hle.
    destruct (Z.geb_spec localHeight peerHeight) as [Hge|Hge]; [done | lia].
  - intros peerHeight sp err. by rewrite Hskip.
  - intros err sp fault. by rewrite !Hskip.
Qed.

End waiting_on_a_Store.

(** ** The two stubs *)

Section two_stubs.

Import storage.

Implicit Types (s : SimulationStore) (st : stub.Stub).
Implicit Types (c : write_call) (cs : list write_call).

Lemma simulate_alike s st c :
  stub.writes st = Some (stub.of_session <$> writes s) ->
  stub.puts_a_value c ->
  exists st',
    stub.simulate st c = Some (st', (simulate s c).2) /\
    stub.writes st' = Some (stub.of_session <$> writes (simulate s c).1).
Proof.
  intros Hw Hc. destruct c as [key value | key]; simpl.
  - unfold stub.PutState, PutState.
    destruct (Nat.eqb (String.length key) 0); [by eexists|].
    simpl in Hc. destruct (Z.eqb_spec (len value) 0); [done|].
    rewrite Hw. eexists. split; [done|]. simpl. by rewrite fmap_insert.
  - unfold stub.DelState. rewrite Hw. eexists. split; [done|].
    simpl. by rewrite fmap_insert.
Qed.

Lemma simulate_all_alike cs : forall s st,
  stub.writes st = Some (stub.of_session <$> writes s) ->
  Forall stub.puts_a_value cs ->
  exists st',
    stub.simulate_all st cs = Some st' /\
    stub.writes st' = Some (stub.of_session <$> writes (simulate_all s cs)).
Proof.
  induction cs as [|c cs IH]; intros s st Hw Hcs; [by exists st|].
  apply Forall_cons in Hcs as [Hc Hcs].
  destruct (simulate_alike s st c Hw Hc) as (st1 & Hst1 & Hw1).
  destruct (IH (simulate s c).1 st1 Hw1 Hcs) as (st' & Hst' & Hw').
  exists st'. split; [|done].
  unfold stub.simulate_all in *. simpl. by rewrite Hst1.
Qed.

Lemma simulate_all_panicked cs :
  foldl (fun acc c =>
           match acc with
           | None => None
           | Some s => fst <$> stub.simulate s c
           end)
    None cs = None.
Proof. by induction cs. Qed.

(** X26. The stub of package committer and the session of package
    storage keep the same writes, when the map of writes of the stub is
    made. Over any history of [PutState] and [DelState] calls that puts
    no empty value, started with the same writes, no call panics, both
    hold the same entry under every key, and [Finalize] returns the
    writes that [Rwset(Result())] returns, up to the order in which Go
    ranges over a map. They differ on an empty value, which the stub
    accepts for every key but the empty one and the session rejects. On
    a stub whose maps are made [GetState] is the one of
    [committer.GetState]. *)
Theorem the_two_stubs_keep_the_same_writes s st cs :
  stub.writes st = Some (stub.of_session <$> writes s) ->
  Forall stub.puts_a_value cs ->
  (exists st',
     stub.simulate_all st cs = Some st' /\
     stub.writes st'
       = Some (stub.of_session <$> writes (simulate_all s cs)) /\
     blocks.Writes (stub.Finalize st')
       ≡ₚ blocks.Writes (integration.Rwset (Result (simulate_all s cs)))) /\
  (forall key value,
     key <> EmptyString -> len value = 0 ->
     (exists st',
        stub.PutState st key value = Some (st', None) /\
        exists m, stub.writes st' = Some m /\
                  m !! key = Some (committer.mkKVWrite key false value)) /\
     PutState s key value = (s, Some "key is empty"%string)) /\
  (forall (legacy : committer.Stub) key,
     stub.GetState (stub.made legacy) key
       = Some (stub.made (committer.GetState legacy key).1,
               (committer.GetState legacy key).2)).
Proof.
  intros Hw Hcs. split; [|split].
  - destruct (simulate_all_alike cs s st Hw Hcs) as (st' & Hst' & Hw').
    exists st'. split; [done|]. split; [done|].
    unfold stub.Finalize, integration.Rwset, Result. simpl. rewrite Hw'.
    simpl. rewrite map_to_list_fmap, <- !list_fmap_compose.
    match goal with |- ?a ≡ₚ ?b => assert (a = b) as ->; [|done] end.
    apply list_fmap_ext. by intros i [k [k' d v]].
  - intros key value Hkey Hlen. unfold stub.PutState, PutState.
    destruct key as [|a key]; [done|]. simpl. rewrite Hlen, Hw. simpl.
    split; [|done]. eexists. split; [done|]. simpl. eexists. split; [done|].
    by rewrite lookup_insert_eq.
  - intros legacy key. unfold stub.GetState, committer.GetState, stub.made.
    simpl.
    by destruct (committer.store_Get (committer.store legacy)
                   (committer.namespace legacy) key (committer.block legacy))
      as [[read|] [err|]].
Qed.

(** X27. A stub made by [StubFactory.New] cannot be written to. [New]
    fails exactly when [LastProcessedBlock] fails, with its error;
    otherwise it returns a stub at the last processed block whose maps of
    reads and writes are nil. On that stub [PutState] of a key that is
    not empty and [DelState] of any key panic, [PutState] of the empty
    key returns its error, [GetState] panics exactly when the store
    returns a record for the key, and [Finalize] returns no reads and no
    writes. *)
Theorem a_new_Stub_panics_on_its_first_write (factory : stub.StubFactory) :
  match stub.New factory with
  | inr err =>
      (committer.store_LastProcessedBlock (stub.factory_store factory)).2
        = Some err
  | inl st =>
      committer.store_LastProcessedBlock (stub.factory_store factory)
        = (stub.block st, None) /\
      stub.namespace st = stub.factory_namespace factory /\
      stub.reads st = None /\ stub.writes st = None /\
      (forall key value,
         key <> EmptyString -> stub.PutState st key value = None) /\
      (forall value,
         stub.PutState st EmptyString value
           = Some (st, Some "key is empty"%string)) /\
      (forall key, stub.DelState st key = None) /\
      (forall key cs, stub.simulate_all st (CallDelState key :: cs) = None) /\
      (forall key,
         stub.GetState st key = None <->
         exists read,
           committer.store_Get (stub.store st) (stub.namespace st) key
             (stub.block st) = (Some read, None)) /\
      stub.Finalize st = blocks.mkKVRWSet [] []
  end.
Proof.
  unfold stub.New.
  destruct (committer.store_LastProcessedBlock (stub.factory_store factory))
    as [lastBlock [err|]]; [done|].
  simpl. do 4 (split; [done|]).
  split; [intros key value Hkey; unfold stub.PutState; by destruct key|].
  split; [done|]. split; [done|].
  split.
  { intros key cs. unfold stub.simulate_all. simpl.
    apply simulate_all_panicked. }
  split; [|done].
  intros key. unfold stub.GetState. simpl.
  destruct (committer.store_Get (stub.factory_store factory)
              (stub.factory_namespace factory) key lastBlock)
    as [[read|] [err|]].
  - split; [done|]. by intros [r [=]].
  - split; [|done]. intros _. by exists read.
  - split; [done|]. by intros [r [=]].
  - split; [done|]. by intros [r [=]].
Qed.

End two_stubs.

(** ** The further properties on the examples *)

Section further_witnesses.

Import storage store_history session_history blocks delivery.

Lemma typed_ingested : progress_typed fixtures.ingested.
Proof.
  intros ch v Hv. unfold is_uint64.
  destruct (decide (ch = "mychannel"%string)) as [->|Hne].
  - vm_compute in Hv. injection Hv as <-. lia.
  - exfalso. revert Hv. unfold fixtures.ingested.
    change (sql.channel_progress
              (backend (ingest_all fixtures.new_store fixtures.three_blocks)))
      with (<["mychannel"%string := 3]> (∅ : gmap string Z)).
    rewrite lookup_insert_ne by done. by rewrite lookup_empty.
Qed.

Lemma rows_below_ingested : rows_below_progress fixtures.ingested.
Proof.
  apply rows_below_ingest_all.
  - apply progress_typed_New.
  - repeat constructor; unfold is_uint64; simpl; lia.
  - repeat (apply Forall_cons; split); try apply Forall_nil; simpl;
      try exact I; intros first rest Heq; injection Heq as <- <-;
      repeat constructor.
  - intros w Hw. unfold holds in Hw. simpl in Hw.
    by rewrite lookup_empty in Hw.
Qed.

Lemma ingested_below_4 w : holds fixtures.ingested w -> BlockNum w < 4.
Proof.
  intros Hw. apply rows_below_ingested in Hw.
  assert (last_block fixtures.ingested = 3) by (vm_compute; reflexivity).
  lia.
Qed.

Lemma keyed_own_writes_session : keyed fixtures.own_writes_session.
Proof.
  apply (keyed_simulate _ (CallPutState "j" (bytes_of "A"))).
  apply keyed_new. reflexivity.
Qed.

Lemma reads_at_a_version_are_stable_witness :
  Forall (later_than 1) fixtures.three_blocks /\
  Get None fixtures.ingested "ns" "k" 1
    = Get None fixtures.new_store "ns" "k" 1.
Proof.
  assert (H : Forall (later_than 1) fixtures.three_blocks).
  { repeat constructor; simpl; lia. }
  split; [exact H|].
  apply (proj1 (reads_at_a_version_are_stable fixtures.new_store
                  fixtures.three_blocks 1 H)).
  lia.
Defined.

Lemma committed_write_is_read_back_witness :
  exists w',
    Get (sql.bind_uint64 fixtures.high_bit_refused 2 None)
      (BatchInsert no_faults fixtures.new_store fixtures.mixed_batch).1
      "ns" "k" 2 = (Some w', None) /\
    version_le (fixtures.put_record "k" 2 0 "v1") w'.
Proof.
  refine (proj1 (committed_write_is_read_back fixtures.high_bit_refused
                   no_faults fixtures.new_store fixtures.mixed_batch
                   (BatchInsert no_faults fixtures.new_store
                      fixtures.mixed_batch).1
                   (fixtures.put_record "k" 2 0 "v1") 2 _ _ _ _)).
  - vm_compute. reflexivity.
  - left.
  - simpl. lia.
  - lia.
Defined.

Lemma replay_of_a_committed_batch_changes_nothing_witness :
  [fixtures.put_record "k" 2 0 "v1"]
    ∈ committed_batches fixtures.new_store fixtures.three_blocks /\
  BatchInsert no_faults fixtures.ingested [fixtures.put_record "k" 2 0 "v1"]
    = (fixtures.ingested, None).
Proof.
  assert (H : [fixtures.put_record "k" 2 0 "v1"]
                ∈ committed_batches fixtures.new_store fixtures.three_blocks).
  { change (committed_batches fixtures.new_store fixtures.three_blocks)
      with [[fixtures.put_record "k" 2 0 "v1"];
            [fixtures.put_record "k" 3 0 "v2"; fixtures.delete_record "j" 3 1]].
    left. }
  split; [exact H|].
  exact (proj2 (replay_of_a_committed_batch_changes_nothing fixtures.new_store
                  fixtures.three_blocks _ no_faults H)).
Defined.

Lemma reads_of_a_session_are_of_one_snapshot_witness :
  reads_keyed fixtures.plain_session /\
  reads_keyed (run fixtures.plain_session samples.read_write_read) /\
  NoDup (KVRead_Key <$>
         storage.Reads
           (Result (run fixtures.plain_session samples.read_write_read))).
Proof.
  assert (H : reads_keyed fixtures.plain_session).
  { intros k r Hr. unfold fixtures.plain_session in Hr.
    cbn [reads] in Hr. by rewrite lookup_empty in Hr. }
  split; [exact H|].
  destruct (reads_of_a_session_are_of_one_snapshot fixtures.plain_session
              samples.read_write_read H) as (Hk & Hn & _).
  split; [exact Hk | exact Hn].
Defined.






Lemma SubscribeBlocks_stops_at_the_first_failure_witness :
  SubscribeBlocks (handle samples.codec)
    (mkStream None None None ([RecvOther] ++ RecvStatus None :: []))
    fixtures.new_store
    = Some (fixtures.new_store, committer.Returned None).
Proof.
  pose proof (SubscribeBlocks_stops_at_the_first_failure
                (handle samples.codec) [RecvOther] [] fixtures.new_store
                fixtures.new_store eq_refl) as H.
  cbv zeta in H. exact (proj1 (proj2 (proj2 (proj2 (proj2 H))))).
Defined.

Lemma Run_keeps_the_store_consistent_witness :
  progress_typed fixtures.new_store /\
  Run samples.codec None fixtures.new_store samples.feed
    = Some (samples.after_block_2,
            [Subscribe 1; Sleep committer.Second], committer.Returned None) /\
  last_block fixtures.new_store <= last_block samples.after_block_2.
Proof.
  assert (Ht : progress_typed fixtures.new_store) by apply progress_typed_New.
  assert (Hb : Forall (fun b => is_uint64 (Number b)) (offered samples.feed)).
  { change (offered samples.feed) with [samples.block_2].
    constructor; [unfold is_uint64; simpl; lia | constructor]. }
  assert (Hr : Run samples.codec None fixtures.new_store samples.feed
               = Some (samples.after_block_2,
                       [Subscribe 1; Sleep committer.Second],
                       committer.Returned None))
    by (vm_compute; reflexivity).
  split; [exact Ht|]. split; [exact Hr|].
  exact (proj1 (Run_keeps_the_store_consistent samples.codec None
                  fixtures.new_store samples.feed _ _ _ Ht Hb Hr)).
Defined.

Lemma block_delivered_again_changes_nothing_witness :
  OnVersionedDB.processBlock samples.codec None no_faults fixtures.new_store
    samples.block_2 = Some (samples.after_block_2, None) /\
  exists err,
    OnVersionedDB.processBlock samples.codec (Some "down"%string) no_faults
      (ingest_all samples.after_block_2 [CallMarkProcessed None 9])
      samples.block_2
    = Some (ingest_all samples.after_block_2 [CallMarkProcessed None 9], err).
Proof.
  assert (H : OnVersionedDB.processBlock samples.codec None no_faults
                fixtures.new_store samples.block_2
              = Some (samples.after_block_2, None))
    by (vm_compute; reflexivity).
  split; [exact H|].
  exact (block_delivered_again_changes_nothing samples.codec fixtures.new_store
           samples.block_2 samples.after_block_2 [CallMarkProcessed None 9]
           (Some "down"%string) no_faults H).
Defined.

Lemma SplitCompositeKey_of_a_composite_key_witness :
  integration.SplitCompositeKey
    (integration.composite Ascii.zero "obj" ["a"; "b"]%string "tail")
    = Some ("obj"%string, ["a"; "b"]%string, None).
Proof.
  apply SplitCompositeKey_of_a_composite_key.
  - reflexivity.
  - repeat constructor.
  - reflexivity.
Defined.

Lemma own_writes_session_values k kw :
  writes fixtures.own_writes_session !! k = Some kw ->
  KVWrite_Value kw <> Some [].
Proof.
  unfold fixtures.own_writes_session, PutState. simpl.
  rewrite lookup_insert. case_decide; [|by rewrite lookup_empty].
  by intros [= <-].
Qed.

Lemma session_writes_are_read_back_witness :
  Get (sql.bind_uint64 fixtures.high_bit_refused 4 None)
    (BatchInsert no_faults fixtures.ingested
       (integration.committed_records "ns" 4 0 "tx4"
          fixtures.own_writes_session)).1
    "ns" "j" 4
    = (Some (mkWriteRecord "ns" "j" 4 0 (bytes_of "A") false "tx4"), None).
Proof.
  refine (proj1 (session_writes_are_read_back fixtures.high_bit_refused
                   no_faults fixtures.ingested
                   fixtures.own_writes_session "ns" 4 0 "tx4" _ "j" 4
                   keyed_own_writes_session own_writes_session_values
                   ingested_below_4 _ _ _)).
  - vm_compute. reflexivity.
  - lia.
  - lia.
Defined.

Lemma next_transaction_reads_the_committed_version_witness :
  exists s1,
    integration.NewTransaction None (fun _ => None) "ns"
      (BatchInsert no_faults fixtures.ingested
         (integration.committed_records "ns" 4 0 "tx4"
            fixtures.own_writes_session)).1 = inl s1 /\
    SimulationStore_Version s1 = 4.
Proof.
  destruct (next_transaction_reads_the_committed_version no_faults
              fixtures.ingested fixtures.own_writes_session "ns" 4 0 "tx4"
              (BatchInsert no_faults fixtures.ingested
                 (integration.committed_records "ns" 4 0 "tx4"
                    fixtures.own_writes_session)).1
              "j" (mkKVWrite "j" false (bytes_of "A"))
              keyed_own_writes_session typed_ingested)
    as (s1 & Hs1 & Hv & _).
  - unfold is_uint64. lia.
  - exact rows_below_ingested.
  - vm_compute. reflexivity.
  - vm_compute. reflexivity.
  - reflexivity.
  - exists s1. split; [exact Hs1 | exact Hv].
Defined.

Lemma WaitUntilSynced_on_a_Store_waits_through_failures_witness :
  forallb legacy_wait.goes_on samples.six_failures = true /\
  committer.OnStore.WaitUntilSynced samples.six_failures = committer.Blocked /\
  committer.OnStore.WaitUntilSynced (samples.six_failures ++ [committer.Done])
    = committer.Returned (Some "time out waiting for sync"%string).
Proof.
  assert (H : forallb legacy_wait.goes_on samples.six_failures = true)
    by reflexivity.
  split; [exact H|].
  destruct (WaitUntilSynced_on_a_Store_waits_through_failures
              samples.six_failures [] H) as (Hb & Hd & _).
  split; [exact Hb | exact Hd].
Defined.

Lemma the_two_stubs_keep_the_same_writes_witness :
  exists st',
    stub.simulate_all (stub.made fixtures.key_exists_Stub)
      [CallPutState "a" (bytes_of "1"); CallDelState "a"] = Some st' /\
    stub.writes st'
      = Some (stub.of_session <$>
              writes (simulate_all fixtures.newStub
                        [CallPutState "a" (bytes_of "1"); CallDelState "a"])).
Proof.
  destruct (proj1 (the_two_stubs_keep_the_same_writes fixtures.newStub
                     (stub.made fixtures.key_exists_Stub)
                     [CallPutState "a" (bytes_of "1"); CallDelState "a"]
                     eq_refl
                     ltac:(repeat constructor; vm_compute; discriminate)))
    as (st' & Hst' & Hw' & _).
  exists st'. split; [exact Hst' | exact Hw'].
Defined.

(** A stub of a factory over a store at block 3. *)
Lemma a_new_Stub_panics_on_its_first_write_witness :
  exists st,
    stub.New samples.factory = inl st /\
    stub.PutState st "k" (bytes_of "v") = None /\
    stub.DelState st "k" = None.
Proof.
  pose proof (a_new_Stub_panics_on_its_first_write samples.factory) as H.
  destruct (stub.New samples.factory) as [st|err] eqn:Hnew.
  - destruct H as (_ & _ & _ & _ & Hput & _ & Hdel & _).
    exists st. split; [reflexivity|]. split; [by apply Hput | apply Hdel].
  - discriminate Hnew.
Defined.

End further_witnesses.
